(** * yazl (arbendium fork): the archive assembly engine, embedded in Rocq

    Shallow embedding of [src/lowlevel.js] and [src/index.js].

    - JavaScript numbers that count bytes are integers: [Z].
    - A [Buffer] is a list of byte values, a JavaScript string a list of
      UTF-16 code units.
    - A value that may be [undefined] is an [option].
    - A function that may throw returns a [result]. *)

From Stdlib Require Import ZArith List Bool Lia Ascii String.
From stdpp Require Import base option list gmap.
Import ListNotations.
Local Open Scope Z_scope.

(** ** Values *)

Definition Buffer := list Z.
Definition jsstring := list Z.

(** Code units of an ASCII literal, to write examples. *)
Definition str (s : string) : jsstring :=
  List.map (fun a => Z.of_nat (nat_of_ascii a)) (list_ascii_of_string s).

Definition blen {A} (l : list A) : Z := Z.of_nat (List.length l).

(** ** Errors

    One constructor per [throw new Error(...)] of the source, one for the
    RangeError that Node's [Buffer.writeUInt16LE]/[writeUInt32LE] raise on a
    value outside the field, and one for failures of the collaborators
    ([fs], [zlib]). *)
Inductive Error :=
| ErrFinalized                       (* 'Zip file has been finalized' *)
| ErrCommentTooLarge                 (* 'comment is too large' *)
| ErrCommentHasSignature             (* 'comment contains end of central directory record signature' *)
| ErrEmptyPath                       (* 'empty metadataPath' *)
| ErrAbsolutePath (p : jsstring)     (* 'absolute path: ...' *)
| ErrInvalidRelativePath (p : jsstring) (* 'invalid relative path: ...' *)
| ErrFileEndsWithSlash (p : jsstring)   (* 'file path cannot end with '/': ...' *)
| ErrBufferTooLarge (n : Z)          (* 'buffer too large: ...' *)
| ErrNameTooLong (n : Z)             (* 'utf8 file name too long. ...' *)
| ErrInvalidMode                     (* 'invalid mode. expected: ...' *)
| ErrFileCommentTooLarge             (* 'File comment is too large' *)
| ErrNotAFile                        (* 'not a file: ...' *)
| ErrUnexpectedCompressedSize        (* 'Unexpected compressed size' *)
| ErrUnexpectedByteCount             (* 'file data stream has unexpected number of bytes' *)
| ErrNotEncodable (c : Z)            (* 'character not encodable in CP437: ...' *)
| ErrOutOfRange                      (* ERR_OUT_OF_RANGE of a Buffer write *)
| ErrExternal (code : Z).            (* rejection coming from fs or zlib *)

Inductive result (A : Type) :=
| Ok (a : A)
| Err (e : Error).
Arguments Ok {A} a.
Arguments Err {A} e.

Definition rbind {A B} (r : result A) (k : A -> result B) : result B :=
  match r with
  | Ok a => k a
  | Err e => Err e
  end.

Notation "'let!' x ':=' r 'in' k" := (rbind r (fun x => k))
  (at level 10, x pattern, r at level 100, k at level 200).

Definition isErr {A} (r : result A) : Prop :=
  match r with Ok _ => False | Err _ => True end.

(** ** Strings: the pieces of [String.prototype] and [RegExp] the source uses *)

Definition chBackslash : Z := 92.
Definition chSlash : Z := 47.
Definition chColon : Z := 58.
Definition chDot : Z := 46.

(** [s.replace(/\\/g, '/')] *)
Definition replaceBackslashes (s : jsstring) : jsstring :=
  List.map (fun c => if c =? chBackslash then chSlash else c) s.

(** [[a-zA-Z]] *)
Definition isAsciiLetter (c : Z) : bool :=
  ((97 <=? c) && (c <=? 122)) || ((65 <=? c) && (c <=? 90)).

(** [/^[a-zA-Z]:/.test(s)] *)
Definition testDriveLetter (s : jsstring) : bool :=
  match s with
  | c :: d :: _ => isAsciiLetter c && (d =? chColon)
  | _ => false
  end.

(** [/^\//.test(s)] *)
Definition testLeadingSlash (s : jsstring) : bool :=
  match s with
  | c :: _ => c =? chSlash
  | [] => false
  end.

(** [/\/$/.test(s)]: without the [m] flag [$] is the end of the input. *)
Fixpoint testTrailingSlash (s : jsstring) : bool :=
  match s with
  | [] => false
  | [c] => c =? chSlash
  | _ :: rest => testTrailingSlash rest
  end.

(** [s.split(sep)] for a one-character separator. *)
Fixpoint split (sep : Z) (s : jsstring) : list jsstring :=
  match s with
  | [] => [[]]
  | c :: rest =>
      if c =? sep then [] :: split sep rest
      else match split sep rest with
           | seg :: segs => (c :: seg) :: segs
           | [] => [[c]]
           end
  end.

(** [segments.indexOf(x)]: first position holding [x], or [-1]. *)
Fixpoint indexOf (segments : list jsstring) (x : jsstring) : Z :=
  match segments with
  | [] => -1
  | seg :: rest =>
      if bool_decide (seg = x) then 0
      else let i := indexOf rest x in
           if i =? -1 then -1 else i + 1
  end.

(** ** [validateMetadataPath] (lowlevel.js 388-400) *)
Definition validateMetadataPath (metadataPath : jsstring) (isDirectory : bool)
  : result jsstring :=
  if bool_decide (metadataPath = []) then Err ErrEmptyPath else
  let metadataPath := replaceBackslashes metadataPath in
  if testDriveLetter metadataPath || testLeadingSlash metadataPath
  then Err (ErrAbsolutePath metadataPath) else
  if negb (indexOf (split chSlash metadataPath) [chDot; chDot] =? -1)
  then Err (ErrInvalidRelativePath metadataPath) else
  let looksLikeDirectory := testTrailingSlash metadataPath in
  if isDirectory then
    Ok (if negb looksLikeDirectory then metadataPath ++ [chSlash] else metadataPath)
  else if looksLikeDirectory then Err (ErrFileEndsWithSlash metadataPath)
  else Ok metadataPath.

(** ** Buffers: Node's little-endian writers

    [buf.writeUInt16LE(v, off)] and [buf.writeUInt32LE(v, off)] throw
    ERR_OUT_OF_RANGE when [v] is outside the field and store the bytes of
    [v], low byte first, otherwise. On [undefined] (which [+value] turns into
    NaN) the range test passes and zero bytes are stored. As every encoder
    allocates a buffer of the exact size and fills it front to back, a write
    is modelled by the bytes it stores. *)

Definition inRange (v hi : Z) : bool := (0 <=? v) && (v <=? hi).

Definition writeUInt16LE (v : Z) : result Buffer :=
  if inRange v 0xffff then Ok [v mod 256; (v / 256) mod 256]
  else Err ErrOutOfRange.

Definition writeUInt32LE (v : Z) : result Buffer :=
  if inRange v 0xffffffff
  then Ok [v mod 256; (v / 256) mod 256; (v / 65536) mod 256; (v / 16777216) mod 256]
  else Err ErrOutOfRange.

(** A field holding a number or [undefined]. *)
Definition writeUInt32LE_opt (v : option Z) : result Buffer :=
  match v with
  | Some n => writeUInt32LE n
  | None => Ok [0; 0; 0; 0]
  end.

(** [writeUInt64LE] (lowlevel.js 646-652): [Math.floor(n / 2^32)] is the
    floor quotient, [n % 2^32] the remainder with the sign of [n]. *)
Definition writeUInt64LE (n : Z) : result Buffer :=
  let high := n / 0x100000000 in
  let low := Z.rem n 0x100000000 in
  let! l := writeUInt32LE low in
  let! h := writeUInt32LE high in
  Ok (l ++ h).

(** On [undefined] both halves are NaN. *)
Definition writeUInt64LE_opt (v : option Z) : result Buffer :=
  match v with
  | Some n => writeUInt64LE n
  | None => Ok [0; 0; 0; 0; 0; 0; 0; 0]
  end.

(** Readers, used to state what a record holds. *)
Definition byteAt (b : Buffer) (off : nat) : Z := List.nth off b 0.

Definition readUInt16LE (b : Buffer) (off : nat) : Z :=
  byteAt b off + 256 * byteAt b (off + 1).

Definition readUInt32LE (b : Buffer) (off : nat) : Z :=
  byteAt b off + 256 * byteAt b (off + 1)
  + 65536 * byteAt b (off + 2) + 16777216 * byteAt b (off + 3).

Definition readUInt64LE (b : Buffer) (off : nat) : Z :=
  readUInt32LE b off + 0x100000000 * readUInt32LE b (off + 4).

(** [haystack.includes(needle)] on buffers. *)
Fixpoint startsWith (needle haystack : Buffer) : bool :=
  match needle, haystack with
  | [], _ => true
  | _ :: _, [] => false
  | n :: needle', h :: haystack' => (n =? h) && startsWith needle' haystack'
  end.

Fixpoint includes (haystack needle : Buffer) : bool :=
  startsWith needle haystack
  || match haystack with
     | [] => false
     | _ :: rest => includes rest needle
     end.

(** [Buffer.from(s, 'utf-8')]: UTF-8 of a UTF-16 string; a surrogate that is
    not part of a pair is encoded as U+FFFD. *)
Definition isHighSurrogate (c : Z) : bool := (0xD800 <=? c) && (c <=? 0xDBFF).
Definition isLowSurrogate (c : Z) : bool := (0xDC00 <=? c) && (c <=? 0xDFFF).
Definition utf8Replacement : Buffer := [0xEF; 0xBF; 0xBD].

Definition utf8Of3 (c : Z) : Buffer :=
  [0xE0 + c / 4096; 0x80 + (c / 64) mod 64; 0x80 + c mod 64].

Definition utf8Of4 (cp : Z) : Buffer :=
  [0xF0 + cp / 262144; 0x80 + (cp / 4096) mod 64;
   0x80 + (cp / 64) mod 64; 0x80 + cp mod 64].

Fixpoint utf8Encode (s : jsstring) : Buffer :=
  match s with
  | [] => []
  | c :: rest =>
      if c <? 0x80 then c :: utf8Encode rest
      else if c <? 0x800 then [0xC0 + c / 64; 0x80 + c mod 64] ++ utf8Encode rest
      else if isHighSurrogate c then
        match rest with
        | d :: rest' =>
            if isLowSurrogate d
            then utf8Of4 (0x10000 + (c - 0xD800) * 1024 + (d - 0xDC00)) ++ utf8Encode rest'
            else utf8Replacement ++ utf8Encode rest
        | [] => utf8Replacement
        end
      else if isLowSurrogate c then utf8Replacement ++ utf8Encode rest
      else utf8Of3 c ++ utf8Encode rest
  end.

(** ** CP437 (lowlevel.js 654-681) *)

Definition cp437 : jsstring :=
  [0; 9786; 9787; 9829; 9830; 9827; 9824; 8226; 9688; 9675; 9689; 9794; 9792;
   9834; 9835; 9788; 9658; 9668; 8597; 8252; 182; 167; 9644; 8616; 8593; 8595;
   8594; 8592; 8735; 8596; 9650; 9660;
   32; 33; 34; 35; 36; 37; 38; 39; 40; 41; 42; 43; 44; 45; 46; 47;
   48; 49; 50; 51; 52; 53; 54; 55; 56; 57; 58; 59; 60; 61; 62; 63;
   64; 65; 66; 67; 68; 69; 70; 71; 72; 73; 74; 75; 76; 77; 78; 79;
   80; 81; 82; 83; 84; 85; 86; 87; 88; 89; 90; 91; 92; 93; 94; 95;
   96; 97; 98; 99; 100; 101; 102; 103; 104; 105; 106; 107; 108; 109; 110; 111;
   112; 113; 114; 115; 116; 117; 118; 119; 120; 121; 122; 123; 124; 125; 126;
   8962;
   199; 252; 233; 226; 228; 224; 229; 231; 234; 235; 232; 239; 238; 236; 196;
   197; 201; 230; 198; 244; 246; 242; 251; 249; 255; 214; 220; 162; 163; 165;
   8359; 402; 225; 237; 243; 250; 241; 209; 170; 186; 191; 8976; 172; 189;
   188; 161; 171; 187;
   9617; 9618; 9619; 9474; 9508; 9569; 9570; 9558; 9557; 9571; 9553; 9559;
   9565; 9564; 9563; 9488; 9492; 9524; 9516; 9500; 9472; 9532; 9566; 9567;
   9562; 9556; 9577; 9574; 9568; 9552; 9580; 9575; 9576; 9572; 9573; 9561;
   9560; 9554; 9555; 9579; 9578; 9496; 9484; 9608; 9604; 9612; 9616; 9600;
   945; 223; 915; 960; 931; 963; 181; 964; 934; 920; 937; 948; 8734; 966; 949;
   8745; 8801; 177; 8805; 8804; 8992; 8993; 247; 8776; 176; 8729; 183; 8730;
   8319; 178; 9632; 160].

(** The loop [for (i = 0; i < cp437.length; i++) reverseCp437[cp437[i]] = i],
    started from the object [m] with [i] at the head of [table]. *)
Fixpoint fillReverse (table : jsstring) (i : Z) (m : gmap Z Z) : gmap Z Z :=
  match table with
  | [] => m
  | c :: rest => fillReverse rest (i + 1) (<[c := i]> m)
  end.

(** The cache [reverseCp437]: built on first use, the same object ever after. *)
Definition reverseCp437 : gmap Z Z := fillReverse cp437 0 ∅.

(** [/^[\x20-\x7e]*$/.test(s)] *)
Definition testPrintableAscii (s : jsstring) : bool :=
  forallb (fun c => (0x20 <=? c) && (c <=? 0x7e)) s.

(** The loop of the slow path: [result[i] = reverseCp437[string[i]]]. *)
Fixpoint encodeCp437Slow (s : jsstring) : result Buffer :=
  match s with
  | [] => Ok []
  | c :: rest =>
      match reverseCp437 !! c with
      | None => Err (ErrNotEncodable c)
      | Some b => let! bs := encodeCp437Slow rest in Ok (b :: bs)
      end
  end.

Definition encodeCp437 (s : jsstring) : result Buffer :=
  if testPrintableAscii s then Ok (utf8Encode s)
  else encodeCp437Slow s.

(** ** Entries (lowlevel.js 576-644) *)

(** The UTC fields of a JavaScript [Date], as its getters return them
    ([getUTCMonth] counts from 0). *)
Record Date := {
  getUTCFullYear : Z;
  getUTCMonth : Z;
  getUTCDate : Z;
  getUTCHours : Z;
  getUTCMinutes : Z;
  getUTCSeconds : Z
}.

Record DosDateTime := { dos_date : Z; dos_time : Z }.

Definition dateToDosDateTime (date : Date) : DosDateTime :=
  {| dos_date :=
       Z.lor (Z.lor (Z.land (getUTCDate date) 0x1f)
                    (Z.shiftl (Z.land (getUTCMonth date + 1) 0xf) 5))
             (Z.shiftl (Z.land (getUTCFullYear date - 1980) 0x7f) 9);
     dos_time :=
       Z.lor (Z.lor (getUTCSeconds date / 2)
                    (Z.shiftl (Z.land (getUTCMinutes date) 0x3f) 5))
             (Z.shiftl (Z.land (getUTCHours date) 0x1f) 11) |}.

(** A comment is given as a string or as a buffer. *)
Inductive Comment :=
| CommentString (s : jsstring)
| CommentBuffer (b : Buffer).

(** The options object of the add operations, with the keys the source
    reads or writes. [o_uncompressedSize] is the key [DirectoryEntry] sets;
    [Entry] reads [o_size]. *)
Record Options := {
  o_compress : option bool;
  o_forceZip64Format : option bool;
  o_mode : option Z;
  o_mtime : option Date;
  o_fileComment : option Comment;
  o_crc32 : option Z;
  o_size : option Z;
  o_compressedSize : option Z;
  o_uncompressedSize : option Z
}.

Definition noOptions : Options :=
  {| o_compress := None; o_forceZip64Format := None; o_mode := None;
     o_mtime := None; o_fileComment := None; o_crc32 := None;
     o_size := None; o_compressedSize := None; o_uncompressedSize := None |}.

Record Entry := {
  utf8FileName : Buffer;
  lastModFileTime : Z;
  lastModFileDate : Z;
  externalFileAttributes : Z;
  crc32 : option Z;
  uncompressedSize : option Z;
  compressedSize : option Z;
  compress : bool;
  crcAndFileSizeKnown : bool;
  forceZip64Format : bool;
  fileComment : Buffer;
  relativeOffsetOfLocalHeader : option Z
}.

(** [x != null] *)
Definition notNull {A} (x : option A) : bool :=
  match x with Some _ => true | None => false end.

(** [!!x] for a boolean option that may be missing. *)
Definition truthy (x : option bool) : bool := default false x.

(** [(mode << 16) >>> 0] *)
Definition shiftMode (mode : Z) : Z := Z.shiftl mode 16 mod 0x100000000.

(** [new Entry(metadataPath, options)]; [now] is what [new Date()] returns. *)
Definition Entry_new (now : Date) (metadataPath : jsstring) (options : Options)
  : result Entry :=
  let utf8FileName := utf8Encode metadataPath in
  if blen utf8FileName >? 0xffff then Err (ErrNameTooLong (blen utf8FileName)) else
  let dosDateTime := dateToDosDateTime (default now (o_mtime options)) in
  match o_mode options with
  | None => Err ErrInvalidMode
  | Some mode =>
      if negb (Z.land mode 0xffff =? mode) then Err ErrInvalidMode else
      let crc32 := o_crc32 options in
      let uncompressedSize := o_size options in
      let compressedSize := o_compressedSize options in
      let entry fileComment :=
        {| utf8FileName := utf8FileName;
           lastModFileTime := dos_time dosDateTime;
           lastModFileDate := dos_date dosDateTime;
           externalFileAttributes := shiftMode mode;
           crc32 := crc32;
           uncompressedSize := uncompressedSize;
           compressedSize := compressedSize;
           compress := truthy (o_compress options);
           crcAndFileSizeKnown :=
             notNull crc32 && notNull uncompressedSize && notNull compressedSize;
           forceZip64Format := truthy (o_forceZip64Format options);
           fileComment := fileComment;
           relativeOffsetOfLocalHeader := None |} in
      match o_fileComment options with
      | None => Ok (entry [])
      | Some c =>
          let fileComment :=
            match c with
            | CommentString s => utf8Encode s
            | CommentBuffer b => b
            end in
          if blen fileComment >? 0xffff then Err ErrFileCommentTooLarge
          else Ok (entry fileComment)
      end
  end.

(** [new DirectoryEntry(metadataPath, options)] *)
Definition DirectoryEntry_new (now : Date) (metadataPath : jsstring) (options : Options)
  : result Entry :=
  Entry_new now metadataPath
    {| o_compress := Some false;
       o_forceZip64Format := o_forceZip64Format options;
       o_mode := Some (default 16893 (o_mode options));   (* 0o40775 *)
       o_mtime := o_mtime options;
       o_fileComment := o_fileComment options;
       o_crc32 := Some 0;
       o_size := o_size options;
       o_compressedSize := Some 0;
       o_uncompressedSize := Some 0 |}.

(** [new FileEntry(metadataPath, options)] *)
Definition FileEntry_new (now : Date) (metadataPath : jsstring) (options : Options)
  : result Entry :=
  Entry_new now metadataPath
    {| o_compress := o_compress options;
       o_forceZip64Format := o_forceZip64Format options;
       o_mode := Some (default 33204 (o_mode options));   (* 0o100664 *)
       o_mtime := o_mtime options;
       o_fileComment := o_fileComment options;
       o_crc32 := o_crc32 options;
       o_size := o_size options;
       o_compressedSize := o_compressedSize options;
       o_uncompressedSize := o_uncompressedSize options |}.

(** ** Byte encoders (lowlevel.js 282-386, 402-574) *)

Definition LOCAL_FILE_HEADER_FIXED_SIZE : Z := 30.
Definition VERSION_NEEDED_TO_EXTRACT_UTF8 : Z := 20.
Definition VERSION_NEEDED_TO_EXTRACT_ZIP64 : Z := 45.
Definition VERSION_MADE_BY : Z := Z.lor (Z.shiftl 3 8) 63.
Definition FILE_NAME_IS_UTF8 : Z := Z.shiftl 1 11.
Definition UNKNOWN_CRC32_AND_FILE_SIZES : Z := Z.shiftl 1 3.
Definition eocdrSignatureBuffer : Buffer := [0x50; 0x4b; 0x05; 0x06].
Definition ZIP64_END_OF_CENTRAL_DIRECTORY_RECORD_SIZE : Z := 56.
Definition ZIP64_END_OF_CENTRAL_DIRECTORY_LOCATOR_SIZE : Z := 20.
Definition END_OF_CENTRAL_DIRECTORY_RECORD_SIZE : Z := 22.
Definition DATA_DESCRIPTOR_SIZE : Z := 16.
Definition ZIP64_DATA_DESCRIPTOR_SIZE : Z := 24.
Definition CENTRAL_DIRECTORY_RECORD_FIXED_SIZE : Z := 46.
Definition ZIP64_EXTENDED_INFORMATION_EXTRA_FIELD_SIZE : Z := 28.

(** [x > n] where [x] may be [undefined]: the comparison with NaN is false. *)
Definition gtNumber (x : option Z) (n : Z) : bool :=
  match x with
  | Some v => n <? v
  | None => false
  end.

Definition generalPurposeBitFlag (entry : Entry) : Z :=
  if negb (crcAndFileSizeKnown entry)
  then Z.lor FILE_NAME_IS_UTF8 UNKNOWN_CRC32_AND_FILE_SIZES
  else FILE_NAME_IS_UTF8.

Definition compressionMethod (entry : Entry) : Z :=
  if compress entry then 8 else 0.

(** The test both [getCentralDirectoryRecord] and [getDataDescriptor] make. *)
Definition useZip64Format (entry : Entry) : bool :=
  forceZip64Format entry
  || gtNumber (uncompressedSize entry) 0xfffffffe
  || gtNumber (compressedSize entry) 0xfffffffe
  || gtNumber (relativeOffsetOfLocalHeader entry) 0xfffffffe.

Definition getCentralDirectoryRecord (entry : Entry) : result Buffer :=
  let useZip64Format := useZip64Format entry in
  let normalCompressedSize :=
    if useZip64Format then Some 0xffffffff else compressedSize entry in
  let normalUncompressedSize :=
    if useZip64Format then Some 0xffffffff else uncompressedSize entry in
  let normalRelativeOffsetOfLocalHeader :=
    if useZip64Format then Some 0xffffffff else relativeOffsetOfLocalHeader entry in
  let versionNeededToExtract :=
    if useZip64Format then VERSION_NEEDED_TO_EXTRACT_ZIP64
    else VERSION_NEEDED_TO_EXTRACT_UTF8 in
  let! zeiefBuffer :=
    if useZip64Format then
      let! tag := writeUInt16LE 0x0001 in
      let! sz := writeUInt16LE (ZIP64_EXTENDED_INFORMATION_EXTRA_FIELD_SIZE - 4) in
      let! original := writeUInt64LE_opt (uncompressedSize entry) in
      let! compressed := writeUInt64LE_opt (compressedSize entry) in
      let! offset := writeUInt64LE_opt (relativeOffsetOfLocalHeader entry) in
      Ok (tag ++ sz ++ original ++ compressed ++ offset)
    else Ok [] in
  let! f0 := writeUInt32LE 0x02014b50 in
  let! f4 := writeUInt16LE VERSION_MADE_BY in
  let! f6 := writeUInt16LE versionNeededToExtract in
  let! f8 := writeUInt16LE (generalPurposeBitFlag entry) in
  let! f10 := writeUInt16LE (compressionMethod entry) in
  let! f12 := writeUInt16LE (lastModFileTime entry) in
  let! f14 := writeUInt16LE (lastModFileDate entry) in
  let! f16 := writeUInt32LE_opt (crc32 entry) in
  let! f20 := writeUInt32LE_opt normalCompressedSize in
  let! f24 := writeUInt32LE_opt normalUncompressedSize in
  let! f28 := writeUInt16LE (blen (utf8FileName entry)) in
  let! f30 := writeUInt16LE (blen zeiefBuffer) in
  let! f32 := writeUInt16LE (blen (fileComment entry)) in
  let! f34 := writeUInt16LE 0 in
  let! f36 := writeUInt16LE 0 in
  let! f38 := writeUInt32LE (externalFileAttributes entry) in
  let! f42 := writeUInt32LE_opt normalRelativeOffsetOfLocalHeader in
  let fixedSizeStuff :=
    f0 ++ f4 ++ f6 ++ f8 ++ f10 ++ f12 ++ f14 ++ f16 ++ f20 ++ f24
       ++ f28 ++ f30 ++ f32 ++ f34 ++ f36 ++ f38 ++ f42 in
  Ok (fixedSizeStuff ++ utf8FileName entry ++ zeiefBuffer ++ fileComment entry).

Definition getLocalFileHeader (entry : Entry) : result Buffer :=
  let crc32 := if crcAndFileSizeKnown entry then crc32 entry else Some 0 in
  let compressedSize :=
    if crcAndFileSizeKnown entry then compressedSize entry else Some 0 in
  let uncompressedSize :=
    if crcAndFileSizeKnown entry then uncompressedSize entry else Some 0 in
  let! f0 := writeUInt32LE 0x04034b50 in
  let! f4 := writeUInt16LE VERSION_NEEDED_TO_EXTRACT_UTF8 in
  let! f6 := writeUInt16LE (generalPurposeBitFlag entry) in
  let! f8 := writeUInt16LE (compressionMethod entry) in
  let! f10 := writeUInt16LE (lastModFileTime entry) in
  let! f12 := writeUInt16LE (lastModFileDate entry) in
  let! f14 := writeUInt32LE_opt crc32 in
  let! f18 := writeUInt32LE_opt compressedSize in
  let! f22 := writeUInt32LE_opt uncompressedSize in
  let! f26 := writeUInt16LE (blen (utf8FileName entry)) in
  let! f28 := writeUInt16LE 0 in
  let fixedSizeStuff :=
    f0 ++ f4 ++ f6 ++ f8 ++ f10 ++ f12 ++ f14 ++ f18 ++ f22 ++ f26 ++ f28 in
  Ok (fixedSizeStuff ++ utf8FileName entry).

Definition getDataDescriptor (entry : Entry) : result Buffer :=
  if crcAndFileSizeKnown entry then Ok [] else
  if negb (useZip64Format entry) then
    let! f0 := writeUInt32LE 0x08074b50 in
    let! f4 := writeUInt32LE_opt (crc32 entry) in
    let! f8 := writeUInt32LE_opt (compressedSize entry) in
    let! f12 := writeUInt32LE_opt (uncompressedSize entry) in
    Ok (f0 ++ f4 ++ f8 ++ f12)
  else
    let! f0 := writeUInt32LE 0x08074b50 in
    let! f4 := writeUInt32LE_opt (crc32 entry) in
    let! f8 := writeUInt64LE_opt (compressedSize entry) in
    let! f16 := writeUInt64LE_opt (uncompressedSize entry) in
    Ok (f0 ++ f4 ++ f8 ++ f16).

(** The object [addCentralDirectoryRecord] builds, hands to
    [getEndOfCentralDirectoryRecord] and resolves with. *)
Record EndRecord := {
  r_offsetOfStartOfCentralDirectory : Z;
  r_forceZip64Format : bool;
  r_comment : Buffer;
  r_outputStreamCursor : Z;
  r_entriesCount : Z
}.

(** What [getEndOfCentralDirectoryRecord] returns: a length when
    [actuallyJustTellMeHowLongItWouldBe] is set, the bytes otherwise. *)
Inductive EocdrReturn :=
| EocdrLength (n : Z)
| EocdrBytes (b : Buffer).

Definition needZip64Format (record : EndRecord) : bool :=
  let forceZip64Format := r_forceZip64Format record in
  let sizeOfCentralDirectory :=
    r_outputStreamCursor record - r_offsetOfStartOfCentralDirectory record in
  (forceZip64Format || (r_entriesCount record >=? 0xffff))
  || (forceZip64Format || (sizeOfCentralDirectory >=? 0xffffffff))
  || (forceZip64Format || (r_offsetOfStartOfCentralDirectory record >=? 0xffffffff)).

Definition getEndOfCentralDirectoryRecord (record : EndRecord)
    (actuallyJustTellMeHowLongItWouldBe : bool) : result EocdrReturn :=
  let entriesCount := r_entriesCount record in
  let outputStreamCursor := r_outputStreamCursor record in
  let offsetOfStartOfCentralDirectory := r_offsetOfStartOfCentralDirectory record in
  let comment := r_comment record in
  let forceZip64Format := r_forceZip64Format record in
  let normalEntriesLength :=
    if forceZip64Format || (entriesCount >=? 0xffff) then 0xffff else entriesCount in
  let sizeOfCentralDirectory := outputStreamCursor - offsetOfStartOfCentralDirectory in
  let normalSizeOfCentralDirectory :=
    if forceZip64Format || (sizeOfCentralDirectory >=? 0xffffffff)
    then 0xffffffff else sizeOfCentralDirectory in
  let normalOffsetOfStartOfCentralDirectory :=
    if forceZip64Format || (offsetOfStartOfCentralDirectory >=? 0xffffffff)
    then 0xffffffff else offsetOfStartOfCentralDirectory in
  let needZip64Format := needZip64Format record in
  if actuallyJustTellMeHowLongItWouldBe then
    if needZip64Format then
      Ok (EocdrLength (ZIP64_END_OF_CENTRAL_DIRECTORY_RECORD_SIZE
                       + ZIP64_END_OF_CENTRAL_DIRECTORY_LOCATOR_SIZE
                       + END_OF_CENTRAL_DIRECTORY_RECORD_SIZE))
    else Ok (EocdrLength END_OF_CENTRAL_DIRECTORY_RECORD_SIZE)
  else
  let! e0 := writeUInt32LE 0x06054b50 in
  let! e4 := writeUInt16LE 0 in
  let! e6 := writeUInt16LE 0 in
  let! e8 := writeUInt16LE normalEntriesLength in
  let! e10 := writeUInt16LE normalEntriesLength in
  let! e12 := writeUInt32LE normalSizeOfCentralDirectory in
  let! e16 := writeUInt32LE normalOffsetOfStartOfCentralDirectory in
  let! e20 := writeUInt16LE (blen comment) in
  let eocdrBuffer := e0 ++ e4 ++ e6 ++ e8 ++ e10 ++ e12 ++ e16 ++ e20 ++ comment in
  if negb needZip64Format then Ok (EocdrBytes eocdrBuffer) else
  let! z0 := writeUInt32LE 0x06064b50 in
  let! z4 := writeUInt64LE (ZIP64_END_OF_CENTRAL_DIRECTORY_RECORD_SIZE - 12) in
  let! z12 := writeUInt16LE VERSION_MADE_BY in
  let! z14 := writeUInt16LE VERSION_NEEDED_TO_EXTRACT_ZIP64 in
  let! z16 := writeUInt32LE 0 in
  let! z20 := writeUInt32LE 0 in
  let! z24 := writeUInt64LE entriesCount in
  let! z32 := writeUInt64LE entriesCount in
  let! z40 := writeUInt64LE sizeOfCentralDirectory in
  let! z48 := writeUInt64LE offsetOfStartOfCentralDirectory in
  let zip64EocdrBuffer :=
    z0 ++ z4 ++ z12 ++ z14 ++ z16 ++ z20 ++ z24 ++ z32 ++ z40 ++ z48 in
  let! l0 := writeUInt32LE 0x07064b50 in
  let! l4 := writeUInt32LE 0 in
  let! l8 := writeUInt64LE outputStreamCursor in
  let! l16 := writeUInt32LE 1 in
  let zip64EocdlBuffer := l0 ++ l4 ++ l8 ++ l16 in
  Ok (EocdrBytes (zip64EocdrBuffer ++ zip64EocdlBuffer ++ eocdrBuffer)).

(** ** Collaborators

    [buffer-crc32], [zlib], the byte sources and the consumer of the archive
    are not part of the repository. The checksum and the compressor are an
    interface; a byte source is the chunks it emits and whether it ever
    emits ['end']; of the consumer the code depends on one thing, whether it
    listens for ['error']: Node's [emit('error', e)] calls the listeners and
    returns, and throws [e] when there is none. *)
Class Collaborators := {
  (** [crc32.unsigned(chunk, previous)] *)
  crc32Unsigned : Buffer -> Z -> Z;
  (** [new zlib.DeflateRaw()]: a transform stream with its state *)
  DeflateState : Type;
  deflateInit : DeflateState;
  deflateTransform : DeflateState -> Buffer -> DeflateState * list Buffer;
  deflateFlush : DeflateState -> list Buffer;
  (** [zlib.deflateRaw(buffer, callback)] *)
  deflateRaw : Buffer -> result Buffer;
  (** a listener for ['error'] is attached to the archive *)
  errorListener : bool
}.

Inductive StreamEnd :=
| EmitsEnd
| NeverEnds.

Record ReadStream := { rs_chunks : list Buffer; rs_end : StreamEnd }.

(** What [handle.stat()] answers. *)
Record Stats := { st_isFile : bool; st_mode : Z; st_mtime : Date; st_size : Z }.

(** ** The output side of the archive: a [Readable]

    [push(chunk)] hands a chunk to the consumer; after [push(null)] or
    [destroy()] a chunk is dropped. *)
Record Readable := { received : list Buffer; ended : bool; destroyed : bool }.

Definition push (r : Readable) (chunk : Buffer) : Readable :=
  if ended r || destroyed r then r
  else {| received := received r ++ [chunk]; ended := ended r; destroyed := destroyed r |}.

Definition pushNull (r : Readable) : Readable :=
  {| received := received r; ended := true; destroyed := destroyed r |}.

Definition destroy (r : Readable) : Readable :=
  {| received := received r; ended := ended r; destroyed := true |}.

Definition pushAll (r : Readable) (chunks : list Buffer) : Readable :=
  fold_left push chunks r.

Definition totalLength (chunks : list Buffer) : Z :=
  fold_right (fun c n => blen c + n) 0 chunks.

(** ** The promise chain [this.queue]

    Every add operation replaces [this.queue] by
    [this.queue.then(async () => ...)]; [addCentralDirectoryRecord] chains
    its task on [this.queue] as well. The reactions therefore run one after
    the other in the order of the calls. The state is in three layers:
    - [ZipFile]: the fields of the object, with the state of the promise
      [this.queue] stands for and what the promises handed out settled to;
    - [LowLevel]: the object and the reactions that have not run yet;
    - [Archive]: the subclass of index.js, which keeps the entries. *)

Section Engine.
Context `{Collaborators}.

(** What the [callback] handed to [addEntry] closes over. The promises the
    operation started at call time ([statsPromise], the deflated buffer) are
    stored with the value they settle to. *)
Inductive Task :=
| TaskAddFile (metadataPath : jsstring) (options : Options)
    (statsPromise : result Stats) (readStream : ReadStream)
| TaskAddReadStream (entry : Entry) (readStream : ReadStream)
| TaskAddBuffer (metadataPath : jsstring) (options : Options) (compress : bool)
    (crc32 : Z) (size : Z) (buffer : result Buffer) (now : Date)
| TaskAddEmptyDirectory (metadataPath : jsstring) (options : Options) (now : Date)
| TaskCentralDirectory (entries : nat) (forceZip64Format : bool) (comment : Buffer).

(** The second component of what [callback] returns. *)
Inductive Write :=
| WriteStream (readStream : ReadStream)   (* [() => writeEntryStream(this, entry, readStream)] *)
| WriteBuffer (buffer : Buffer)           (* [() => writeBuffer(this, buffer)] *)
| WriteNothing.                           (* [() => {}] *)

(** The bodies of the four callbacks (lowlevel.js 49-68, 80, 107-120, 126-130). *)
Definition callback (t : Task) : result (Entry * Write) :=
  match t with
  | TaskAddFile metadataPath options statsPromise readStream =>
      let! stats := statsPromise in
      if negb (st_isFile stats) then Err ErrNotAFile else
      let! entry :=
        FileEntry_new (st_mtime stats) metadataPath
          {| o_compress := Some (default true (o_compress options));
             o_forceZip64Format := Some (default false (o_forceZip64Format options));
             o_mode := Some (default (st_mode stats) (o_mode options));
             o_mtime := Some (default (st_mtime stats) (o_mtime options));
             o_fileComment := o_fileComment options;
             o_crc32 := o_crc32 options;
             o_size := Some (st_size stats);
             o_compressedSize := o_compressedSize options;
             o_uncompressedSize := o_uncompressedSize options |} in
      Ok (entry, WriteStream readStream)
  | TaskAddReadStream entry readStream => Ok (entry, WriteStream readStream)
  | TaskAddBuffer metadataPath options compress crc32 size buffer now =>
      let! buffer := buffer in
      let! entry :=
        FileEntry_new now metadataPath
          {| o_compress := Some compress;
             o_forceZip64Format := Some (default false (o_forceZip64Format options));
             o_mode := o_mode options;
             o_mtime := o_mtime options;
             o_fileComment := o_fileComment options;
             o_crc32 := Some crc32;
             o_size := Some size;
             o_compressedSize := Some (blen buffer);
             o_uncompressedSize := o_uncompressedSize options |} in
      Ok (entry, WriteBuffer buffer)
  | TaskAddEmptyDirectory metadataPath options now =>
      let! entry := DirectoryEntry_new now metadataPath options in
      Ok (entry, WriteNothing)
  | TaskCentralDirectory _ _ _ => Err ErrOutOfRange
  end.

(** A task inside [writeEntryStream]: the entry, the [cursor] that
    [addEntry] took after the local header, what the source has yet to emit
    and the variables of the four transforms. *)
Record StreamRun := {
  run_id : nat;
  run_entry : Entry;
  run_cursor : Z;
  run_source : ReadStream;
  run_crc32 : Z;
  run_uncompressedSize : Z;
  run_compressedSize : Z;
  run_deflate : DeflateState
}.

Inductive Chain :=
| Fulfilled                  (* the last reaction that ran fulfilled its promise *)
| Streaming (run : StreamRun) (* a reaction awaits [write()] *)
| Rejected (e : Error)       (* a reaction rejected: those behind it never run *)
| Uncaught (e : Error).      (* the ['end'] listener threw: [write()] never settles *)

(** What the promise returned by an operation settles to. *)
Inductive Settled :=
| SettledEntry (r : result Entry)
| SettledRecord (r : result EndRecord).

Record ZipFile := {
  hasQueue : bool;                 (* [false] after [delete this.queue] *)
  outputStreamCursor : Z;
  offsetOfStartOfCentralDirectory : option Z;
  readable : Readable;
  chain : Chain;
  settled : gmap nat Settled
}.

(** [new ZipFile()] *)
Definition newZipFile : ZipFile :=
  {| hasQueue := true; outputStreamCursor := 0;
     offsetOfStartOfCentralDirectory := None;
     readable := {| received := []; ended := false; destroyed := false |};
     chain := Fulfilled; settled := ∅ |}.

Definition withReadable (self : ZipFile) (r : Readable) (cursor : Z) : ZipFile :=
  {| hasQueue := hasQueue self; outputStreamCursor := cursor;
     offsetOfStartOfCentralDirectory := offsetOfStartOfCentralDirectory self;
     readable := r; chain := chain self; settled := settled self |}.

Definition withChain (self : ZipFile) (c : Chain) : ZipFile :=
  {| hasQueue := hasQueue self; outputStreamCursor := outputStreamCursor self;
     offsetOfStartOfCentralDirectory := offsetOfStartOfCentralDirectory self;
     readable := readable self; chain := c; settled := settled self |}.

Definition withSettled (self : ZipFile) (id : nat) (v : Settled) : ZipFile :=
  {| hasQueue := hasQueue self; outputStreamCursor := outputStreamCursor self;
     offsetOfStartOfCentralDirectory := offsetOfStartOfCentralDirectory self;
     readable := readable self; chain := chain self;
     settled := <[id := v]> (settled self) |}.

Definition withOffsetOfStart (self : ZipFile) (offset : Z) : ZipFile :=
  {| hasQueue := hasQueue self; outputStreamCursor := outputStreamCursor self;
     offsetOfStartOfCentralDirectory := Some offset;
     readable := readable self; chain := chain self; settled := settled self |}.

(** [writeBuffer] (lowlevel.js 227-230) *)
Definition writeBuffer (self : ZipFile) (buffer : Buffer) : ZipFile :=
  withReadable self (push (readable self) buffer) (outputStreamCursor self + blen buffer).

(** The handler of [self.queue.catch] (lowlevel.js 218-222):
    [self.emit('error', e); self.destroy()]. Without a listener [emit]
    throws, and [destroy()] is not reached. The handlers of the operations
    queued behind a rejected one, and the one of [addCentralDirectoryRecord]
    (lowlevel.js 176-180), do the same once more and change nothing. *)
Definition emitError (self : ZipFile) : ZipFile :=
  if errorListener
  then withReadable self (destroy (readable self)) (outputStreamCursor self)
  else self.

(** A reaction of an add operation throws: its promise rejects, and the
    handler of [self.queue.catch] runs. *)
Definition reject (self : ZipFile) (id : nat) (e : Error) : ZipFile :=
  withSettled (withChain (emitError self) (Rejected e)) id (SettledEntry (Err e)).

Definition setOffset (entry : Entry) (offset : Z) : Entry :=
  {| utf8FileName := utf8FileName entry; lastModFileTime := lastModFileTime entry;
     lastModFileDate := lastModFileDate entry;
     externalFileAttributes := externalFileAttributes entry;
     crc32 := crc32 entry; uncompressedSize := uncompressedSize entry;
     compressedSize := compressedSize entry; compress := compress entry;
     crcAndFileSizeKnown := crcAndFileSizeKnown entry;
     forceZip64Format := forceZip64Format entry; fileComment := fileComment entry;
     relativeOffsetOfLocalHeader := Some offset |}.

Definition setCompressedSize (entry : Entry) (n : Z) : Entry :=
  {| utf8FileName := utf8FileName entry; lastModFileTime := lastModFileTime entry;
     lastModFileDate := lastModFileDate entry;
     externalFileAttributes := externalFileAttributes entry;
     crc32 := crc32 entry; uncompressedSize := uncompressedSize entry;
     compressedSize := Some n; compress := compress entry;
     crcAndFileSizeKnown := crcAndFileSizeKnown entry;
     forceZip64Format := forceZip64Format entry; fileComment := fileComment entry;
     relativeOffsetOfLocalHeader := relativeOffsetOfLocalHeader entry |}.

Definition setCrc32 (entry : Entry) (c : Z) : Entry :=
  {| utf8FileName := utf8FileName entry; lastModFileTime := lastModFileTime entry;
     lastModFileDate := lastModFileDate entry;
     externalFileAttributes := externalFileAttributes entry;
     crc32 := Some c; uncompressedSize := uncompressedSize entry;
     compressedSize := compressedSize entry; compress := compress entry;
     crcAndFileSizeKnown := crcAndFileSizeKnown entry;
     forceZip64Format := forceZip64Format entry; fileComment := fileComment entry;
     relativeOffsetOfLocalHeader := relativeOffsetOfLocalHeader entry |}.

Definition setUncompressedSize (entry : Entry) (n : Z) : Entry :=
  {| utf8FileName := utf8FileName entry; lastModFileTime := lastModFileTime entry;
     lastModFileDate := lastModFileDate entry;
     externalFileAttributes := externalFileAttributes entry;
     crc32 := crc32 entry; uncompressedSize := Some n;
     compressedSize := compressedSize entry; compress := compress entry;
     crcAndFileSizeKnown := crcAndFileSizeKnown entry;
     forceZip64Format := forceZip64Format entry; fileComment := fileComment entry;
     relativeOffsetOfLocalHeader := relativeOffsetOfLocalHeader entry |}.

(** The test of [addEntry] after [await write()] (lowlevel.js 206-211):
    [forwarded] is [self.outputStreamCursor - cursor]. *)
Definition checkCompressedSize (entry : Entry) (forwarded : Z) : result Entry :=
  match compressedSize entry with
  | None => Ok (setCompressedSize entry forwarded)
  | Some declared =>
      if negb (forwarded =? declared) then Err ErrUnexpectedCompressedSize
      else Ok entry
  end.

(** [addEntry], after [await write()] (lowlevel.js 206-215): [cursor] is the
    value taken before the payload. *)
Definition afterWrite (self : ZipFile) (id : nat) (entry : Entry) (cursor : Z) : ZipFile :=
  match checkCompressedSize entry (outputStreamCursor self - cursor) with
  | Err e => reject self id e
  | Ok entry =>
      match getDataDescriptor entry with
      | Err e => reject self id e
      | Ok descriptor =>
          withSettled (withChain (writeBuffer self descriptor) Fulfilled)
                      id (SettledEntry (Ok entry))
      end
  end.

(** [addEntry], from the start of the reaction to [await write()]
    (lowlevel.js 197-204). A stream is left running; a buffer or nothing is
    written at once. *)
Definition startEntry (self : ZipFile) (id : nat) (t : Task) : ZipFile :=
  match callback t with
  | Err e => reject self id e
  | Ok (entry, write) =>
      let entry := setOffset entry (outputStreamCursor self) in
      match getLocalFileHeader entry with
      | Err e => reject self id e
      | Ok header =>
          let self := writeBuffer self header in
          let cursor := outputStreamCursor self in
          match write with
          | WriteNothing => afterWrite self id entry cursor
          | WriteBuffer buffer => afterWrite (writeBuffer self buffer) id entry cursor
          | WriteStream readStream =>
              withChain self
                (Streaming {| run_id := id; run_entry := entry; run_cursor := cursor;
                              run_source := readStream; run_crc32 := 0;
                              run_uncompressedSize := 0; run_compressedSize := 0;
                              run_deflate := deflateInit |})
          end
      end
  end.

(** The third transform: [entry.compress ? new zlib.DeflateRaw() : new PassThrough()] *)
Definition compressChunk (entry : Entry) (d : DeflateState) (chunk : Buffer)
  : DeflateState * list Buffer :=
  if compress entry then deflateTransform d chunk else (d, [chunk]).

Definition compressFlush (entry : Entry) (d : DeflateState) : list Buffer :=
  if compress entry then deflateFlush d else [].

(** One chunk of the source goes through the four transforms of
    [writeEntryStream] (lowlevel.js 237-260); what leaves the last one is
    pushed. *)
Definition streamChunk (self : ZipFile) (run : StreamRun) (chunk : Buffer)
    (rest : list Buffer) : ZipFile :=
  let crc := crc32Unsigned chunk (run_crc32 run) in
  let counted := run_uncompressedSize run + blen chunk in
  let '(d, outs) := compressChunk (run_entry run) (run_deflate run) chunk in
  let forwarded := run_compressedSize run + totalLength outs in
  withChain
    (withReadable self (pushAll (readable self) outs) (outputStreamCursor self))
    (Streaming {| run_id := run_id run; run_entry := run_entry run;
                  run_cursor := run_cursor run;
                  run_source := {| rs_chunks := rest; rs_end := rs_end (run_source run) |};
                  run_crc32 := crc; run_uncompressedSize := counted;
                  run_compressedSize := forwarded; run_deflate := d |}).

(** The ['end'] listener (lowlevel.js 267-278), given the counters of the
    first two transforms. [inl]: it threw. *)
Definition onEnd (entry : Entry) (crc counted : Z) : Error + Entry :=
  let entry := setCrc32 entry crc in
  match uncompressedSize entry with
  | None => inr (setUncompressedSize entry counted)
  | Some declared =>
      if negb (declared =? counted) then inl ErrUnexpectedByteCount
      else inr entry
  end.

(** The source has emitted everything: the compressor flushes, ['end']
    fires, and on [resolve()] the reaction of [addEntry] goes on. A throw of
    the listener is not a rejection: [write()] stays pending. *)
Definition streamEnd (self : ZipFile) (run : StreamRun) : ZipFile :=
  let outs := compressFlush (run_entry run) (run_deflate run) in
  let forwarded := run_compressedSize run + totalLength outs in
  let self := withReadable self (pushAll (readable self) outs) (outputStreamCursor self) in
  match onEnd (run_entry run) (run_crc32 run) (run_uncompressedSize run) with
  | inl e => withChain self (Uncaught e)
  | inr entry =>
      let self := withReadable self (readable self) (outputStreamCursor self + forwarded) in
      afterWrite self (run_id run) entry (run_cursor run)
  end.

Definition advanceStream (self : ZipFile) (run : StreamRun) : ZipFile :=
  match rs_chunks (run_source run) with
  | chunk :: rest => streamChunk self run chunk rest
  | [] =>
      match rs_end (run_source run) with
      | EmitsEnd => streamEnd self run
      | NeverEnds => self
      end
  end.

(** [entries.forEach(entry => writeBuffer(this, getCentralDirectoryRecord(entry)))];
    a throw ends the loop. *)
Fixpoint writeCentralDirectoryRecords (self : ZipFile) (entries : list Entry)
  : ZipFile * option Error :=
  match entries with
  | [] => (self, None)
  | entry :: rest =>
      match getCentralDirectoryRecord entry with
      | Err e => (self, Some e)
      | Ok record => writeCentralDirectoryRecords (writeBuffer self record) rest
      end
  end.

(** The call passes no second argument, so bytes come back. *)
Definition eocdrBuffer (r : EocdrReturn) : Buffer :=
  match r with
  | EocdrBytes b => b
  | EocdrLength _ => []
  end.

(** The reaction of [addCentralDirectoryRecord] (lowlevel.js 156-174): the
    object after it and what its promise settles to. *)
Definition centralDirectoryReaction (self : ZipFile) (entries : list Entry)
    (forceZip64Format : bool) (comment : Buffer) : ZipFile * result EndRecord :=
  let start := outputStreamCursor self in
  let self := withOffsetOfStart self start in
  match writeCentralDirectoryRecords self entries with
  | (self, Some e) => (self, Err e)
  | (self, None) =>
      let record :=
        {| r_offsetOfStartOfCentralDirectory := start;
           r_forceZip64Format := forceZip64Format;
           r_comment := comment;
           r_outputStreamCursor := outputStreamCursor self;
           r_entriesCount := blen entries |} in
      match getEndOfCentralDirectoryRecord record false with
      | Err e => (self, Err e)
      | Ok bytes => (writeBuffer self (eocdrBuffer bytes), Ok record)
      end
  end.

(** Its promise is not stored in [this.queue]: when it rejects, the chain
    goes on. *)
Definition centralDirectoryTask (self : ZipFile) (id : nat) (entries : list Entry)
    (forceZip64Format : bool) (comment : Buffer) : ZipFile :=
  let '(self, r) := centralDirectoryReaction self entries forceZip64Format comment in
  withSettled self id (SettledRecord r).

Definition rejection (t : Task) (e : Error) : Settled :=
  match t with
  | TaskCentralDirectory _ _ _ => SettledRecord (Err e)
  | _ => SettledEntry (Err e)
  end.

(** [end()] of lowlevel.js: [delete this.queue; this.push(null)] *)
Definition lowlevelEnd (self : ZipFile) : ZipFile :=
  {| hasQueue := false; outputStreamCursor := outputStreamCursor self;
     offsetOfStartOfCentralDirectory := offsetOfStartOfCentralDirectory self;
     readable := pushNull (readable self); chain := chain self;
     settled := settled self |}.

(** *** The object with the reactions waiting on its queue *)

(** A reaction that has not run: the number of its operation, whether what
    its callback awaits is there, and the callback. *)
Record Pending := { p_id : nat; p_prepared : bool; p_task : Task }.

Record LowLevel := {
  self : ZipFile;
  pending : list Pending;      (* in the order of the calls *)
  nextId : nat
}.

Definition newLowLevel : LowLevel :=
  {| self := newZipFile; pending := []; nextId := 0 |}.

(** The arrays [this.entries] has pointed to (index.js): an entry object is
    told from another by the number of the operation that made it. The array
    in use is the last one. *)
Definition Heap := list (list (nat * Entry)).

(** The reaction at the head of the queue runs on the object. *)
Definition react (heap : Heap) (z : ZipFile) (p : Pending) : ZipFile :=
  match p_task p with
  | TaskCentralDirectory entries forceZip64Format comment =>
      centralDirectoryTask z (p_id p) (List.map snd (nth entries heap []))
        forceZip64Format comment
  | t => startEntry z (p_id p) t
  end.

(** One step of the chain. A reaction starts when the promise before it is
    fulfilled and what its callback awaits is there; it is rejected without
    running when the promise before it is rejected. *)
Definition advance (heap : Heap) (l : LowLevel) : LowLevel :=
  match chain (self l) with
  | Uncaught _ => l
  | Streaming run =>
      {| self := advanceStream (self l) run; pending := pending l; nextId := nextId l |}
  | Rejected e =>
      match pending l with
      | [] => l
      | p :: rest =>
          {| self := withSettled (self l) (p_id p) (rejection (p_task p) e);
             pending := rest; nextId := nextId l |}
      end
  | Fulfilled =>
      match pending l with
      | [] => l
      | p :: rest =>
          if negb (p_prepared p) then l
          else {| self := react heap (self l) p; pending := rest; nextId := nextId l |}
      end
  end.

(** ** The operations of [lowlevel.js] *)

Definition enqueue (l : LowLevel) (prepared : bool) (t : Task) : LowLevel :=
  {| self := self l;
     pending := pending l ++ [{| p_id := nextId l; p_prepared := prepared; p_task := t |}];
     nextId := S (nextId l) |}.

(** [addEntry] up to the [return] (lowlevel.js 191-225): the first
    component is the archive, the second the error the call ends with. *)
Definition addEntry (l : LowLevel) (prepared : bool) (t : Task)
  : LowLevel * option Error :=
  if negb (hasQueue (self l)) then (l, Some ErrFinalized)
  else (enqueue l prepared t, None).

Definition addFile (l : LowLevel) (realPath metadataPath : jsstring)
    (options : Options) (statsPromise : result Stats) (content : ReadStream)
  : LowLevel * option Error :=
  match validateMetadataPath metadataPath false with
  | Err e => (l, Some e)
  | Ok metadataPath =>
      addEntry l false (TaskAddFile metadataPath options statsPromise content)
  end.

Definition addReadStream (l : LowLevel) (readStream : ReadStream)
    (metadataPath : jsstring) (options : Options) (now : Date)
  : LowLevel * option Error :=
  match validateMetadataPath metadataPath false with
  | Err e => (l, Some e)
  | Ok metadataPath =>
      match FileEntry_new now metadataPath
              {| o_compress := Some (default true (o_compress options));
                 o_forceZip64Format := Some (default false (o_forceZip64Format options));
                 o_mode := o_mode options;
                 o_mtime := o_mtime options;
                 o_fileComment := o_fileComment options;
                 o_crc32 := o_crc32 options;
                 o_size := o_size options;
                 o_compressedSize := o_compressedSize options;
                 o_uncompressedSize := o_uncompressedSize options |} with
      | Err e => (l, Some e)
      | Ok entry => addEntry l true (TaskAddReadStream entry readStream)
      end
  end.

Definition addBuffer (l : LowLevel) (buffer : Buffer) (metadataPath : jsstring)
    (options : Options) (now : Date) : LowLevel * option Error :=
  match validateMetadataPath metadataPath false with
  | Err e => (l, Some e)
  | Ok metadataPath =>
      if blen buffer >? 0x3fffffff then (l, Some (ErrBufferTooLarge (blen buffer)))
      else
        let compress := default true (o_compress options) in
        let crc32 := crc32Unsigned buffer 0 in
        let size := blen buffer in
        let buffer := if compress then deflateRaw buffer else Ok buffer in
        addEntry l (negb compress)
          (TaskAddBuffer metadataPath options compress crc32 size buffer now)
  end.

Definition addEmptyDirectory (l : LowLevel) (metadataPath : jsstring)
    (options : Options) (now : Date) : LowLevel * option Error :=
  match validateMetadataPath metadataPath true with
  | Err e => (l, Some e)
  | Ok metadataPath =>
      addEntry l true (TaskAddEmptyDirectory metadataPath options now)
  end.

Record EndOptions := {
  e_forceZip64Format : option bool;
  e_comment : option Comment
}.

(** The comment handling of [addCentralDirectoryRecord] (lowlevel.js 139-154). *)
Definition archiveComment (options : EndOptions) : result Buffer :=
  match e_comment options with
  | None => Ok []
  | Some c =>
      let! comment :=
        match c with
        | CommentString s => encodeCp437 s
        | CommentBuffer b => Ok b
        end in
      if blen comment >? 0xffff then Err ErrCommentTooLarge
      else if includes comment eocdrSignatureBuffer then Err ErrCommentHasSignature
      else Ok comment
  end.

(** [addCentralDirectoryRecord(entries, options)] up to the [return];
    [entries] is the array it was given, by reference. *)
Definition addCentralDirectoryRecord (l : LowLevel) (entries : nat)
    (options : EndOptions) : LowLevel * option Error :=
  if negb (hasQueue (self l)) then (l, Some ErrFinalized) else
  let forceZip64Format := truthy (e_forceZip64Format options) in
  match archiveComment options with
  | Err e => (l, Some e)
  | Ok comment =>
      (enqueue l true (TaskCentralDirectory entries forceZip64Format comment), None)
  end.

Definition setPrepared (p : Pending) : Pending :=
  {| p_id := p_id p; p_prepared := true; p_task := p_task p |}.

(** [statsPromise] or the deflated buffer of operation [id] is there. *)
Definition prepare (l : LowLevel) (id : nat) : LowLevel :=
  {| self := self l;
     pending := List.map (fun p => if Nat.eqb (p_id p) id then setPrepared p else p)
                         (pending l);
     nextId := nextId l |}.

(** ** The archive of [index.js] *)

Record Archive := {
  lowlevel : LowLevel;
  arrays : Heap;          (* [this.entries] is the last one *)
  resumed : gset nat      (* the operations whose [await super...] has returned *)
}.

Definition newArchive : Archive :=
  {| lowlevel := newLowLevel; arrays := [[]]; resumed := ∅ |}.

(** The object of the archive and what it has pushed. *)
Definition zip (a : Archive) : ZipFile := self (lowlevel a).
Definition output (a : Archive) : list Buffer := received (readable (zip a)).

Definition entriesRef (a : Archive) : nat := (List.length (arrays a) - 1)%nat.

Definition thisEntries (a : Archive) : list (nat * Entry) :=
  nth (entriesRef a) (arrays a) [].

Inductive Call :=
| CallAddFile (realPath metadataPath : jsstring) (options : Options)
    (statsPromise : result Stats) (content : ReadStream)
| CallAddReadStream (readStream : ReadStream) (metadataPath : jsstring)
    (options : Options) (now : Date)
| CallAddBuffer (buffer : Buffer) (metadataPath : jsstring) (options : Options) (now : Date)
| CallAddEmptyDirectory (metadataPath : jsstring) (options : Options) (now : Date)
| CallRemoveEntry (entry : nat)
| CallEnd (options : EndOptions).

Definition withLowLevel (a : Archive) (r : LowLevel * option Error)
  : Archive * option Error :=
  ({| lowlevel := fst r; arrays := arrays a; resumed := resumed a |}, snd r).

(** [removeEntry]: [this.entries = this.entries.filter(e => e !== entry)] *)
Definition removeEntry (a : Archive) (entry : nat) : Archive :=
  {| lowlevel := lowlevel a;
     arrays := arrays a ++ [List.filter (fun x => negb (Nat.eqb (fst x) entry)) (thisEntries a)];
     resumed := resumed a |}.

(** A call, up to its first [await]: the archive after it, and the error it
    is rejected with at once, if any. *)
Definition invoke (a : Archive) (c : Call) : Archive * option Error :=
  match c with
  | CallAddFile realPath metadataPath options statsPromise content =>
      withLowLevel a (addFile (lowlevel a) realPath metadataPath options statsPromise content)
  | CallAddReadStream readStream metadataPath options now =>
      withLowLevel a (addReadStream (lowlevel a) readStream metadataPath options now)
  | CallAddBuffer buffer metadataPath options now =>
      withLowLevel a (addBuffer (lowlevel a) buffer metadataPath options now)
  | CallAddEmptyDirectory metadataPath options now =>
      withLowLevel a (addEmptyDirectory (lowlevel a) metadataPath options now)
  | CallRemoveEntry entry => (removeEntry a entry, None)
  | CallEnd options =>
      withLowLevel a (addCentralDirectoryRecord (lowlevel a) (entriesRef a) options)
  end.

(** What follows [await super...] once the promise of operation [id] has
    settled: an add pushes its entry, [end] calls [super.end()]; on a
    rejection the [await] throws. *)
Definition resume (a : Archive) (id : nat) : Archive :=
  if bool_decide (id ∈ resumed a) then a else
  match settled (zip a) !! id with
  | None => a
  | Some v =>
      let done := {[id]} ∪ resumed a in
      match v with
      | SettledEntry (Ok entry) =>
          {| lowlevel := lowlevel a;
             arrays := <[entriesRef a := thisEntries a ++ [(id, entry)]]> (arrays a);
             resumed := done |}
      | SettledRecord (Ok _) =>
          {| lowlevel := {| self := lowlevelEnd (zip a);
                            pending := pending (lowlevel a);
                            nextId := nextId (lowlevel a) |};
             arrays := arrays a; resumed := done |}
      | _ => {| lowlevel := lowlevel a; arrays := arrays a; resumed := done |}
      end
  end.

(** What can happen to an archive: a call, the end of what an operation
    prepares off the chain, a step of the chain, a continuation of index.js. *)
Inductive Event :=
| Invoke (c : Call)
| Prepared (id : nat)
| Advance
| Resume (id : nat).

Definition step (a : Archive) (ev : Event) : Archive :=
  match ev with
  | Invoke c => fst (invoke a c)
  | Prepared id =>
      {| lowlevel := prepare (lowlevel a) id; arrays := arrays a; resumed := resumed a |}
  | Advance =>
      {| lowlevel := advance (arrays a) (lowlevel a); arrays := arrays a;
         resumed := resumed a |}
  | Resume id => resume a id
  end.

Definition run (a : Archive) (events : list Event) : Archive :=
  fold_left step events a.

End Engine.

(** ** A checksum, a compressor and a consumer to run the model on

    CRC-32 with the standard (reflected) polynomial, and a deflate that
    writes stored blocks: [0x00] or [0x01] (last block), the length and its
    complement on two bytes each, then the bytes. The consumer listens for
    ['error'], as the one of [src/test.js] does; [unheard] is the same
    without a listener. *)

Fixpoint crcShift (n : nat) (c : Z) : Z :=
  match n with
  | O => c
  | S n' =>
      crcShift n' (if Z.odd c then Z.lxor (Z.shiftr c 1) 0xEDB88320 else Z.shiftr c 1)
  end.

Definition crc32Bytes (buffer : Buffer) (previous : Z) : Z :=
  Z.lxor
    (fold_left (fun c b => crcShift 8 (Z.lxor c b)) buffer (Z.lxor previous 0xffffffff))
    0xffffffff.

Definition storedBlock (final : Z) (bytes : Buffer) : Buffer :=
  let n := blen bytes in
  [final; n mod 256; n / 256; (0xffff - n) mod 256; (0xffff - n) / 256] ++ bytes.

#[export] Instance storedDeflate : Collaborators :=
  {| crc32Unsigned := crc32Bytes;
     DeflateState := unit;
     deflateInit := tt;
     deflateTransform := fun _ chunk => (tt, [storedBlock 0 chunk]);
     deflateFlush := fun _ => [storedBlock 1 []];
     deflateRaw := fun buffer =>
       if blen buffer >? 0xffff then Err (ErrExternal 1) else Ok (storedBlock 1 buffer);
     errorListener := true |}.

Definition unheard : Collaborators :=
  {| crc32Unsigned := crc32Bytes;
     DeflateState := unit;
     deflateInit := tt;
     deflateTransform := fun _ chunk => (tt, [storedBlock 0 chunk]);
     deflateFlush := fun _ => [storedBlock 1 []];
     deflateRaw := fun buffer =>
       if blen buffer >? 0xffff then Err (ErrExternal 1) else Ok (storedBlock 1 buffer);
     errorListener := false |}.

(** * The terms of the properties *)

(** ** Path validation *)

(** The segments with the separator between them: what [split] undoes. *)
Fixpoint join (sep : Z) (segments : list jsstring) : jsstring :=
  match segments with
  | [] => []
  | [seg] => seg
  | seg :: rest => seg ++ sep :: join sep rest
  end.

(** ** The little-endian writers and readers *)

(** What a write of a number or of [undefined] stores. *)
Definition stored (v : option Z) : Z :=
  match v with
  | Some n => n
  | None => 0
  end.

(** ** The central directory record *)

(** The ZIP64 extended information extra field: tag 1, size 24, and the
    three 8-byte values. *)
Definition zip64ExtraField (field : Buffer) (original compressed offset : Z) : Prop :=
  readUInt16LE field 0 = 0x0001
  /\ readUInt16LE field 2 = 24
  /\ readUInt64LE field 4 = original
  /\ readUInt64LE field 12 = compressed
  /\ readUInt64LE field 20 = offset.

(** A central directory record in ZIP64 form: the two sizes and the offset
    are 0xffffffff, version needed is 45, the extra field has 28 bytes and
    carries the values of the entry. *)
Definition usesZip64Fields (entry : Entry) (record : Buffer) : Prop :=
  readUInt32LE record 20 = 0xffffffff
  /\ readUInt32LE record 24 = 0xffffffff
  /\ readUInt32LE record 42 = 0xffffffff
  /\ readUInt16LE record 6 = 45
  /\ readUInt16LE record 30 = 28
  /\ zip64ExtraField (skipn (46 + List.length (utf8FileName entry)) record)
       (stored (uncompressedSize entry)) (stored (compressedSize entry))
       (stored (relativeOffsetOfLocalHeader entry))
  /\ List.length record =
     (46 + List.length (utf8FileName entry) + 28 + List.length (fileComment entry))%nat.

(** A central directory record in the 32-bit form: the fields hold the
    values of the entry, version needed is 20, there is no extra field. *)
Definition usesNormalFields (entry : Entry) (record : Buffer) : Prop :=
  readUInt32LE record 20 = stored (compressedSize entry)
  /\ readUInt32LE record 24 = stored (uncompressedSize entry)
  /\ readUInt32LE record 42 = stored (relativeOffsetOfLocalHeader entry)
  /\ readUInt16LE record 6 = 20
  /\ readUInt16LE record 30 = 0
  /\ List.length record =
     (46 + List.length (utf8FileName entry) + List.length (fileComment entry))%nat.

(** [x] is a number strictly greater than [n]. *)
Definition exceeds (x : option Z) (n : Z) : Prop :=
  exists v, x = Some v /\ n < v.

(** An entry of [size] bytes, stored, at the start of the archive. *)
Definition storedEntry (size : Z) : Entry :=
  {| utf8FileName := str "a.bin";
     lastModFileTime := 0;
     lastModFileDate := 33;
     externalFileAttributes := shiftMode 33204;
     crc32 := Some 0;
     uncompressedSize := Some size;
     compressedSize := Some size;
     compress := false;
     crcAndFileSizeKnown := false;
     forceZip64Format := false;
     fileComment := [];
     relativeOffsetOfLocalHeader := Some 0 |}.

Definition recordOf (entry : Entry) : Buffer :=
  match getCentralDirectoryRecord entry with
  | Ok record => record
  | Err _ => []
  end.

(** ** The end of central directory record *)

(** The classic 22-byte record with its comment. *)
Definition classicEndRecord (bytes : Buffer) (count size offset : Z) (comment : Buffer)
  : Prop :=
  readUInt32LE bytes 0 = 0x06054b50
  /\ readUInt16LE bytes 8 = count
  /\ readUInt16LE bytes 10 = count
  /\ readUInt32LE bytes 12 = size
  /\ readUInt32LE bytes 16 = offset
  /\ readUInt16LE bytes 20 = blen comment
  /\ skipn 22 bytes = comment.

(** A field of the classic record next to a ZIP64 record: the cap when the
    format is forced, the smaller of the value and the cap otherwise. *)
Definition capped (force : bool) (v cap : Z) : Z :=
  if force then cap else Z.min v cap.

(** The ZIP64 variant: the 56-byte ZIP64 end record with the true values,
    the 20-byte locator pointing at it, then the classic record with capped
    fields. *)
Definition zip64EndStructure (record : EndRecord) (bytes : Buffer) : Prop :=
  let size := r_outputStreamCursor record - r_offsetOfStartOfCentralDirectory record in
  readUInt32LE bytes 0 = 0x06064b50
  /\ readUInt64LE bytes 4 = 44
  /\ readUInt16LE bytes 14 = 45
  /\ readUInt64LE bytes 24 = r_entriesCount record
  /\ readUInt64LE bytes 32 = r_entriesCount record
  /\ readUInt64LE bytes 40 = size
  /\ readUInt64LE bytes 48 = r_offsetOfStartOfCentralDirectory record
  /\ readUInt32LE bytes 56 = 0x07064b50
  /\ readUInt64LE bytes 64 = r_outputStreamCursor record
  /\ readUInt32LE bytes 72 = 1
  /\ classicEndRecord (skipn 76 bytes)
       (capped (r_forceZip64Format record) (r_entriesCount record) 0xffff)
       (capped (r_forceZip64Format record) size 0xffffffff)
       (capped (r_forceZip64Format record)
               (r_offsetOfStartOfCentralDirectory record) 0xffffffff)
       (r_comment record).

(** The classic variant: the 22-byte record alone, with the true values. *)
Definition classicEndStructure (record : EndRecord) (bytes : Buffer) : Prop :=
  classicEndRecord bytes (r_entriesCount record)
    (r_outputStreamCursor record - r_offsetOfStartOfCentralDirectory record)
    (r_offsetOfStartOfCentralDirectory record) (r_comment record).

(** An archive of 65534 entries whose central directory starts at [start]
    and has [size] bytes. *)
Definition endRecordOfSize (start size : Z) : EndRecord :=
  {| r_offsetOfStartOfCentralDirectory := start;
     r_forceZip64Format := false;
     r_comment := [];
     r_outputStreamCursor := start + size;
     r_entriesCount := 0xfffe |}.

Definition endBytesOf (record : EndRecord) : Buffer :=
  match getEndOfCentralDirectoryRecord record false with
  | Ok (EocdrBytes bytes) => bytes
  | _ => []
  end.

(** ** Comments *)

(** The bytes of [b] hold the end-of-central-directory signature. *)
Definition containsSignature (b : Buffer) : Prop :=
  exists pre post, b = pre ++ eocdrSignatureBuffer ++ post.

(** The bytes a file comment is stored as. *)
Definition fileCommentBytes (c : Comment) : Buffer :=
  match c with
  | CommentString s => utf8Encode s
  | CommentBuffer b => b
  end.

(** ** Validation at call time *)

Section CallTimeTerms.
Context `{Collaborators}.

(** The options [addReadStream] hands to [FileEntry]. *)
Definition readStreamOptions (options : Options) : Options :=
  {| o_compress := Some (default true (o_compress options));
     o_forceZip64Format := Some (default false (o_forceZip64Format options));
     o_mode := o_mode options;
     o_mtime := o_mtime options;
     o_fileComment := o_fileComment options;
     o_crc32 := o_crc32 options;
     o_size := o_size options;
     o_compressedSize := o_compressedSize options;
     o_uncompressedSize := o_uncompressedSize options |}.

End CallTimeTerms.

(** ** Finalization *)

Section FinalizeTerms.
Context `{Collaborators}.

(** The bytes of the central directory records of [entries], when all of
    them can be encoded. *)
Fixpoint centralDirectoryRecords (entries : list Entry) : result (list Buffer) :=
  match entries with
  | [] => Ok []
  | entry :: rest =>
      let! record := getCentralDirectoryRecord entry in
      let! records := centralDirectoryRecords rest in
      Ok (record :: records)
  end.

End FinalizeTerms.

(** The first of January 2024, midnight UTC. *)
Definition sampleDate : Date :=
  {| getUTCFullYear := 2024; getUTCMonth := 0; getUTCDate := 1;
     getUTCHours := 0; getUTCMinutes := 0; getUTCSeconds := 0 |}.

(** [{ compress: false }] *)
Definition storeOptions : Options :=
  {| o_compress := Some false; o_forceZip64Format := None; o_mode := None;
     o_mtime := None; o_fileComment := None; o_crc32 := None; o_size := None;
     o_compressedSize := None; o_uncompressedSize := None |}.

Definition noEndOptions : EndOptions :=
  {| e_forceZip64Format := None; e_comment := None |}.

Definition emptyRecord : EndRecord :=
  {| r_offsetOfStartOfCentralDirectory := 0; r_forceZip64Format := false;
     r_comment := []; r_outputStreamCursor := 0; r_entriesCount := 0 |}.

(** The central directory of one stored entry, written at offset 40. *)
Definition oneEntryFinalization : ZipFile * result EndRecord :=
  centralDirectoryReaction
    (withReadable newZipFile (readable newZipFile) 40)
    [storedEntry 5] false [].

Definition oneEntryRecord : EndRecord :=
  match snd oneEntryFinalization with
  | Ok record => record
  | Err _ => emptyRecord
  end.

(** ** After finalization *)

Section AfterFinalizeTerms.
Context `{Collaborators}.

(** [z'] comes after [z]: a deleted queue stays deleted, an output that has
    ended accepts no chunk, and chunks are only ever added at the end of what
    the output has received. *)
Definition keepsEnd (z z' : ZipFile) : Prop :=
  (hasQueue z = false -> hasQueue z' = false)
  /\ (ended (readable z) = true ->
      ended (readable z') = true /\ received (readable z') = received (readable z))
  /\ (exists extra, received (readable z') = received (readable z) ++ extra).

(** Finalization has completed: [super.end()] has run. *)
Definition finalized (a : Archive) : Prop :=
  hasQueue (zip a) = false /\ ended (readable (zip a)) = true.

(** An add operation or [finalize], and one whose checks at call time pass. *)
Definition isAddOrEnd (c : Call) : Prop :=
  match c with
  | CallRemoveEntry _ => False
  | _ => True
  end.

Definition passesCallTimeChecks (c : Call) : Prop :=
  match c with
  | CallAddFile _ metadataPath _ _ _ =>
      exists stored, validateMetadataPath metadataPath false = Ok stored
  | CallAddReadStream _ metadataPath options now =>
      exists stored entry,
        validateMetadataPath metadataPath false = Ok stored
        /\ FileEntry_new now stored (readStreamOptions options) = Ok entry
  | CallAddBuffer buffer metadataPath _ _ =>
      (exists stored, validateMetadataPath metadataPath false = Ok stored)
      /\ blen buffer <= 0x3fffffff
  | CallAddEmptyDirectory metadataPath _ _ =>
      exists stored, validateMetadataPath metadataPath true = Ok stored
  | CallRemoveEntry _ => False
  | CallEnd _ => True
  end.

End AfterFinalizeTerms.

(** An archive finalized while empty. *)
Definition finalizedArchive : Archive :=
  run newArchive [Invoke (CallEnd noEndOptions); Advance; Resume 0].

(** ** The payload pipeline *)

Section PayloadTerms.
Context `{Collaborators}.

(** What leaves the compressor while [chunks] go in, and its state after. *)
Fixpoint compressChunks (entry : Entry) (d : DeflateState) (chunks : list Buffer)
  : DeflateState * list Buffer :=
  match chunks with
  | [] => (d, [])
  | chunk :: rest =>
      let '(d1, outs) := compressChunk entry d chunk in
      let '(d2, outs') := compressChunks entry d1 rest in
      (d2, outs ++ outs')
  end.

(** All the chunks forwarded to the output for a source that emits
    [chunks] and ends. *)
Definition forwardedChunks (entry : Entry) (chunks : list Buffer) : list Buffer :=
  let '(d, outs) := compressChunks entry deflateInit chunks in
  outs ++ compressFlush entry d.

(** The checksum carried from chunk to chunk. *)
Definition crcOfChunks (crc : Z) (chunks : list Buffer) : Z :=
  fold_left (fun crc chunk => crc32Unsigned chunk crc) chunks crc.

(** The archive with another object. *)
Definition withSelf (a : Archive) (z : ZipFile) : Archive :=
  {| lowlevel := {| self := z; pending := pending (lowlevel a);
                    nextId := nextId (lowlevel a) |};
     arrays := arrays a; resumed := resumed a |}.

End PayloadTerms.

(** A read-stream add of the five bytes [hel], [lo], stored, with
    [options.size] as given, after its local header has been written. *)
Definition helloStream : ReadStream :=
  {| rs_chunks := [str "hel"; str "lo"]; rs_end := EmitsEnd |}.

Definition streamingArchive (size : option Z) : Archive :=
  run newArchive
    [Invoke (CallAddReadStream helloStream (str "a.txt")
               {| o_compress := Some false; o_forceZip64Format := None;
                  o_mode := None; o_mtime := None; o_fileComment := None;
                  o_crc32 := None; o_size := size; o_compressedSize := None;
                  o_uncompressedSize := None |}
               sampleDate);
     Advance].

(** The entries of these archives, as [addEntry] holds them when
    [writeEntryStream] starts. *)
Definition declaredEntry : Entry :=
  Eval vm_compute in
    match chain (zip (streamingArchive (Some 4))) with
    | Streaming r => run_entry r
    | _ => storedEntry 0
    end.

Definition undeclaredEntry : Entry :=
  Eval vm_compute in
    match chain (zip (streamingArchive None)) with
    | Streaming r => run_entry r
    | _ => storedEntry 0
    end.

(** ** The order of the output *)

Section CallOrderTerms.
Context `{Collaborators}.

(** *** Running the chain to rest *)

(** Everything the pending operations prepare off the chain is there. *)
Definition markAll (l : LowLevel) : LowLevel :=
  {| self := self l; pending := List.map setPrepared (pending l); nextId := nextId l |}.

(** [n] steps of the chain. *)
Fixpoint drain (n : nat) (heap : Heap) (l : LowLevel) : LowLevel :=
  match n with
  | O => l
  | S n' => drain n' heap (advance heap l)
  end.

(** A bound on the steps a task, and the chain, can still take. *)
Definition taskFuel (t : Task) : nat :=
  match t with
  | TaskAddFile _ _ _ readStream => 2 + List.length (rs_chunks readStream)
  | TaskAddReadStream _ readStream => 2 + List.length (rs_chunks readStream)
  | _ => 2
  end.

Definition chainFuel (c : Chain) : nat :=
  match c with
  | Streaming r => 1 + List.length (rs_chunks (run_source r))
  | _ => 0
  end.

Definition fuel (l : LowLevel) : nat :=
  chainFuel (chain (self l))
  + list_sum (List.map (fun p => taskFuel (p_task p)) (pending l)).

(** The chain run until nothing more can happen, once every preparation
    has finished. *)
Definition settle (heap : Heap) (l : LowLevel) : LowLevel :=
  drain (fuel l) heap (markAll l).

(** A step of the chain would do something. *)
Definition busy (l : LowLevel) : bool :=
  match chain (self l) with
  | Uncaught _ => false
  | Streaming r =>
      match rs_chunks (run_source r), rs_end (run_source r) with
      | [], NeverEnds => false
      | _, _ => true
      end
  | Rejected _ =>
      match pending l with
      | [] => false
      | _ :: _ => true
      end
  | Fulfilled =>
      match pending l with
      | [] => false
      | p :: _ => p_prepared p
      end
  end.

(** *** Archives that have only been added to *)

Definition isAddTask (t : Task) : Prop :=
  match t with
  | TaskCentralDirectory _ _ _ => False
  | _ => True
  end.

Definition noRecords (m : gmap nat Settled) : Prop :=
  forall id r, m !! id <> Some (SettledRecord r).

(** [z'] has the queue of [z], and no settled finalization unless [z] has. *)
Definition keepsAdds (z z' : ZipFile) : Prop :=
  hasQueue z' = hasQueue z /\ (noRecords (settled z) -> noRecords (settled z')).

Definition addsOnly (l : LowLevel) : Prop :=
  Forall (fun p => isAddTask (p_task p)) (pending l)
  /\ noRecords (settled (self l))
  /\ hasQueue (self l) = true.

(** *** One call at a time *)

(** Whatever an operation prepares is there and the chain has run as far
    as it can. *)
Definition quiesce (a : Archive) : Archive :=
  {| lowlevel := settle (arrays a) (lowlevel a); arrays := arrays a; resumed := resumed a |}.

Definition oneAtATime (a : Archive) (c : Call) : Archive := quiesce (fst (invoke a c)).

(** The archive when each call is left to finish before the next is made. *)
Definition sequential (calls : list Call) : Archive := fold_left oneAtATime calls newArchive.

Definition callsOf (events : list Event) : list Call :=
  flat_map (fun ev => match ev with Invoke c => [c] | _ => [] end) events.

Definition notEnd (ev : Event) : Prop :=
  match ev with
  | Invoke (CallEnd _) => False
  | _ => True
  end.

(** Nothing waits and no stream is being read: the chain has nothing to do. *)
Definition idle (a : Archive) : Prop :=
  pending (lowlevel a) = [] /\ forall r, chain (zip a) <> Streaming r.

(** *** What each entry contributes *)

(** The task a call hands to [addEntry], when it gets that far: what the
    call leaves on the queue of a new archive. *)
Definition queuedTask (c : Call) : option Task :=
  match pending (lowlevel (fst (invoke newArchive c))) with
  | p :: _ => Some (p_task p)
  | [] => None
  end.

Definition queuedTasks (calls : list Call) : list Task :=
  flat_map (fun c => match queuedTask c with Some t => [t] | None => [] end) calls.

(** The payload of an entry: the buffer as it is stored, nothing for a
    directory, and for a stream what leaves the compressor, with what it
    flushes when the source ends. *)
Definition payloadOf (entry : Entry) (write : Write) : list Buffer :=
  match write with
  | WriteNothing => []
  | WriteBuffer buffer => [buffer]
  | WriteStream readStream =>
      match rs_end readStream with
      | EmitsEnd => forwardedChunks entry (rs_chunks readStream)
      | NeverEnds => snd (compressChunks entry deflateInit (rs_chunks readStream))
      end
  end.

(** The entry when [write()] has returned: a stream has set the checksum
    and, if none was declared, the uncompressed size. [None]: [write()] does
    not return, because the source never ends or the ['end'] listener threw. *)
Definition written (entry : Entry) (write : Write) : option Entry :=
  match write with
  | WriteStream readStream =>
      match rs_end readStream with
      | NeverEnds => None
      | EmitsEnd =>
          match onEnd entry (crcOfChunks 0 (rs_chunks readStream))
                  (totalLength (rs_chunks readStream)) with
          | inl _ => None
          | inr entry => Some entry
          end
      end
  | _ => Some entry
  end.

(** The data descriptor that follows a payload of [forwarded] bytes, if
    [addEntry] gets as far as writing it. *)
Definition closing (entry : option Entry) (forwarded : Z) : option Buffer :=
  match entry with
  | None => None
  | Some entry =>
      match checkCompressedSize entry forwarded with
      | Err _ => None
      | Ok entry =>
          match getDataDescriptor entry with
          | Err _ => None
          | Ok descriptor => Some descriptor
          end
      end
  end.

(** What the entry of task [t] contributes to the output when its local
    header starts at [cursor]: the local header, the payload and the data
    descriptor, as the encoders give them; and whether the entry is complete.
    An entry that fails leaves what was written before the failure. *)
Definition contribution (cursor : Z) (t : Task) : list Buffer * bool :=
  match callback t with
  | Err _ => ([], false)
  | Ok (entry, write) =>
      let entry := setOffset entry cursor in
      match getLocalFileHeader entry with
      | Err _ => ([], false)
      | Ok header =>
          let payload := payloadOf entry write in
          match closing (written entry write) (totalLength payload) with
          | None => (header :: payload, false)
          | Some descriptor => (header :: payload ++ [descriptor], true)
          end
      end
  end.

(** The entries one after the other, in the order of [tasks], each one
    starting where the one before it ends; nothing follows an entry that is
    not complete. *)
Fixpoint inCallOrder (cursor : Z) (tasks : list Task) : list Buffer :=
  match tasks with
  | [] => []
  | t :: rest =>
      let chunks := fst (contribution cursor t) in
      chunks ++ (if snd (contribution cursor t)
                 then inCallOrder (cursor + totalLength chunks) rest
                 else [])
  end.

(** The chain is at rest and the output takes chunks. *)
Definition ready (l : LowLevel) : Prop :=
  chain (self l) = Fulfilled /\ pending l = []
  /\ ended (readable (self l)) = false /\ destroyed (readable (self l)) = false.

(** No reaction will run any more: the chain is rejected, or waits for a
    promise that never settles. *)
Definition halted (l : LowLevel) : Prop :=
  match chain (self l) with
  | Fulfilled => False
  | Streaming r => rs_chunks (run_source r) = [] /\ rs_end (run_source r) = NeverEnds
  | Rejected _ | Uncaught _ => True
  end.

End CallOrderTerms.

(** Three adds: a file whose stat takes longest, a buffer to compress, a
    directory.  The directory is ready at once, then the buffer, then the
    file. *)
Definition abcStream : ReadStream :=
  {| rs_chunks := [str "ab"; str "c"]; rs_end := EmitsEnd |}.

Definition threeAdds : list Call :=
  [CallAddFile (str "/tmp/a.txt") (str "a.txt") storeOptions
     (Ok {| st_isFile := true; st_mode := 0x81a4; st_mtime := sampleDate; st_size := 3 |})
     abcStream;
   CallAddBuffer (str "bb") (str "b.txt") noOptions sampleDate;
   CallAddEmptyDirectory (str "c") noOptions sampleDate].

Definition outOfOrder : list Event :=
  List.map Invoke threeAdds
  ++ [Advance; Prepared 1; Advance; Resume 2; Prepared 0] ++ repeat Advance 6.

(** ** Numbers and dates on the wire *)

(** A byte of a buffer. *)
Definition isByte (x : Z) : Prop := 0 <= x < 256.

(** Two dates that agree on everything but the year. *)
Definition sameButYear (d d' : Date) : Prop :=
  getUTCMonth d' = getUTCMonth d /\ getUTCDate d' = getUTCDate d
  /\ getUTCHours d' = getUTCHours d /\ getUTCMinutes d' = getUTCMinutes d
  /\ getUTCSeconds d' = getUTCSeconds d.

(** What the UTC getters of a valid [Date] return, whatever the year. *)
Definition utcFields (d : Date) : Prop :=
  0 <= getUTCMonth d <= 11 /\ 1 <= getUTCDate d <= 31
  /\ 0 <= getUTCHours d <= 23 /\ 0 <= getUTCMinutes d <= 59
  /\ 0 <= getUTCSeconds d <= 59.

(** The last second of 2107, and the same instant 128 years earlier. *)
Definition lastDosSecond : Date :=
  {| getUTCFullYear := 2107; getUTCMonth := 11; getUTCDate := 31;
     getUTCHours := 23; getUTCMinutes := 59; getUTCSeconds := 59 |}.

Definition lastSecondOf1979 : Date :=
  {| getUTCFullYear := 1979; getUTCMonth := 11; getUTCDate := 31;
     getUTCHours := 23; getUTCMinutes := 59; getUTCSeconds := 59 |}.

(** ** The local file header and the data descriptor *)

(** What a reader finds in a local file header of [entry]: the signature,
    version 20, the flags, the method, the DOS time and date, the checksum
    and the sizes (zero when they are not known yet), the length of the name,
    no extra field, then the name. *)
Definition localHeaderFields (entry : Entry) (header : Buffer) : Prop :=
  let known := crcAndFileSizeKnown entry in
  readUInt32LE header 0 = 0x04034b50
  /\ readUInt16LE header 4 = 20
  /\ readUInt16LE header 6 = (if known then 0x0800 else 0x0808)
  /\ readUInt16LE header 8 = (if compress entry then 8 else 0)
  /\ readUInt16LE header 10 = lastModFileTime entry
  /\ readUInt16LE header 12 = lastModFileDate entry
  /\ readUInt32LE header 14 = (if known then stored (crc32 entry) else 0)
  /\ readUInt32LE header 18 = (if known then stored (compressedSize entry) else 0)
  /\ readUInt32LE header 22 = (if known then stored (uncompressedSize entry) else 0)
  /\ readUInt16LE header 26 = blen (utf8FileName entry)
  /\ readUInt16LE header 28 = 0
  /\ skipn 30 header = utf8FileName entry
  /\ List.length header = (30 + List.length (utf8FileName entry))%nat.

(** The fields of [entry] fit the local file header. *)
Definition headerFits (entry : Entry) : Prop :=
  0 <= lastModFileTime entry <= 0xffff
  /\ 0 <= lastModFileDate entry <= 0xffff
  /\ blen (utf8FileName entry) <= 0xffff
  /\ (crcAndFileSizeKnown entry = true ->
      0 <= stored (crc32 entry) <= 0xffffffff
      /\ 0 <= stored (compressedSize entry) <= 0xffffffff
      /\ 0 <= stored (uncompressedSize entry) <= 0xffffffff).

(** What a reader finds in the data descriptor of [entry]. *)
Definition dataDescriptorFields (entry : Entry) (descriptor : Buffer) : Prop :=
  if crcAndFileSizeKnown entry then descriptor = []
  else
    readUInt32LE descriptor 0 = 0x08074b50
    /\ readUInt32LE descriptor 4 = stored (crc32 entry)
    /\ if useZip64Format entry
       then blen descriptor = 24
            /\ readUInt64LE descriptor 8 = stored (compressedSize entry)
            /\ readUInt64LE descriptor 16 = stored (uncompressedSize entry)
       else blen descriptor = 16
            /\ readUInt32LE descriptor 8 = stored (compressedSize entry)
            /\ readUInt32LE descriptor 12 = stored (uncompressedSize entry).

(** The fields of a central directory record that do not depend on the
    ZIP64 form, and what follows the 46 fixed bytes. *)
Definition centralDirectoryFields (entry : Entry) (record : Buffer) : Prop :=
  readUInt32LE record 0 = 0x02014b50
  /\ readUInt16LE record 4 = 0x033f
  /\ readUInt16LE record 8 = (if crcAndFileSizeKnown entry then 0x0800 else 0x0808)
  /\ readUInt16LE record 10 = (if compress entry then 8 else 0)
  /\ readUInt16LE record 12 = lastModFileTime entry
  /\ readUInt16LE record 14 = lastModFileDate entry
  /\ readUInt32LE record 16 = stored (crc32 entry)
  /\ readUInt16LE record 28 = blen (utf8FileName entry)
  /\ readUInt16LE record 32 = blen (fileComment entry)
  /\ readUInt16LE record 34 = 0
  /\ readUInt16LE record 36 = 0
  /\ readUInt32LE record 38 = externalFileAttributes entry
  /\ exists extra,
       skipn 46 record = utf8FileName entry ++ extra ++ fileComment entry
       /\ readUInt16LE record 30 = blen extra.

(** A stored entry of five bytes whose checksum and sizes were given, with
    every 32-bit field as [size]. *)
Definition knownEntry (size : Z) : Entry :=
  {| utf8FileName := str "a.bin";
     lastModFileTime := 0;
     lastModFileDate := 33;
     externalFileAttributes := shiftMode 33204;
     crc32 := Some 0;
     uncompressedSize := Some size;
     compressedSize := Some size;
     compress := false;
     crcAndFileSizeKnown := true;
     forceZip64Format := true;
     fileComment := [];
     relativeOffsetOfLocalHeader := Some 0 |}.

(** ** Entries *)

(** The bytes of [options.fileComment], empty when there is none. *)
Definition commentOf (options : Options) : Buffer :=
  match o_fileComment options with
  | Some c => fileCommentBytes c
  | None => []
  end.

(** Why [new Entry(metadataPath, options)] throws, in the order of its
    checks. *)
Definition entryError (metadataPath : jsstring) (options : Options) : option Error :=
  if blen (utf8Encode metadataPath) >? 0xffff
  then Some (ErrNameTooLong (blen (utf8Encode metadataPath)))
  else
    match o_mode options with
    | None => Some ErrInvalidMode
    | Some mode =>
        if (0 <=? mode) && (mode <=? 0xffff)
        then if blen (commentOf options) >? 0xffff then Some ErrFileCommentTooLarge
             else None
        else Some ErrInvalidMode
    end.

(** ** A single operation on an archive at rest *)

(** The options [addBuffer] hands to [FileEntry] inside its callback. *)
Definition bufferOptions (options : Options) (compress : bool)
    (crc size compressedSize : Z) : Options :=
  {| o_compress := Some compress;
     o_forceZip64Format := Some (default false (o_forceZip64Format options));
     o_mode := o_mode options;
     o_mtime := o_mtime options;
     o_fileComment := o_fileComment options;
     o_crc32 := Some crc;
     o_size := Some size;
     o_compressedSize := Some compressedSize;
     o_uncompressedSize := o_uncompressedSize options |}.

(** The data descriptor of an empty directory: nothing when
    [options.size] was given, otherwise the signature and zeros. *)
Definition directoryDescriptor (entry : Entry) : Buffer :=
  if crcAndFileSizeKnown entry then []
  else [0x50; 0x4b; 0x07; 0x08]
       ++ repeat 0 (if useZip64Format entry then 20 else 12)%nat.

Section OperationTerms.
Context `{Collaborators}.

(** Nothing is queued or running, no operation has failed and [end()] has
    not been called. *)
Definition atRest (a : Archive) : Prop :=
  chain (zip a) = Fulfilled
  /\ pending (lowlevel a) = []
  /\ hasQueue (zip a) = true
  /\ ended (readable (zip a)) = false
  /\ destroyed (readable (zip a)) = false.

End OperationTerms.

(** [hello] added as a stored buffer and the directory [d], to a new archive. *)
Definition helloBufferCall : Call :=
  CallAddBuffer (str "hello") (str "a.txt") storeOptions sampleDate.

Definition directoryCall : Call :=
  CallAddEmptyDirectory (str "d") noOptions sampleDate.

(** The entries and local headers of these two operations. *)
Definition helloEntry : Entry :=
  Eval vm_compute in
    match FileEntry_new sampleDate (str "a.txt")
            (bufferOptions storeOptions false (crc32Bytes (str "hello") 0) 5 5) with
    | Ok entry => entry
    | Err _ => storedEntry 0
    end.

Definition helloHeader : Buffer :=
  Eval vm_compute in
    match getLocalFileHeader (setOffset helloEntry 0) with
    | Ok header => header
    | Err _ => []
    end.

Definition directoryEntry : Entry :=
  Eval vm_compute in
    match DirectoryEntry_new sampleDate (str "d/") noOptions with
    | Ok entry => entry
    | Err _ => storedEntry 0
    end.

Definition directoryHeader : Buffer :=
  Eval vm_compute in
    match getLocalFileHeader (setOffset directoryEntry 0) with
    | Ok header => header
    | Err _ => []
    end.

(** ** Where the local headers are *)

(** [entry] is [started] but for the checksum and the sizes, which are
    filled in after the local header has been written. *)
Definition startedAs (started entry : Entry) : Prop :=
  utf8FileName entry = utf8FileName started
  /\ lastModFileTime entry = lastModFileTime started
  /\ lastModFileDate entry = lastModFileDate started
  /\ externalFileAttributes entry = externalFileAttributes started
  /\ compress entry = compress started
  /\ crcAndFileSizeKnown entry = crcAndFileSizeKnown started
  /\ forceZip64Format entry = forceZip64Format started
  /\ fileComment entry = fileComment started
  /\ relativeOffsetOfLocalHeader entry = relativeOffsetOfLocalHeader started.

(** Among the chunks pushed, the local header of [entry] is the one that
    starts at the offset the entry records. *)
Definition headerAt (chunks : list Buffer) (entry : Entry) : Prop :=
  exists before header after started,
    chunks = before ++ header :: after
    /\ relativeOffsetOfLocalHeader entry = Some (totalLength before)
    /\ getLocalFileHeader started = Ok header
    /\ startedAs started entry.

Section OffsetTerms.
Context `{Collaborators}.

(** Every entry an operation has fulfilled with has its local header at
    its offset in the output. *)
Definition located (z : ZipFile) : Prop :=
  forall id entry,
    settled z !! id = Some (SettledEntry (Ok entry)) ->
    headerAt (received (readable z)) entry.

(** The cursor counts the bytes pushed: all of them when the chain is at
    rest; all but the payload bytes of the running entry, which are added
    when its source ends, while a stream is read. *)
Definition counted (z : ZipFile) : Prop :=
  match chain z with
  | Fulfilled =>
      destroyed (readable z) = false
      /\ outputStreamCursor z = totalLength (received (readable z))
  | Streaming r =>
      destroyed (readable z) = false
      /\ outputStreamCursor z + run_compressedSize r
         = totalLength (received (readable z))
      /\ headerAt (received (readable z)) (run_entry r)
  | Rejected _ | Uncaught _ => True
  end.

Definition tracked (z : ZipFile) : Prop :=
  ended (readable z) = false /\ located z /\ counted z.

End OffsetTerms.

(** What the second of the three adds fulfils with. *)
Definition secondEntry : Entry :=
  Eval vm_compute in
    match settled (zip (run newArchive outOfOrder)) !! 1%nat with
    | Some (SettledEntry (Ok entry)) => entry
    | _ => storedEntry 0
    end.

(** ** After a failure *)

Section FailureTerms.
Context `{Collaborators}.

(** What operation [id] has settled to is a rejection with [e]. *)
Definition rejectedWith (e : Error) (v : Settled) : Prop :=
  v = SettledEntry (Err e) \/ v = SettledRecord (Err e).

End FailureTerms.

(** A read-stream add whose declared compressed size is wrong, and one
    whose declared size is wrong, each followed by an add of a directory. *)
Definition wrongCompressedSize : list Event :=
  [Invoke (CallAddReadStream helloStream (str "a.txt")
             {| o_compress := Some false; o_forceZip64Format := None;
                o_mode := None; o_mtime := None; o_fileComment := None;
                o_crc32 := None; o_size := None; o_compressedSize := Some 4;
                o_uncompressedSize := None |}
             sampleDate);
   Invoke directoryCall; Advance; Advance; Advance; Advance; Advance].

Definition wrongSize : list Event :=
  [Invoke (CallAddReadStream helloStream (str "a.txt")
             {| o_compress := Some false; o_forceZip64Format := None;
                o_mode := None; o_mtime := None; o_fileComment := None;
                o_crc32 := None; o_size := Some 4; o_compressedSize := None;
                o_uncompressedSize := None |}
             sampleDate);
   Invoke directoryCall; Advance; Advance; Advance; Advance; Advance].

(** ** The numbers of the operations and [this.entries] *)

Section NumberTerms.
Context `{Collaborators}.

(** The reactions waiting are numbered in sequence up to the next number to
    give out; the reaction that reads a stream, if any, has the number just
    before them; what has settled has a smaller number still. *)
Definition numbered (l : LowLevel) : Prop :=
  exists first,
    List.map p_id (pending l) = seq first (List.length (pending l))
    /\ (first + List.length (pending l) = nextId l)%nat
    /\ match chain (self l) with
       | Streaming r =>
           S (run_id r) = first
           /\ forall id, is_Some (settled (self l) !! id) -> (id < run_id r)%nat
       | _ => forall id, is_Some (settled (self l) !! id) -> (id < first)%nat
       end.

(** An array of index.js holds the entries of fulfilled adds whose
    continuation has run, each once. *)
Definition holdsFulfilled (a : Archive) (array : list (nat * Entry)) : Prop :=
  NoDup (List.map fst array)
  /\ forall id entry,
       In (id, entry) array ->
       id ∈ resumed a /\ settled (zip a) !! id = Some (SettledEntry (Ok entry)).

Definition wellKept (a : Archive) : Prop :=
  numbered (lowlevel a)
  /\ (forall id, id ∈ resumed a -> is_Some (settled (zip a) !! id))
  /\ arrays a <> []
  /\ Forall (holdsFulfilled a) (arrays a).

End NumberTerms.

Section AliasTerms.
Context `{Collaborators}.



End AliasTerms.

(** ** Finalization of an archive at rest *)

(** The record [addCentralDirectoryRecord] builds when the central
    directory starts at [start] and its records are [records]. *)
Definition endRecordFor (start : Z) (force : bool) (comment : Buffer)
    (records : list Buffer) (count : Z) : EndRecord :=
  {| r_offsetOfStartOfCentralDirectory := start;
     r_forceZip64Format := force;
     r_comment := comment;
     r_outputStreamCursor := start + totalLength records;
     r_entriesCount := count |}.

(** [hello] added, its continuation run, an entry removed after [end()]
    was called or before. *)
Definition removedAfterEnd : list Event :=
  [Invoke helloBufferCall; Advance; Resume 0;
   Invoke (CallEnd noEndOptions); Invoke (CallRemoveEntry 0); Advance; Resume 1].

Definition removedBeforeEnd : list Event :=
  [Invoke helloBufferCall; Advance; Resume 0;
   Invoke (CallRemoveEntry 0); Invoke (CallEnd noEndOptions); Advance; Resume 1].

(** What [end()] resolves with after these. *)
Definition entriesCounted (events : list Event) : option Z :=
  match settled (zip (run newArchive events)) !! 1%nat with
  | Some (SettledRecord (Ok record)) => Some (r_entriesCount record)
  | _ => None
  end.

(** The central directory record of [hello] and the end record of the
    archive that holds nothing else. *)
Definition helloRecord : Buffer :=
  Eval vm_compute in recordOf (setOffset helloEntry 0).

Definition helloEnd : Buffer :=
  Eval vm_compute in endBytesOf (endRecordFor 40 false [] [helloRecord] 1).

(** ** The start of a streamed entry *)

(** The options [addFile] hands to [FileEntry] once the stat is there. *)
Definition fileOptions (options : Options) (stats : Stats) : Options :=
  {| o_compress := Some (default true (o_compress options));
     o_forceZip64Format := Some (default false (o_forceZip64Format options));
     o_mode := Some (default (st_mode stats) (o_mode options));
     o_mtime := Some (default (st_mtime stats) (o_mtime options));
     o_fileComment := o_fileComment options;
     o_crc32 := o_crc32 options;
     o_size := Some (st_size stats);
     o_compressedSize := o_compressedSize options;
     o_uncompressedSize := o_uncompressedSize options |}.

Section StreamStartTerms.
Context `{Collaborators}.

(** Operation [id] has rejected with [e] between [a] and [a']: nothing was
    pushed, and the handler of the rejection has destroyed the output when a
    listener for ['error'] is attached; without one [emit] has thrown and
    the output is not destroyed. *)
Definition addFailed (a a' : Archive) (id : nat) (e : Error) : Prop :=
  settled (zip a') !! id = Some (SettledEntry (Err e))
  /\ chain (zip a') = Rejected e
  /\ output a' = output a
  /\ destroyed (readable (zip a')) = errorListener.

(** The reaction of operation [id] has written [header] and reads
    [source]: the state [writeEntryStream] starts in. *)
Definition streamStarted (a a' : Archive) (id : nat) (entry : Entry)
    (header : Buffer) (source : ReadStream) : Prop :=
  output a' = output a ++ [header]
  /\ outputStreamCursor (zip a') = outputStreamCursor (zip a) + blen header
  /\ settled (zip a') = settled (zip a)
  /\ chain (zip a')
     = Streaming {| run_id := id; run_entry := entry;
                    run_cursor := outputStreamCursor (zip a');
                    run_source := source; run_crc32 := 0;
                    run_uncompressedSize := 0; run_compressedSize := 0;
                    run_deflate := deflateInit |}.

End StreamStartTerms.

(** A file of five bytes whose stat says so, a stat that fails, and a stat
    of something that is not a file. *)
Definition helloStats : Stats :=
  {| st_isFile := true; st_mode := 0x81a4; st_mtime := sampleDate; st_size := 5 |}.

Definition helloFileCall (statsPromise : result Stats) : Call :=
  CallAddFile (str "/tmp/a.txt") (str "a.txt") storeOptions statsPromise helloStream.

Definition helloFileEntry : Entry :=
  Eval vm_compute in
    match FileEntry_new sampleDate (str "a.txt") (fileOptions storeOptions helloStats) with
    | Ok entry => setOffset entry 0
    | Err _ => storedEntry 0
    end.

Definition helloFileHeader : Buffer :=
  Eval vm_compute in
    match getLocalFileHeader helloFileEntry with
    | Ok header => header
    | Err _ => []
    end.

Definition helloStreamEntry : Entry :=
  Eval vm_compute in
    match FileEntry_new sampleDate (str "a.txt") (readStreamOptions storeOptions) with
    | Ok entry => setOffset entry 0
    | Err _ => storedEntry 0
    end.

(** ** What the three structures of an entry agree on *)

(** The local header and the central directory record say the same about
    flags, method, time, date and name. *)
Definition headerMatchesRecord (header record : Buffer) : Prop :=
  readUInt16LE header 6 = readUInt16LE record 8
  /\ readUInt16LE header 8 = readUInt16LE record 10
  /\ readUInt16LE header 10 = readUInt16LE record 12
  /\ readUInt16LE header 12 = readUInt16LE record 14
  /\ readUInt16LE header 26 = readUInt16LE record 28
  /\ skipn 30 header = firstn (List.length (skipn 30 header)) (skipn 46 record).

(** [hello] once its stream has ended: checksum and sizes filled in. *)
Definition sealedEntry : Entry :=
  setCompressedSize (setUncompressedSize (setCrc32 helloStreamEntry 0x3610A686) 5) 5.

(** ** The archive as a reader sees it *)

(** The bytes of the archive: the chunks pushed, one after the other. *)
Definition archiveBytes (chunks : list Buffer) : Buffer := List.concat chunks.

(** What a reader finds from [offset] on. *)
Definition from (offset : Z) (bytes : Buffer) : Buffer := skipn (Z.to_nat offset) bytes.

(** At the offset the central directory [record] gives, the archive has a
    local file header with the name the record gives. *)
Definition pointsToHeader (archive record : Buffer) : Prop :=
  let found := from (readUInt32LE record 42) archive in
  let nameLength := Z.to_nat (readUInt16LE record 28) in
  readUInt32LE found 0 = 0x04034b50
  /\ readUInt16LE found 26 = readUInt16LE record 28
  /\ firstn nameLength (skipn 30 found) = firstn nameLength (skipn 46 record).

(** * Properties *)

(** ** Path validation *)

Example validate_ab_file : validateMetadataPath (str "a/b") false = Ok (str "a/b").
Proof. reflexivity. Qed.
Example validate_ab_dir : validateMetadataPath (str "a/b") true = Ok (str "a/b/").
Proof. reflexivity. Qed.
Example validate_abs : isErr (validateMetadataPath (str "/abs/path") false).
Proof. exact I. Qed.
Example validate_drive : isErr (validateMetadataPath (str "C:\foo") false).
Proof. exact I. Qed.
Example validate_dotdot : isErr (validateMetadataPath (str "a/../b") false).
Proof. exact I. Qed.

(** [split] cuts at every separator and nowhere else: gluing the segments
    back with the separator gives the string, and no segment holds one. *)
Lemma split_nonempty sep s : split sep s <> [].
Proof.
  destruct s as [|c rest]; simpl; [discriminate|].
  destruct (c =? sep); [discriminate|].
  destruct (split sep rest); discriminate.
Qed.

Lemma join_split sep s : join sep (split sep s) = s.
Proof.
  induction s as [|c rest IH]; simpl; [reflexivity|].
  destruct (Z.eqb_spec c sep) as [->|Hne].
  - pose proof (split_nonempty sep rest) as Hn.
    destruct (split sep rest) as [|seg segs] eqn:E; [congruence|].
    simpl. f_equal. exact IH.
  - pose proof (split_nonempty sep rest) as Hn.
    destruct (split sep rest) as [|seg segs] eqn:E; [congruence|].
    simpl in *. destruct segs; simpl in *; congruence.
Qed.

Lemma split_segments_clean sep s seg : In seg (split sep s) -> ~ In sep seg.
Proof.
  revert seg. induction s as [|c rest IH]; simpl; intros seg Hin.
  - destruct Hin as [<-|[]]. intros [].
  - destruct (Z.eqb_spec c sep) as [->|Hne].
    + destruct Hin as [<-|Hin]; [intros []|auto].
    + destruct (split sep rest) as [|seg' segs] eqn:E.
      * destruct Hin as [<-|[]]. intros [?|[]]. congruence.
      * destruct Hin as [<-|Hin].
        -- intros [?|Hin']; [congruence|]. apply (IH seg'); [left; reflexivity|exact Hin'].
        -- apply IH. right. exact Hin.
Qed.

Lemma indexOf_lower segments x : -1 <= indexOf segments x.
Proof.
  induction segments as [|seg rest IH]; simpl; [lia|].
  case_bool_decide; [lia|].
  destruct (Z.eqb_spec (indexOf rest x) (-1)); lia.
Qed.

Lemma indexOf_found segments x :
  (indexOf segments x =? -1) = false <-> In x segments.
Proof.
  induction segments as [|seg rest IH]; simpl.
  - split; [discriminate|intros []].
  - case_bool_decide as Hd.
    + split; [intros _; left; exact Hd|reflexivity].
    + pose proof (indexOf_lower rest x) as Hl.
      destruct (Z.eqb_spec (indexOf rest x) (-1)) as [He|He].
      * split; [discriminate|].
        intros [Hx|Hin]; [contradiction|].
        apply IH in Hin. discriminate.
      * split.
        -- intros _. right. apply IH. reflexivity.
        -- intros _. apply Z.eqb_neq. lia.
Qed.

Lemma testTrailingSlash_iff s :
  testTrailingSlash s = true <-> exists pre, s = pre ++ [chSlash].
Proof.
  induction s as [|c rest IH].
  - simpl. split; [discriminate|]. intros [pre Hp]. destruct pre; discriminate.
  - destruct rest as [|d rest'].
    + simpl. split.
      * intros Hc. apply Z.eqb_eq in Hc. subst c. exists []. reflexivity.
      * intros [pre Hp]. destruct pre as [|p pre]; simpl in Hp.
        -- injection Hp as ->. reflexivity.
        -- injection Hp as _ Hp. destruct pre; discriminate.
    + change (testTrailingSlash (c :: d :: rest')) with (testTrailingSlash (d :: rest')).
      rewrite IH. split.
      * intros [pre Hp]. exists (c :: pre). simpl. f_equal. exact Hp.
      * intros [pre Hp]. destruct pre as [|p pre]; simpl in Hp; [discriminate|].
        injection Hp as _ Hp. exists pre. exact Hp.
Qed.

Lemma testLeadingSlash_iff s :
  testLeadingSlash s = true <-> exists rest, s = chSlash :: rest.
Proof.
  destruct s as [|c rest]; simpl.
  - split; [discriminate|]. intros [? ?]. discriminate.
  - split.
    + intros Hc. apply Z.eqb_eq in Hc. subst c. eauto.
    + intros [r Hr]. injection Hr as -> _. reflexivity.
Qed.

Lemma testDriveLetter_iff s :
  testDriveLetter s = true <->
  exists c rest, s = c :: chColon :: rest /\ (97 <= c <= 122 \/ 65 <= c <= 90).
Proof.
  unfold testDriveLetter, isAsciiLetter.
  destruct s as [|c [|d rest]].
  - split; [discriminate|]. intros (? & ? & ? & _). discriminate.
  - split; [discriminate|]. intros (? & ? & ? & _). discriminate.
  - split.
    + intros Ht. apply andb_prop in Ht as [Hl Hd]. apply Z.eqb_eq in Hd. subst d.
      exists c, rest. split; [reflexivity|]. lia.
    + intros (c' & rest' & Heq & Hr). injection Heq as -> -> ->.
      apply andb_true_intro. split; [lia|reflexivity].
Qed.

Lemma replaceBackslashes_nth s i :
  nth i (replaceBackslashes s) 0 =
  if nth i s 0 =? chBackslash then chSlash else nth i s 0.
Proof.
  unfold replaceBackslashes. revert i.
  induction s as [|c rest IH]; intros [|i]; simpl; try reflexivity.
  apply IH.
Qed.

(** C7. [validateMetadataPath] replaces every backslash by a slash; it
    rejects exactly the empty path, a path that (after the replacement)
    starts with a slash or with a letter and a colon, a path with a segment
    [..] between slashes, and, for a file, a path ending in a slash; for a
    directory it appends a slash when there is none; a file path is returned
    as replaced. So [a/b] is accepted as a file and stored as [a/b/] as a
    directory. *)
Theorem validateMetadataPath_behaviour (metadataPath : jsstring) (isDirectory : bool) :
  let replaced := replaceBackslashes metadataPath in
  (List.length replaced = List.length metadataPath /\
   forall i, nth i replaced 0 =
             if nth i metadataPath 0 =? chBackslash then chSlash else nth i metadataPath 0)
  /\ (isErr (validateMetadataPath metadataPath isDirectory) <->
        metadataPath = []
        \/ (exists rest, replaced = chSlash :: rest)
        \/ (exists c rest, replaced = c :: chColon :: rest /\ (97 <= c <= 122 \/ 65 <= c <= 90))
        \/ In (str "..") (split chSlash replaced)
        \/ (isDirectory = false /\ exists pre, replaced = pre ++ [chSlash]))
  /\ (forall stored, validateMetadataPath metadataPath isDirectory = Ok stored ->
        if isDirectory
        then ((exists pre, replaced = pre ++ [chSlash]) /\ stored = replaced)
             \/ (~ (exists pre, replaced = pre ++ [chSlash]) /\ stored = replaced ++ [chSlash])
        else stored = replaced)
  /\ validateMetadataPath (str "a/b") true = Ok (str "a/b/")
  /\ validateMetadataPath (str "a/b") false = Ok (str "a/b")
  /\ isErr (validateMetadataPath (str "a/b/") false).
Proof.
  intros replaced.
  split; [split; [apply length_map|apply replaceBackslashes_nth]|].
  split; [|split; [|repeat split]].
  - unfold validateMetadataPath. fold replaced.
    case_bool_decide as Hempty; [simpl; tauto|].
    destruct (testDriveLetter replaced) eqn:Hdrive; simpl.
    { apply testDriveLetter_iff in Hdrive. tauto. }
    destruct (testLeadingSlash replaced) eqn:Hlead; simpl.
    { apply testLeadingSlash_iff in Hlead. tauto. }
    destruct (indexOf (split chSlash replaced) [chDot; chDot] =? -1) eqn:Hdots; simpl.
    2:{ apply indexOf_found in Hdots. change (str "..") with [chDot; chDot]. tauto. }
    assert (Hnodots : ~ In (str "..") (split chSlash replaced)).
    { intros Hin. apply indexOf_found in Hin.
      change (str "..") with [chDot; chDot] in Hin. congruence. }
    assert (Hnolead : ~ exists rest, replaced = chSlash :: rest).
    { intros Hx. apply testLeadingSlash_iff in Hx. congruence. }
    assert (Hnodrive : ~ exists c rest, replaced = c :: chColon :: rest
                                        /\ (97 <= c <= 122 \/ 65 <= c <= 90)).
    { intros Hx. apply testDriveLetter_iff in Hx. congruence. }
    destruct isDirectory; simpl.
    + split; [intros []|]. intros [?|[?|[?|[?|[? _]]]]]; try contradiction. discriminate.
    + destruct (testTrailingSlash replaced) eqn:Htrail; simpl.
      * apply testTrailingSlash_iff in Htrail. tauto.
      * split; [intros []|]. intros [?|[?|[?|[?|[_ Hx]]]]]; try contradiction.
        apply testTrailingSlash_iff in Hx. congruence.
  - intros stored. unfold validateMetadataPath. fold replaced.
    case_bool_decide; [discriminate|].
    destruct (testDriveLetter replaced || testLeadingSlash replaced); [discriminate|].
    destruct (negb (indexOf (split chSlash replaced) [chDot; chDot] =? -1)); [discriminate|].
    destruct isDirectory.
    + destruct (testTrailingSlash replaced) eqn:Htrail; simpl; intros [= <-].
      * left. split; [apply testTrailingSlash_iff; exact Htrail|reflexivity].
      * right. split; [|reflexivity]. intros Hx.
        apply testTrailingSlash_iff in Hx. congruence.
    + destruct (testTrailingSlash replaced); [discriminate|]. intros [= <-]. reflexivity.
Qed.

(** ** CP437 *)

Lemma fillReverse_Some table : forall i m c b,
  fillReverse table i m !! c = Some b ->
  (m !! c = Some b /\ ~ In c table)
  \/ (exists k, (k < List.length table)%nat /\ nth k table 0 = c /\ b = i + Z.of_nat k).
Proof.
  induction table as [|d rest IH]; simpl; intros i m c b Hl.
  - left. split; [exact Hl|intros []].
  - apply IH in Hl as [[Hm Hn]|(k & Hk & Hnth & Hb)].
    + destruct (decide (d = c)) as [->|Hne].
      * rewrite lookup_insert_eq in Hm. injection Hm as <-.
        right. exists 0%nat. repeat split; [lia|lia].
      * rewrite lookup_insert_ne in Hm by exact Hne.
        left. split; [exact Hm|]. intros [?|?]; contradiction.
    + right. exists (S k). repeat split; [lia|exact Hnth|lia].
Qed.

Lemma fillReverse_None table : forall i m c,
  fillReverse table i m !! c = None -> ~ In c table.
Proof.
  induction table as [|d rest IH]; simpl; intros i m c Hl; [intros []|].
  intros [->|Hin].
  - destruct (fillReverse rest (i + 1) (<[c:=i]> m) !! c) eqn:E; [discriminate|].
    clear Hl. revert E. generalize (i + 1). intros j E.
    assert (Hx : forall t j m', m' !! c <> None -> fillReverse t j m' !! c <> None).
    { clear. induction t as [|e t IHt]; simpl; intros j m' Hm; [exact Hm|].
      apply IHt. destruct (decide (e = c)) as [->|Hne].
      - rewrite lookup_insert_eq. discriminate.
      - rewrite lookup_insert_ne by exact Hne. exact Hm. }
    apply (Hx rest j (<[c:=i]> m)); [|exact E].
    rewrite lookup_insert_eq. discriminate.
  - exact (IH _ _ _ Hl Hin).
Qed.

Lemma reverseCp437_Some c b :
  reverseCp437 !! c = Some b ->
  0 <= b < 256 /\ nth (Z.to_nat b) cp437 0 = c.
Proof.
  unfold reverseCp437. intros Hl.
  apply fillReverse_Some in Hl as [[Hm _]|(k & Hk & Hnth & ->)].
  - rewrite lookup_empty in Hm. discriminate.
  - change (List.length cp437) with 256%nat in Hk.
    split; [lia|]. rewrite Z.add_0_l, Nat2Z.id. exact Hnth.
Qed.

Lemma reverseCp437_None c : reverseCp437 !! c = None -> ~ In c cp437.
Proof. apply fillReverse_None. Qed.

Lemma reverseCp437_total c : In c cp437 -> exists b, reverseCp437 !! c = Some b.
Proof.
  intros Hin. destruct (reverseCp437 !! c) as [b|] eqn:E; [eauto|].
  apply reverseCp437_None in E. contradiction.
Qed.

Lemma cp437_ascii c : 0x20 <= c <= 0x7e -> nth (Z.to_nat c) cp437 0 = c.
Proof.
  intros Hc.
  assert (Hall : forallb (fun n => nth n cp437 0 =? Z.of_nat n) (seq 32 95) = true)
    by (vm_compute; reflexivity).
  rewrite forallb_forall in Hall.
  specialize (Hall (Z.to_nat c)).
  rewrite Z2Nat.id in Hall by lia.
  apply Z.eqb_eq, Hall, in_seq. lia.
Qed.

Lemma cp437_ascii_In c : 0x20 <= c <= 0x7e -> In c cp437.
Proof.
  intros Hc. rewrite <- (cp437_ascii c Hc).
  apply nth_In. change (List.length cp437) with 256%nat. lia.
Qed.

Lemma testPrintableAscii_iff s :
  testPrintableAscii s = true <-> Forall (fun c => 0x20 <= c <= 0x7e) s.
Proof.
  unfold testPrintableAscii. rewrite forallb_forall, List.Forall_forall.
  split; intros Hs c Hin; specialize (Hs c Hin); lia.
Qed.

Lemma utf8Encode_ascii s :
  Forall (fun c => 0x20 <= c <= 0x7e) s -> utf8Encode s = s.
Proof.
  induction 1 as [|c rest Hc _ IH]; [reflexivity|].
  cbn [utf8Encode].
  destruct (Z.ltb_spec c 128); [|lia]. f_equal. exact IH.
Qed.

Lemma encodeCp437Slow_ok s :
  Forall (fun c => In c cp437) s ->
  exists b, encodeCp437Slow s = Ok b /\ List.length b = List.length s /\
    forall i, (i < List.length s)%nat ->
      0 <= nth i b 0 < 256 /\ nth (Z.to_nat (nth i b 0)) cp437 0 = nth i s 0.
Proof.
  induction 1 as [|c rest Hc _ (bs & Hbs & Hlen & Hrt)]; cbn [encodeCp437Slow].
  - exists []. split; [reflexivity|]. split; [reflexivity|].
    intros i Hi. simpl in Hi. lia.
  - destruct (reverseCp437_total c Hc) as [b Hb]. rewrite Hb, Hbs. cbn [rbind].
    exists (b :: bs). split; [reflexivity|]. split; [simpl; congruence|].
    intros [|i] Hi; simpl.
    + apply reverseCp437_Some. exact Hb.
    + apply Hrt. simpl in Hi. lia.
Qed.

Lemma encodeCp437Slow_absent s :
  Exists (fun c => ~ In c cp437) s ->
  exists c, encodeCp437Slow s = Err (ErrNotEncodable c) /\ ~ In c cp437 /\ In c s.
Proof.
  induction s as [|c rest IH]; intros Hex; [inversion Hex|]. cbn [encodeCp437Slow].
  destruct (reverseCp437 !! c) as [b|] eqn:Hb.
  - assert (Hin : In c cp437).
    { apply reverseCp437_Some in Hb as [Hr Hn]. rewrite <- Hn.
      apply nth_In. change (List.length cp437) with 256%nat. lia. }
    inversion Hex as [? ? Habs|? ? Hrest]; subst; [contradiction|].
    destruct (IH Hrest) as (c' & Hc' & Hn & Hi). rewrite Hc'. cbn [rbind].
    exists c'. split; [reflexivity|]. split; [exact Hn|right; exact Hi].
  - exists c. split; [reflexivity|]. split; [apply reverseCp437_None; exact Hb|left; reflexivity].
Qed.

(** C10. On a string of printable ASCII characters (0x20 to 0x7e)
    [encodeCp437] returns one byte per character, the character's code. On a
    string whose characters are all in the table it returns bytes that index
    the table back to the characters. A character that is not in the table
    makes it throw the encoding error. *)
Theorem encodeCp437_round_trip (s : jsstring) :
  (Forall (fun c => 0x20 <= c <= 0x7e) s -> encodeCp437 s = Ok s)
  /\ (Forall (fun c => In c cp437) s ->
      exists b, encodeCp437 s = Ok b /\ List.length b = List.length s /\
        forall i, (i < List.length s)%nat ->
          0 <= nth i b 0 < 256 /\ nth (Z.to_nat (nth i b 0)) cp437 0 = nth i s 0)
  /\ (Exists (fun c => ~ In c cp437) s ->
      exists c, encodeCp437 s = Err (ErrNotEncodable c) /\ ~ In c cp437 /\ In c s)
  /\ List.length cp437 = 256%nat
  /\ encodeCp437 [80; 75; 9827; 9824] = Ok [0x50; 0x4b; 0x05; 0x06].
Proof.
  split; [|split; [|split; [|split; [reflexivity|vm_compute; reflexivity]]]].
  - intros Hs. unfold encodeCp437.
    rewrite (proj2 (testPrintableAscii_iff s) Hs). f_equal. apply utf8Encode_ascii, Hs.
  - intros Hs. unfold encodeCp437.
    destruct (testPrintableAscii s) eqn:Hp; [|apply encodeCp437Slow_ok, Hs].
    apply testPrintableAscii_iff in Hp. rewrite (utf8Encode_ascii s Hp).
    exists s. split; [reflexivity|]. split; [reflexivity|].
    intros i Hi. rewrite List.Forall_forall in Hp.
    assert (Hc : 0x20 <= nth i s 0 <= 0x7e) by (apply Hp, nth_In, Hi).
    split; [lia|apply cp437_ascii, Hc].
  - intros Hex. unfold encodeCp437.
    destruct (testPrintableAscii s) eqn:Hp; [|apply encodeCp437Slow_absent, Hex].
    apply testPrintableAscii_iff in Hp. exfalso.
    apply List.Exists_exists in Hex as (c & Hin & Habs).
    rewrite List.Forall_forall in Hp. apply Habs, cp437_ascii_In, Hp, Hin.
Qed.

(** ** The little-endian writers and readers *)

Lemma writeUInt16LE_Ok v b :
  writeUInt16LE v = Ok b ->
  0 <= v <= 0xffff /\ exists b0 b1, b = [b0; b1] /\ b0 + 256 * b1 = v.
Proof.
  unfold writeUInt16LE, inRange. intros Hw.
  destruct (Z.leb_spec 0 v); [|discriminate].
  destruct (Z.leb_spec v 0xffff); [|discriminate].
  simpl in Hw. injection Hw as <-. split; [lia|].
  eexists _, _. split; [reflexivity|].
  rewrite (Z.mod_small (v / 256)) by (split; [apply Z.div_pos; lia|apply Z.div_lt_upper_bound; lia]).
  pose proof (Z.div_mod v 256). lia.
Qed.

Lemma writeUInt32LE_Ok v b :
  writeUInt32LE v = Ok b ->
  0 <= v <= 0xffffffff /\
  exists b0 b1 b2 b3, b = [b0; b1; b2; b3]
    /\ b0 + 256 * b1 + 65536 * b2 + 16777216 * b3 = v.
Proof.
  unfold writeUInt32LE, inRange. intros Hw.
  destruct (Z.leb_spec 0 v); [|discriminate].
  destruct (Z.leb_spec v 0xffffffff); [|discriminate].
  simpl in Hw. injection Hw as <-. split; [lia|].
  eexists _, _, _, _. split; [reflexivity|].
  rewrite (Z.mod_small (v / 16777216))
    by (split; [apply Z.div_pos; lia|apply Z.div_lt_upper_bound; lia]).
  pose proof (Z.div_mod v 256 ltac:(lia)).
  pose proof (Z.div_mod (v / 256) 256 ltac:(lia)).
  pose proof (Z.div_mod (v / 65536) 256 ltac:(lia)).
  replace (v / 65536) with (v / 256 / 256) in *
    by (rewrite Z.div_div by lia; reflexivity).
  replace (v / 16777216) with (v / 256 / 256 / 256)
    by (rewrite !Z.div_div by lia; reflexivity).
  lia.
Qed.

Lemma writeUInt32LE_opt_Ok v b :
  writeUInt32LE_opt v = Ok b ->
  0 <= stored v <= 0xffffffff /\
  exists b0 b1 b2 b3, b = [b0; b1; b2; b3]
    /\ b0 + 256 * b1 + 65536 * b2 + 16777216 * b3 = stored v.
Proof.
  destruct v as [n|]; simpl.
  - apply writeUInt32LE_Ok.
  - intros [= <-]. split; [lia|]. exists 0, 0, 0, 0. split; reflexivity.
Qed.

Lemma writeUInt64LE_Ok n b :
  writeUInt64LE n = Ok b ->
  0 <= n /\
  exists b0 b1 b2 b3 b4 b5 b6 b7, b = [b0; b1; b2; b3; b4; b5; b6; b7]
    /\ (b0 + 256 * b1 + 65536 * b2 + 16777216 * b3)
       + 0x100000000 * (b4 + 256 * b5 + 65536 * b6 + 16777216 * b7) = n.
Proof.
  unfold writeUInt64LE, rbind. intros Hw.
  destruct (writeUInt32LE (Z.rem n 4294967296)) as [l|] eqn:Hl; [|discriminate].
  destruct (writeUInt32LE (n / 4294967296)) as [h|] eqn:Hh; [|discriminate].
  injection Hw as <-.
  apply writeUInt32LE_Ok in Hl as [Hlr (b0 & b1 & b2 & b3 & -> & Hlv)].
  apply writeUInt32LE_Ok in Hh as [Hhr (b4 & b5 & b6 & b7 & -> & Hhv)].
  assert (Hn : 0 <= n).
  { destruct (Z.le_gt_cases 0 n) as [|Hneg]; [assumption|].
    assert (n / 4294967296 < 0) by (apply Z.div_lt_upper_bound; lia). lia. }
  split; [exact Hn|].
  eexists _, _, _, _, _, _, _, _. split; [reflexivity|].
  rewrite Hlv, Hhv. rewrite Z.rem_mod_nonneg by lia.
  pose proof (Z.div_mod n 4294967296 ltac:(lia)). lia.
Qed.

Lemma writeUInt64LE_opt_Ok v b :
  writeUInt64LE_opt v = Ok b ->
  0 <= stored v /\
  exists b0 b1 b2 b3 b4 b5 b6 b7, b = [b0; b1; b2; b3; b4; b5; b6; b7]
    /\ (b0 + 256 * b1 + 65536 * b2 + 16777216 * b3)
       + 0x100000000 * (b4 + 256 * b5 + 65536 * b6 + 16777216 * b7) = stored v.
Proof.
  destruct v as [n|]; simpl.
  - apply writeUInt64LE_Ok.
  - intros [= <-]. split; [lia|]. exists 0, 0, 0, 0, 0, 0, 0, 0. split; reflexivity.
Qed.

(** Reading behind a prefix. *)
Lemma byteAt_app (pre b : Buffer) k :
  byteAt (pre ++ b) (List.length pre + k) = byteAt b k.
Proof.
  unfold byteAt. rewrite app_nth2 by lia. f_equal. lia.
Qed.

Lemma rbind_Ok {A B} (r : result A) (k : A -> result B) (b : B) :
  rbind r k = Ok b -> exists a, r = Ok a /\ k a = Ok b.
Proof. destruct r as [a|e]; [eauto|discriminate]. Qed.

(** Takes a chain of [let!] apart: every write succeeded. *)
Ltac bind_inversion H :=
  lazymatch type of H with
  | rbind _ _ = Ok _ =>
      let a := fresh "w" in
      let E := fresh "Hw" in
      apply rbind_Ok in H as (a & E & H);
      bind_inversion E; bind_inversion H
  | Ok _ = Ok ?y => injection H as H; try subst y
  | _ => idtac
  end.

Ltac bytes_of_writes :=
  repeat match goal with
         | Hw : writeUInt16LE _ = Ok _ |- _ =>
             apply writeUInt16LE_Ok in Hw as [? (? & ? & -> & ?)]
         | Hw : writeUInt32LE _ = Ok _ |- _ =>
             apply writeUInt32LE_Ok in Hw as [? (? & ? & ? & ? & -> & ?)]
         | Hw : writeUInt32LE_opt _ = Ok _ |- _ =>
             apply writeUInt32LE_opt_Ok in Hw as [? (? & ? & ? & ? & -> & ?)]
         | Hw : writeUInt64LE _ = Ok _ |- _ =>
             apply writeUInt64LE_Ok in Hw
               as [? (? & ? & ? & ? & ? & ? & ? & ? & -> & ?)]
         | Hw : writeUInt64LE_opt _ = Ok _ |- _ =>
             apply writeUInt64LE_opt_Ok in Hw
               as [? (? & ? & ? & ? & ? & ? & ? & ? & -> & ?)]
         end.

Ltac read_bytes :=
  unfold readUInt64LE, readUInt32LE, readUInt16LE, byteAt, blen, stored in *;
  cbn [nth app Nat.add skipn List.length Z.of_nat Pos.of_succ_nat Pos.succ
       default from_option id] in *.

(** ** The central directory record *)

Lemma gtNumber_iff x n : gtNumber x n = true <-> exceeds x n.
Proof.
  unfold gtNumber, exceeds. destruct x as [v|].
  - rewrite Z.ltb_lt. split; [eauto|]. intros (w & [= <-] & Hw). exact Hw.
  - split; [discriminate|]. intros (w & Hw & _). discriminate.
Qed.

Lemma useZip64Format_iff entry :
  useZip64Format entry = true <->
  forceZip64Format entry = true
  \/ exceeds (uncompressedSize entry) 0xfffffffe
  \/ exceeds (compressedSize entry) 0xfffffffe
  \/ exceeds (relativeOffsetOfLocalHeader entry) 0xfffffffe.
Proof.
  unfold useZip64Format. rewrite !orb_true_iff, !gtNumber_iff. tauto.
Qed.

Lemma centralDirectoryRecord_zip64 entry record :
  getCentralDirectoryRecord entry = Ok record ->
  useZip64Format entry = true -> usesZip64Fields entry record.
Proof.
  unfold getCentralDirectoryRecord. cbv zeta. intros Hrec Hz. rewrite Hz in Hrec.
  bind_inversion Hrec. bytes_of_writes.
  unfold usesZip64Fields, zip64ExtraField, stored in *.
  rewrite !length_app. read_bytes.
  rewrite !drop_app_length. read_bytes.
  unfold VERSION_NEEDED_TO_EXTRACT_ZIP64, ZIP64_EXTENDED_INFORMATION_EXTRA_FIELD_SIZE in *.
  repeat split; try lia.
Qed.

Lemma centralDirectoryRecord_normal entry record :
  getCentralDirectoryRecord entry = Ok record ->
  useZip64Format entry = false -> usesNormalFields entry record.
Proof.
  unfold getCentralDirectoryRecord. cbv zeta. intros Hrec Hz. rewrite Hz in Hrec.
  bind_inversion Hrec. bytes_of_writes.
  unfold usesNormalFields, stored in *.
  rewrite !length_app. read_bytes.
  unfold VERSION_NEEDED_TO_EXTRACT_UTF8 in *.
  repeat split; try lia.
Qed.

(** C1. A central directory record that is emitted is in ZIP64 form exactly
    when [forceZip64Format] is set or one of [uncompressedSize],
    [compressedSize], [relativeOffsetOfLocalHeader] is strictly greater than
    0xfffffffe; otherwise it is in the 32-bit form. A value of 0xfffffffe
    gives the 32-bit form, 0xffffffff the ZIP64 form. *)
Theorem central_directory_zip64_exact (entry : Entry) (record : Buffer) :
  getCentralDirectoryRecord entry = Ok record ->
  (usesZip64Fields entry record <->
     forceZip64Format entry = true
     \/ exceeds (uncompressedSize entry) 0xfffffffe
     \/ exceeds (compressedSize entry) 0xfffffffe
     \/ exceeds (relativeOffsetOfLocalHeader entry) 0xfffffffe)
  /\ (~ usesZip64Fields entry record -> usesNormalFields entry record)
  /\ (forceZip64Format entry = false ->
      stored (uncompressedSize entry) <= 0xfffffffe ->
      stored (compressedSize entry) <= 0xfffffffe ->
      stored (relativeOffsetOfLocalHeader entry) <= 0xfffffffe ->
      usesNormalFields entry record)
  /\ (uncompressedSize entry = Some 0xffffffff -> usesZip64Fields entry record).
Proof.
  intros Hrec.
  assert (Hnot : useZip64Format entry = false -> ~ usesZip64Fields entry record).
  { intros Hz Hu. apply (centralDirectoryRecord_normal _ _ Hrec) in Hz.
    destruct Hu as (_ & _ & _ & Hv & _). destruct Hz as (_ & _ & _ & Hv' & _).
    rewrite Hv in Hv'. discriminate. }
  split; [|split; [|split]].
  - rewrite <- useZip64Format_iff. split.
    + intros Hu. destruct (useZip64Format entry) eqn:Hz; [reflexivity|].
      exfalso. exact (Hnot eq_refl Hu).
    + apply centralDirectoryRecord_zip64, Hrec.
  - intros Hn. apply (centralDirectoryRecord_normal _ _ Hrec).
    destruct (useZip64Format entry) eqn:Hz; [|reflexivity].
    exfalso. apply Hn, (centralDirectoryRecord_zip64 _ _ Hrec Hz).
  - intros Hf Hu Hc Ho. apply (centralDirectoryRecord_normal _ _ Hrec).
    destruct (useZip64Format entry) eqn:Hz; [|reflexivity].
    apply useZip64Format_iff in Hz
      as [Hz|[(v & Hv & Hlt)|[(v & Hv & Hlt)|(v & Hv & Hlt)]]];
      [congruence| | |]; rewrite Hv in *; unfold stored in *; simpl in *; lia.
  - intros Hu. apply (centralDirectoryRecord_zip64 _ _ Hrec).
    apply useZip64Format_iff. right. left. exists 0xffffffff. split; [exact Hu|lia].
Qed.

Lemma central_directory_zip64_witness :
  (getCentralDirectoryRecord (storedEntry 0xffffffff)
     = Ok (recordOf (storedEntry 0xffffffff))
   /\ usesZip64Fields (storedEntry 0xffffffff) (recordOf (storedEntry 0xffffffff)))
  /\ (getCentralDirectoryRecord (storedEntry 0xfffffffe)
        = Ok (recordOf (storedEntry 0xfffffffe))
      /\ usesNormalFields (storedEntry 0xfffffffe) (recordOf (storedEntry 0xfffffffe))).
Proof.
  assert (Hbig : getCentralDirectoryRecord (storedEntry 0xffffffff)
                 = Ok (recordOf (storedEntry 0xffffffff))) by (vm_compute; reflexivity).
  assert (Hedge : getCentralDirectoryRecord (storedEntry 0xfffffffe)
                  = Ok (recordOf (storedEntry 0xfffffffe))) by (vm_compute; reflexivity).
  split; (split; [assumption|]).
  - apply (central_directory_zip64_exact _ _ Hbig). reflexivity.
  - apply (central_directory_zip64_exact _ _ Hedge); vm_compute; congruence.
Defined.

(** ** The end of central directory record *)

Lemma needZip64Format_iff record :
  needZip64Format record = true <->
  r_forceZip64Format record = true
  \/ 0xffff <= r_entriesCount record
  \/ 0xffffffff <= r_outputStreamCursor record - r_offsetOfStartOfCentralDirectory record
  \/ 0xffffffff <= r_offsetOfStartOfCentralDirectory record.
Proof.
  unfold needZip64Format. cbv zeta.
  rewrite !orb_true_iff, !Z.geb_le. tauto.
Qed.

Lemma capped_eq force v cap :
  (if force || (v >=? cap) then cap else v) = capped force v cap.
Proof.
  unfold capped. destruct force; simpl; [reflexivity|].
  destruct (Z.geb_spec v cap); lia.
Qed.

Lemma endRecord_zip64 record bytes :
  getEndOfCentralDirectoryRecord record false = Ok (EocdrBytes bytes) ->
  needZip64Format record = true -> zip64EndStructure record bytes.
Proof.
  unfold getEndOfCentralDirectoryRecord. cbv zeta. intros Hrec Hz. rewrite Hz in Hrec.
  rewrite !capped_eq in Hrec. cbn [negb] in Hrec.
  bind_inversion Hrec. subst bytes. bytes_of_writes.
  unfold zip64EndStructure, classicEndRecord. cbv zeta.
  unfold ZIP64_END_OF_CENTRAL_DIRECTORY_RECORD_SIZE, VERSION_NEEDED_TO_EXTRACT_ZIP64 in *.
  read_bytes.
  repeat split; try lia.
Qed.

Lemma endRecord_classic record bytes :
  getEndOfCentralDirectoryRecord record false = Ok (EocdrBytes bytes) ->
  needZip64Format record = false -> classicEndStructure record bytes.
Proof.
  intros Hrec Hz.
  assert (Hn : ~ (r_forceZip64Format record = true
     \/ 0xffff <= r_entriesCount record
     \/ 0xffffffff <= r_outputStreamCursor record - r_offsetOfStartOfCentralDirectory record
     \/ 0xffffffff <= r_offsetOfStartOfCentralDirectory record)).
  { rewrite <- needZip64Format_iff. congruence. }
  revert Hrec. unfold getEndOfCentralDirectoryRecord. cbv zeta. intros Hrec.
  rewrite Hz in Hrec. rewrite !capped_eq in Hrec. cbn [negb] in Hrec.
  destruct (r_forceZip64Format record); [tauto|]. unfold capped in Hrec.
  rewrite !Z.min_l in Hrec by lia.
  bind_inversion Hrec. subst bytes. bytes_of_writes.
  unfold classicEndStructure, classicEndRecord.
  read_bytes.
  repeat split; try lia.
Qed.

(** C2, as the code has it. The end-of-central-directory structure is the
    ZIP64 variant exactly when [forceZip64Format] is set, or the entry count
    is at least 0xffff, or the size of the central directory is at least
    0xffffffff, or its start offset is at least 0xffffffff; otherwise it is
    the classic record alone. A size of 0xfffffffe gives the classic record,
    0xffffffff the ZIP64 variant. *)
Theorem end_record_zip64_exact (record : EndRecord) (bytes : Buffer) :
  getEndOfCentralDirectoryRecord record false = Ok (EocdrBytes bytes) ->
  let size := r_outputStreamCursor record - r_offsetOfStartOfCentralDirectory record in
  (zip64EndStructure record bytes <->
     r_forceZip64Format record = true
     \/ 0xffff <= r_entriesCount record
     \/ 0xffffffff <= size
     \/ 0xffffffff <= r_offsetOfStartOfCentralDirectory record)
  /\ (~ zip64EndStructure record bytes -> classicEndStructure record bytes)
  /\ (r_forceZip64Format record = false -> r_entriesCount record < 0xffff ->
      r_offsetOfStartOfCentralDirectory record < 0xffffffff ->
      size = 0xfffffffe -> classicEndStructure record bytes)
  /\ (size = 0xffffffff -> zip64EndStructure record bytes).
Proof.
  intros Hrec size. subst size.
  assert (Hnot : needZip64Format record = false -> ~ zip64EndStructure record bytes).
  { intros Hz Hu. apply (endRecord_classic _ _ Hrec) in Hz.
    destruct Hu as (Hs & _). destruct Hz as (Hs' & _).
    rewrite Hs in Hs'. discriminate. }
  split; [|split; [|split]].
  - rewrite <- needZip64Format_iff. split.
    + intros Hu. destruct (needZip64Format record) eqn:Hz; [reflexivity|].
      exfalso. exact (Hnot eq_refl Hu).
    + apply endRecord_zip64, Hrec.
  - intros Hn. apply (endRecord_classic _ _ Hrec).
    destruct (needZip64Format record) eqn:Hz; [|reflexivity].
    exfalso. apply Hn, (endRecord_zip64 _ _ Hrec Hz).
  - intros Hf Hc Ho Hs. apply (endRecord_classic _ _ Hrec).
    destruct (needZip64Format record) eqn:Hz; [|reflexivity].
    apply needZip64Format_iff in Hz. rewrite Hf in Hz.
    destruct Hz as [Hz|[Hz|[Hz|Hz]]]; [discriminate|lia|lia|lia].
  - intros Hs. apply (endRecord_zip64 _ _ Hrec).
    apply needZip64Format_iff. lia.
Qed.

Lemma end_record_zip64_witness :
  (getEndOfCentralDirectoryRecord (endRecordOfSize 4096 0xffffffff) false
     = Ok (EocdrBytes (endBytesOf (endRecordOfSize 4096 0xffffffff)))
   /\ zip64EndStructure (endRecordOfSize 4096 0xffffffff)
        (endBytesOf (endRecordOfSize 4096 0xffffffff)))
  /\ (getEndOfCentralDirectoryRecord (endRecordOfSize 4096 0xfffffffe) false
        = Ok (EocdrBytes (endBytesOf (endRecordOfSize 4096 0xfffffffe)))
      /\ classicEndStructure (endRecordOfSize 4096 0xfffffffe)
           (endBytesOf (endRecordOfSize 4096 0xfffffffe))).
Proof.
  assert (Hbig : getEndOfCentralDirectoryRecord (endRecordOfSize 4096 0xffffffff) false
     = Ok (EocdrBytes (endBytesOf (endRecordOfSize 4096 0xffffffff))))
    by (vm_compute; reflexivity).
  assert (Hedge : getEndOfCentralDirectoryRecord (endRecordOfSize 4096 0xfffffffe) false
     = Ok (EocdrBytes (endBytesOf (endRecordOfSize 4096 0xfffffffe))))
    by (vm_compute; reflexivity).
  split; (split; [assumption|]).
  - apply (end_record_zip64_exact _ _ Hbig). reflexivity.
  - apply (end_record_zip64_exact _ _ Hedge); vm_compute; congruence.
Defined.

(** C2 as stated fails: a central directory of exactly 0xfffffffe bytes
    (65534 entries, no force flag, start offset 4096) is closed by the classic
    22-byte record, not by the ZIP64 variant. *)
Lemma end_record_size_fffffffe_is_classic :
  exists bytes,
    getEndOfCentralDirectoryRecord (endRecordOfSize 4096 0xfffffffe) false
      = Ok (EocdrBytes bytes)
    /\ List.length bytes = 22%nat
    /\ readUInt32LE bytes 0 = 0x06054b50
    /\ ~ zip64EndStructure (endRecordOfSize 4096 0xfffffffe) bytes.
Proof.
  exists (endBytesOf (endRecordOfSize 4096 0xfffffffe)).
  split; [vm_compute; reflexivity|].
  split; [vm_compute; reflexivity|].
  split; [vm_compute; reflexivity|].
  intros (Hsig & _). vm_compute in Hsig. discriminate.
Qed.

(** ** Comments *)

Lemma startsWith_iff needle haystack :
  startsWith needle haystack = true <-> exists post, haystack = needle ++ post.
Proof.
  revert haystack. induction needle as [|n needle IH]; intros haystack; simpl.
  - split; [eauto|reflexivity].
  - destruct haystack as [|h haystack].
    + split; [discriminate|]. intros [post Hp]. discriminate.
    + rewrite andb_true_iff, Z.eqb_eq, IH. split.
      * intros [-> [post ->]]. eauto.
      * intros [post [= -> ->]]. eauto.
Qed.

Lemma includes_iff haystack needle :
  includes haystack needle = true <-> exists pre post, haystack = pre ++ needle ++ post.
Proof.
  induction haystack as [|h haystack IH].
  - simpl. rewrite orb_false_r, startsWith_iff. split.
    + intros [post Hp]. exists [], post. exact Hp.
    + intros (pre & post & Hp). destruct pre; [eauto|discriminate].
  - cbn [includes]. rewrite orb_true_iff, startsWith_iff, IH. split.
    + intros [[post Hp]|(pre & post & Hp)].
      * exists [], post. exact Hp.
      * exists (h :: pre), post. simpl. f_equal. exact Hp.
    + intros (pre & post & Hp). destruct pre as [|p pre]; simpl in Hp.
      * left. eauto.
      * right. injection Hp as _ Hp. eauto.
Qed.

Lemma Entry_new_comment_too_large now path options comment :
  o_fileComment options = Some comment ->
  0xffff < blen (fileCommentBytes comment) ->
  isErr (Entry_new now path options)
  /\ (blen (utf8Encode path) <= 0xffff ->
      (exists mode, o_mode options = Some mode /\ 0 <= mode <= 0xffff) ->
      Entry_new now path options = Err ErrFileCommentTooLarge).
Proof.
  intros Hc Hlen. unfold Entry_new. rewrite Hc. fold (fileCommentBytes comment).
  assert (Hgt : (blen (fileCommentBytes comment) >? 65535) = true) by lia.
  rewrite Hgt.
  split.
  - destruct (blen (utf8Encode path) >? 65535); [exact I|].
    destruct (o_mode options) as [mode|]; [|exact I].
    destruct (negb (Z.land mode 65535 =? mode)); exact I.
  - intros Hname (mode & Hm & Hrange).
    destruct (Z.gtb_spec (blen (utf8Encode path)) 65535); [lia|].
    rewrite Hm.
    assert (Hland : Z.land mode 65535 = mode).
    { change 65535 with (Z.ones 16). rewrite Z.land_ones by lia.
      apply Z.mod_small. lia. }
    rewrite Hland, Z.eqb_refl. reflexivity.
Qed.

Section Comments.
Context `{Collaborators}.

(** C3, as the code has it. An archive comment handed to [finalize] whose
    bytes hold the signature 50 4B 05 06, or that is longer than 0xffff
    bytes, is rejected at that call and nothing is queued. A per-entry
    [fileComment] longer than 0xffff bytes is rejected when the entry is
    constructed; its bytes are not searched for the signature. *)
Theorem comment_validation :
  (forall (l : LowLevel) (entries : nat) (options : EndOptions)
          (comment : Comment) (bytes : Buffer),
      e_comment options = Some comment ->
      (comment = CommentBuffer bytes
       \/ exists s, comment = CommentString s /\ encodeCp437 s = Ok bytes) ->
      containsSignature bytes \/ 0xffff < blen bytes ->
      exists e, addCentralDirectoryRecord l entries options = (l, Some e)
                /\ (hasQueue (self l) = true ->
                    e = ErrCommentTooLarge \/ e = ErrCommentHasSignature))
  /\ (forall (now : Date) (path : jsstring) (options : Options) (comment : Comment),
      o_fileComment options = Some comment ->
      0xffff < blen (fileCommentBytes comment) ->
      isErr (FileEntry_new now path options)
      /\ isErr (DirectoryEntry_new now path options)
      /\ (blen (utf8Encode path) <= 0xffff ->
          0 <= default 33204 (o_mode options) <= 0xffff ->
          FileEntry_new now path options = Err ErrFileCommentTooLarge)).
Proof.
  split.
  - intros l entries options comment bytes Hc Hbytes Hbad.
    unfold addCentralDirectoryRecord.
    destruct (hasQueue (self l)); cbn [negb].
    2:{ exists ErrFinalized. split; [reflexivity|discriminate]. }
    assert (Harch : archiveComment options = Err ErrCommentTooLarge
                    \/ archiveComment options = Err ErrCommentHasSignature).
    { unfold archiveComment. rewrite Hc.
      assert (Hb : match comment with
                   | CommentString s => encodeCp437 s
                   | CommentBuffer b => Ok b
                   end = Ok bytes).
      { destruct Hbytes as [->|(s & -> & Hs)]; [reflexivity|exact Hs]. }
      rewrite Hb. cbn [rbind].
      destruct (Z.gtb_spec (blen bytes) 65535); [left; reflexivity|].
      destruct Hbad as [Hsig|Hlen]; [|lia].
      apply includes_iff in Hsig. rewrite Hsig. right. reflexivity. }
    destruct Harch as [-> | ->]; eexists; (split; [reflexivity|]); intros _; auto.
  - intros now path options comment Hc Hlen.
    split; [|split].
    + unfold FileEntry_new. eapply Entry_new_comment_too_large; [exact Hc|exact Hlen].
    + unfold DirectoryEntry_new. eapply Entry_new_comment_too_large; [exact Hc|exact Hlen].
    + intros Hname Hmode. unfold FileEntry_new.
      eapply (Entry_new_comment_too_large now path _ comment);
        [exact Hc|exact Hlen|exact Hname|].
      eexists. split; [reflexivity|exact Hmode].
Qed.

End Comments.

(** C3 as stated fails for a per-entry comment: a read-stream add whose
    [fileComment] is the four signature bytes is accepted at call time, and
    the entry is sealed with that comment. *)
Lemma file_comment_with_signature_accepted :
  let options :=
    {| o_compress := Some false; o_forceZip64Format := None; o_mode := None;
       o_mtime := None;
       o_fileComment := Some (CommentBuffer [0x50; 0x4b; 0x05; 0x06]);
       o_crc32 := None; o_size := None; o_compressedSize := None;
       o_uncompressedSize := None |} in
  let now :=
    {| getUTCFullYear := 2024; getUTCMonth := 0; getUTCDate := 1;
       getUTCHours := 0; getUTCMinutes := 0; getUTCSeconds := 0 |} in
  let call :=
    CallAddReadStream {| rs_chunks := [str "hello"]; rs_end := EmitsEnd |}
      (str "a.txt") options now in
  containsSignature [0x50; 0x4b; 0x05; 0x06]
  /\ snd (invoke newArchive call) = None
  /\ exists entry,
       settled (zip (run newArchive [Invoke call; Advance; Advance; Advance])) !! 0%nat
         = Some (SettledEntry (Ok entry))
       /\ fileComment entry = [0x50; 0x4b; 0x05; 0x06].
Proof.
  cbv zeta. split; [exists [], []; reflexivity|].
  split; [vm_compute; reflexivity|].
  eexists. split; [vm_compute; reflexivity|reflexivity].
Qed.

(** ** The handler of a rejection *)

Section Rejection.
Context `{Collaborators}.

(** What a rejection leaves of the object: everything but the promise, the
    chain and, with a listener, the [destroyed] flag. *)
Lemma reject_fields z id e :
  hasQueue (reject z id e) = hasQueue z
  /\ outputStreamCursor (reject z id e) = outputStreamCursor z
  /\ offsetOfStartOfCentralDirectory (reject z id e) = offsetOfStartOfCentralDirectory z
  /\ received (readable (reject z id e)) = received (readable z)
  /\ ended (readable (reject z id e)) = ended (readable z)
  /\ destroyed (readable (reject z id e)) = errorListener || destroyed (readable z)
  /\ chain (reject z id e) = Rejected e
  /\ settled (reject z id e) = <[id := SettledEntry (Err e)]> (settled z).
Proof.
  unfold reject, emitError. destruct errorListener; repeat split.
Qed.

End Rejection.

(** ** Validation at call time *)

Section CallTime.
Context `{Collaborators}.

Lemma withLowLevel_failed (a : Archive) (e : Error) :
  withLowLevel a (lowlevel a, Some e) = (a, Some e).
Proof. destruct a. reflexivity. Qed.

Lemma addEntry_outcome l prepared t :
  addEntry l prepared t = (l, Some ErrFinalized)
  \/ addEntry l prepared t = (enqueue l prepared t, None).
Proof. unfold addEntry. destruct (hasQueue (self l)); auto. Qed.

(** A call that ends with an error at call time has changed nothing. *)
Lemma invoke_failed_unchanged (a : Archive) (c : Call) (e : Error) :
  snd (invoke a c) = Some e -> fst (invoke a c) = a.
Proof.
  assert (Hadd : forall prepared t,
             snd (withLowLevel a (addEntry (lowlevel a) prepared t)) = Some e ->
             fst (withLowLevel a (addEntry (lowlevel a) prepared t)) = a).
  { intros prepared t. destruct (addEntry_outcome (lowlevel a) prepared t) as [-> | ->].
    - intros _. destruct a. reflexivity.
    - discriminate. }
  destruct c as [realPath metadataPath options stats content
                |readStream metadataPath options now
                |buffer metadataPath options now
                |metadataPath options now
                |entry
                |options]; cbn [invoke].
  - unfold addFile. destruct (validateMetadataPath metadataPath false).
    + apply Hadd.
    + intros _. destruct a. reflexivity.
  - unfold addReadStream. destruct (validateMetadataPath metadataPath false).
    + destruct (FileEntry_new _ _ _).
      * apply Hadd.
      * intros _. destruct a. reflexivity.
    + intros _. destruct a. reflexivity.
  - unfold addBuffer. destruct (validateMetadataPath metadataPath false).
    + destruct (blen buffer >? 1073741823).
      * intros _. destruct a. reflexivity.
      * apply Hadd.
    + intros _. destruct a. reflexivity.
  - unfold addEmptyDirectory. destruct (validateMetadataPath metadataPath true).
    + apply Hadd.
    + intros _. destruct a. reflexivity.
  - discriminate.
  - unfold addCentralDirectoryRecord. destruct (hasQueue (self (lowlevel a))); cbn [negb].
    + destruct (archiveComment options).
      * discriminate.
      * intros _. destruct a. reflexivity.
    + intros _. destruct a. reflexivity.
Qed.

(** C4, as the code has it. In every add operation a bad path is an error
    at call time; so is an oversized buffer in the buffer add; so are an
    oversized name, an oversized comment and an invalid mode in the
    read-stream add, which constructs its entry before queuing. An error at
    call time queues nothing and leaves the archive as it was: what is
    called afterwards runs as if the failed call had not been made. *)
Theorem validation_at_call_time (a : Archive) :
  (forall realPath metadataPath options statsPromise content e,
      validateMetadataPath metadataPath false = Err e ->
      invoke a (CallAddFile realPath metadataPath options statsPromise content)
      = (a, Some e))
  /\ (forall readStream metadataPath options now e,
      validateMetadataPath metadataPath false = Err e ->
      invoke a (CallAddReadStream readStream metadataPath options now) = (a, Some e))
  /\ (forall buffer metadataPath options now e,
      validateMetadataPath metadataPath false = Err e ->
      invoke a (CallAddBuffer buffer metadataPath options now) = (a, Some e))
  /\ (forall metadataPath options now e,
      validateMetadataPath metadataPath true = Err e ->
      invoke a (CallAddEmptyDirectory metadataPath options now) = (a, Some e))
  /\ (forall buffer metadataPath options now stored,
      validateMetadataPath metadataPath false = Ok stored ->
      0x3fffffff < blen buffer ->
      invoke a (CallAddBuffer buffer metadataPath options now)
      = (a, Some (ErrBufferTooLarge (blen buffer))))
  /\ (forall readStream metadataPath options now stored,
      validateMetadataPath metadataPath false = Ok stored ->
      (0xffff < blen (utf8Encode stored)
       \/ (exists mode, o_mode options = Some mode /\ ~ 0 <= mode <= 0xffff)
       \/ (exists comment, o_fileComment options = Some comment
                           /\ 0xffff < blen (fileCommentBytes comment))) ->
      exists e, FileEntry_new now stored (readStreamOptions options) = Err e
                /\ invoke a (CallAddReadStream readStream metadataPath options now)
                   = (a, Some e))
  /\ (forall c e, snd (invoke a c) = Some e ->
      fst (invoke a c) = a
      /\ forall events, run (fst (invoke a c)) events = run a events).
Proof.
  repeat split.
  - intros ? ? ? ? ? e Hv. cbn [invoke]. unfold addFile. rewrite Hv.
    apply withLowLevel_failed.
  - intros ? ? ? ? e Hv. cbn [invoke]. unfold addReadStream. rewrite Hv.
    apply withLowLevel_failed.
  - intros ? ? ? ? e Hv. cbn [invoke]. unfold addBuffer. rewrite Hv.
    apply withLowLevel_failed.
  - intros ? ? ? e Hv. cbn [invoke]. unfold addEmptyDirectory. rewrite Hv.
    apply withLowLevel_failed.
  - intros buffer ? ? ? stored Hv Hlen. cbn [invoke]. unfold addBuffer. rewrite Hv.
    destruct (Z.gtb_spec (blen buffer) 1073741823); [|exfalso; lia].
    apply withLowLevel_failed.
  - intros readStream metadataPath options now stored Hv Hbad.
    assert (Herr : isErr (FileEntry_new now stored (readStreamOptions options))).
    { unfold FileEntry_new, readStreamOptions. cbn [o_compress o_forceZip64Format o_mode
        o_mtime o_fileComment o_crc32 o_size o_compressedSize o_uncompressedSize].
      destruct Hbad as [Hname|[(mode & Hm & Hrange)|(comment & Hc & Hlen)]].
      - unfold Entry_new. destruct (Z.gtb_spec (blen (utf8Encode stored)) 65535); [exact I|exfalso; lia].
      - unfold Entry_new. destruct (blen (utf8Encode stored) >? 65535); [exact I|].
        cbn [o_mode]. rewrite Hm. cbn [default from_option id].
        destruct (Z.eqb_spec (Z.land mode 65535) mode) as [Heq|Hne]; [|exact I].
        exfalso. apply Hrange. rewrite <- Heq.
        replace (Z.land mode 65535) with (mode mod 65536)
          by (change 65535 with (Z.ones 16); rewrite Z.land_ones by lia; reflexivity).
        pose proof (Z.mod_pos_bound mode 65536). lia.
      - eapply Entry_new_comment_too_large; [|exact Hlen]. exact Hc. }
    destruct (FileEntry_new now stored (readStreamOptions options)) as [|e] eqn:He;
      [destruct Herr|].
    exists e. split; [reflexivity|].
    cbn [invoke]. unfold addReadStream. rewrite Hv.
    fold (readStreamOptions options). rewrite He. apply withLowLevel_failed.
  - eapply invoke_failed_unchanged; eassumption.
  - erewrite invoke_failed_unchanged by eassumption. reflexivity.
Qed.

End CallTime.

(** C4 as stated fails for a mode that is checked inside the queued task: an
    empty-directory add with mode 0x10000 is accepted at call time; its task
    then rejects, the stream is destroyed (a listener for ['error'] is
    attached), and a valid add made afterwards is rejected with the same
    error, while on a fresh archive it succeeds. *)
Lemma invalid_mode_poisons_archive :
  let now :=
    {| getUTCFullYear := 2024; getUTCMonth := 0; getUTCDate := 1;
       getUTCHours := 0; getUTCMinutes := 0; getUTCSeconds := 0 |} in
  let badMode :=
    {| o_compress := None; o_forceZip64Format := None; o_mode := Some 0x10000;
       o_mtime := None; o_fileComment := None; o_crc32 := None; o_size := None;
       o_compressedSize := None; o_uncompressedSize := None |} in
  let bad := CallAddEmptyDirectory (str "d") badMode now in
  let good := CallAddEmptyDirectory (str "e") noOptions now in
  snd (invoke newArchive bad) = None
  /\ chain (zip (run newArchive [Invoke bad; Advance])) = Rejected ErrInvalidMode
  /\ destroyed (readable (zip (run newArchive [Invoke bad; Advance]))) = true
  /\ snd (invoke (run newArchive [Invoke bad; Advance]) good) = None
  /\ settled (zip (run newArchive [Invoke bad; Advance; Invoke good; Advance])) !! 1%nat
     = Some (SettledEntry (Err ErrInvalidMode))
  /\ output (run newArchive [Invoke bad; Advance; Invoke good; Advance]) = []
  /\ exists entry,
       settled (zip (run newArchive [Invoke good; Advance])) !! 0%nat
       = Some (SettledEntry (Ok entry)).
Proof.
  cbv zeta. repeat split; try (vm_compute; reflexivity).
  eexists. vm_compute. reflexivity.
Qed.

(** ** Finalization *)

Section Finalize.
Context `{Collaborators}.

Lemma writeBuffer_cursor z b :
  outputStreamCursor (writeBuffer z b) = outputStreamCursor z + blen b.
Proof. reflexivity. Qed.

Lemma writeCentralDirectoryRecords_None entries : forall z z',
  writeCentralDirectoryRecords z entries = (z', None) ->
  exists records,
    centralDirectoryRecords entries = Ok records
    /\ outputStreamCursor z' = outputStreamCursor z + totalLength records
    /\ readable z' = pushAll (readable z) records
    /\ offsetOfStartOfCentralDirectory z' = offsetOfStartOfCentralDirectory z
    /\ hasQueue z' = hasQueue z /\ chain z' = chain z /\ settled z' = settled z.
Proof.
  induction entries as [|entry rest IH]; intros z z' Hw; cbn [writeCentralDirectoryRecords] in Hw.
  - injection Hw as <-. exists []. cbn. repeat split; lia.
  - cbn [centralDirectoryRecords].
    destruct (getCentralDirectoryRecord entry) as [record|e]; [|discriminate].
    apply IH in Hw as (records & Hr & Hc & Hp & Ho & Hq & Hch & Hs).
    exists (record :: records). rewrite Hr. cbn [rbind].
    split; [reflexivity|]. rewrite Hc, Hp, Ho, Hq, Hch, Hs.
    cbn [totalLength fold_right]. rewrite writeBuffer_cursor.
    repeat split; try reflexivity. fold (totalLength records). lia.
Qed.

Lemma rbind_never {A B} (r : result A) (k : A -> result B) (v : B) :
  (forall a, k a <> Ok v) -> rbind r k <> Ok v.
Proof. intros Hk. destruct r as [a|e]; [apply Hk|discriminate]. Qed.

Lemma eocdr_never_length record n :
  getEndOfCentralDirectoryRecord record false <> Ok (EocdrLength n).
Proof.
  unfold getEndOfCentralDirectoryRecord. cbv zeta.
  repeat (apply rbind_never; intros ?).
  destruct (negb (needZip64Format record)); [discriminate|].
  repeat (apply rbind_never; intros ?). discriminate.
Qed.

Lemma eocdr_length record bytes :
  getEndOfCentralDirectoryRecord record false = Ok (EocdrBytes bytes) ->
  22 <= blen bytes.
Proof.
  unfold getEndOfCentralDirectoryRecord. cbv zeta. intros Hrec.
  destruct (needZip64Format record); cbn [negb] in Hrec;
    bind_inversion Hrec; subst bytes; bytes_of_writes;
    unfold blen; rewrite ?length_app; cbn [List.length]; lia.
Qed.

(** C6, as the code has it. The record the central-directory task resolves
    with, and [finalize] returns, holds the start offset of the central
    directory (the cursor when the task starts), the number of entries of
    the list the task walks, the force flag and the comment; its
    [outputStreamCursor] is the cursor after the last central directory
    record, before the end-of-central-directory structure. The cursor after
    the task is that value plus the length of the structure, at least 22
    bytes more. *)
Theorem finalize_record (z z' : ZipFile) (entries : list Entry)
    (forceZip64Format : bool) (comment : Buffer) (record : EndRecord) :
  centralDirectoryReaction z entries forceZip64Format comment = (z', Ok record) ->
  r_offsetOfStartOfCentralDirectory record = outputStreamCursor z
  /\ r_entriesCount record = blen entries
  /\ r_forceZip64Format record = forceZip64Format
  /\ r_comment record = comment
  /\ exists records eocdr,
       centralDirectoryRecords entries = Ok records
       /\ getEndOfCentralDirectoryRecord record false = Ok (EocdrBytes eocdr)
       /\ r_outputStreamCursor record = outputStreamCursor z + totalLength records
       /\ outputStreamCursor z' = r_outputStreamCursor record + blen eocdr
       /\ r_outputStreamCursor record + 22 <= outputStreamCursor z'
       /\ readable z' = push (pushAll (readable z) records) eocdr.
Proof.
  unfold centralDirectoryReaction. cbv zeta. intros Hr.
  destruct (writeCentralDirectoryRecords _ entries) as [z1 [e|]] eqn:Hw; [discriminate|].
  apply writeCentralDirectoryRecords_None in Hw as (records & Hrec & Hc & Hp & _).
  cbn [outputStreamCursor withOffsetOfStart readable] in Hc, Hp.
  destruct (getEndOfCentralDirectoryRecord _ false) as [ret|e] eqn:He; [|discriminate].
  injection Hr as <- <-. cbn [r_offsetOfStartOfCentralDirectory r_entriesCount
    r_forceZip64Format r_comment r_outputStreamCursor].
  repeat split.
  destruct ret as [n|eocdr]; [exfalso; exact (eocdr_never_length _ _ He)|].
  exists records, eocdr. cbn [eocdrBuffer].
  pose proof (eocdr_length _ _ He) as Hlen.
  rewrite writeBuffer_cursor. unfold writeBuffer. cbn [readable withReadable].
  rewrite Hp. repeat split; try assumption; lia.
Qed.

End Finalize.

Lemma finalize_record_witness :
  oneEntryFinalization = (fst oneEntryFinalization, Ok oneEntryRecord)
  /\ r_offsetOfStartOfCentralDirectory oneEntryRecord = 40
  /\ r_entriesCount oneEntryRecord = 1
  /\ r_outputStreamCursor oneEntryRecord + 22
     <= outputStreamCursor (fst oneEntryFinalization).
Proof.
  assert (Hr : centralDirectoryReaction
                 (withReadable newZipFile (readable newZipFile) 40)
                 [storedEntry 5] false []
               = (fst oneEntryFinalization, Ok oneEntryRecord)) by reflexivity.
  split; [exact Hr|].
  destruct (finalize_record _ _ _ _ _ _ Hr)
    as (Hstart & Hcount & _ & _ & records & eocdr & _ & _ & _ & _ & Hend & _).
  split; [exact Hstart|]. split; [exact Hcount|exact Hend].
Defined.

(** C6 as stated fails: after one stored five-byte file and [finalize], the
    record returned has [outputStreamCursor] 91, the offset at which the
    end-of-central-directory record starts, while 113 bytes have been
    written and the cursor stands at 113. *)
Lemma finalize_total_excludes_end_record :
  let a :=
    run newArchive
      [Invoke (CallAddBuffer (str "hello") (str "a.txt") storeOptions sampleDate);
       Advance; Resume 0;
       Invoke (CallEnd noEndOptions); Advance; Resume 1] in
  exists record,
    settled (zip a) !! 1%nat = Some (SettledRecord (Ok record))
    /\ r_offsetOfStartOfCentralDirectory record = 40
    /\ r_entriesCount record = 1
    /\ r_outputStreamCursor record = 91
    /\ outputStreamCursor (zip a) = 113
    /\ totalLength (output a) = 113
    /\ ended (readable (zip a)) = true.
Proof.
  cbv zeta. eexists. split; [vm_compute; reflexivity|].
  repeat split; vm_compute; reflexivity.
Qed.

(** ** After finalization *)

Section AfterFinalize.
Context `{Collaborators}.

Lemma keepsEnd_same z z' :
  hasQueue z' = hasQueue z -> ended (readable z') = ended (readable z) ->
  received (readable z') = received (readable z) -> keepsEnd z z'.
Proof.
  intros Hq He Hr. split; [congruence|]. split; [intros Hz; split; congruence|].
  exists []. rewrite app_nil_r. exact Hr.
Qed.

Lemma keepsEnd_refl z : keepsEnd z z.
Proof. apply keepsEnd_same; reflexivity. Qed.

Lemma keepsEnd_trans z1 z2 z3 : keepsEnd z1 z2 -> keepsEnd z2 z3 -> keepsEnd z1 z3.
Proof.
  intros (Hq1 & He1 & [x1 Hx1]) (Hq2 & He2 & [x2 Hx2]). split; [auto|]. split.
  - intros He. destruct (He1 He) as [He' Hr']. destruct (He2 He') as [He'' Hr''].
    split; [exact He''|congruence].
  - exists (x1 ++ x2). rewrite Hx2, Hx1, app_assoc. reflexivity.
Qed.

Lemma push_ended r chunk : ended r = true -> push r chunk = r.
Proof. unfold push. intros ->. reflexivity. Qed.

Lemma pushAll_ended r chunks : ended r = true -> pushAll r chunks = r.
Proof.
  unfold pushAll. induction chunks as [|c rest IH]; intros He; [reflexivity|].
  cbn [fold_left]. rewrite push_ended by exact He. apply IH, He.
Qed.

Lemma push_received r chunk :
  exists extra, received (push r chunk) = received r ++ extra.
Proof.
  unfold push. destruct (ended r || destroyed r).
  - exists []. rewrite app_nil_r. reflexivity.
  - exists [chunk]. reflexivity.
Qed.

Lemma pushAll_received chunks : forall r,
  exists extra, received (pushAll r chunks) = received r ++ extra.
Proof.
  unfold pushAll. induction chunks as [|c rest IH]; intros r; cbn [fold_left].
  - exists []. rewrite app_nil_r. reflexivity.
  - destruct (IH (push r c)) as [x Hx]. destruct (push_received r c) as [y Hy].
    exists (y ++ x). rewrite Hx, Hy, app_assoc. reflexivity.
Qed.

Lemma keepsEnd_writeBuffer z b : keepsEnd z (writeBuffer z b).
Proof.
  split; [auto|]. unfold writeBuffer. cbn [readable withReadable]. split.
  - intros He. rewrite push_ended by exact He. auto.
  - apply push_received.
Qed.

Lemma keepsEnd_pushAll z outs cursor :
  keepsEnd z (withReadable z (pushAll (readable z) outs) cursor).
Proof.
  split; [auto|]. cbn [readable withReadable]. split.
  - intros He. rewrite pushAll_ended by exact He. auto.
  - apply pushAll_received.
Qed.

Lemma keepsEnd_withReadable_same z cursor : keepsEnd z (withReadable z (readable z) cursor).
Proof. apply keepsEnd_same; reflexivity. Qed.

Lemma keepsEnd_withChain z c : keepsEnd z (withChain z c).
Proof. apply keepsEnd_same; reflexivity. Qed.

Lemma keepsEnd_withSettled z id v : keepsEnd z (withSettled z id v).
Proof. apply keepsEnd_same; reflexivity. Qed.

Lemma keepsEnd_withOffsetOfStart z o : keepsEnd z (withOffsetOfStart z o).
Proof. apply keepsEnd_same; reflexivity. Qed.

Lemma keepsEnd_reject z id e : keepsEnd z (reject z id e).
Proof. apply keepsEnd_same; apply reject_fields. Qed.

Lemma keepsEnd_lowlevelEnd z : keepsEnd z (lowlevelEnd z).
Proof.
  split; [auto|]. split; [auto|]. exists []. rewrite app_nil_r. reflexivity.
Qed.

Lemma keepsEnd_afterWrite z id entry cursor : keepsEnd z (afterWrite z id entry cursor).
Proof.
  unfold afterWrite. destruct (checkCompressedSize _ _); [|apply keepsEnd_reject].
  destruct (getDataDescriptor _); [|apply keepsEnd_reject].
  eapply keepsEnd_trans; [apply keepsEnd_writeBuffer|].
  eapply keepsEnd_trans; [apply keepsEnd_withChain|apply keepsEnd_withSettled].
Qed.

Lemma keepsEnd_startEntry z id t : keepsEnd z (startEntry z id t).
Proof.
  unfold startEntry. destruct (callback t) as [[entry write]|e]; [|apply keepsEnd_reject].
  destruct (getLocalFileHeader _) as [header|e]; [|apply keepsEnd_reject].
  eapply keepsEnd_trans; [apply keepsEnd_writeBuffer|].
  destruct write.
  - apply keepsEnd_withChain.
  - eapply keepsEnd_trans; [apply keepsEnd_writeBuffer|apply keepsEnd_afterWrite].
  - apply keepsEnd_afterWrite.
Qed.

Lemma keepsEnd_advanceStream z run : keepsEnd z (advanceStream z run).
Proof.
  unfold advanceStream. destruct (rs_chunks (run_source run)) as [|chunk rest].
  - destruct (rs_end (run_source run)); [|apply keepsEnd_refl].
    unfold streamEnd. cbv zeta.
    eapply keepsEnd_trans; [apply keepsEnd_pushAll|].
    destruct (onEnd _ _ _); [apply keepsEnd_withChain|].
    eapply keepsEnd_trans; [apply keepsEnd_withReadable_same|apply keepsEnd_afterWrite].
  - unfold streamChunk. cbv zeta. destruct (compressChunk _ _ _) as [d outs].
    eapply keepsEnd_trans; [apply keepsEnd_pushAll|].
    apply keepsEnd_withChain.
Qed.

Lemma keepsEnd_records entries : forall z,
  keepsEnd z (fst (writeCentralDirectoryRecords z entries)).
Proof.
  induction entries as [|entry rest IH]; intros z; cbn [writeCentralDirectoryRecords].
  - apply keepsEnd_refl.
  - destruct (getCentralDirectoryRecord entry); [|apply keepsEnd_refl].
    eapply keepsEnd_trans; [apply keepsEnd_writeBuffer|apply IH].
Qed.

Lemma keepsEnd_centralDirectoryTask z id entries force comment :
  keepsEnd z (centralDirectoryTask z id entries force comment).
Proof.
  unfold centralDirectoryTask, centralDirectoryReaction. cbv zeta.
  pose proof (keepsEnd_records entries (withOffsetOfStart z (outputStreamCursor z))) as Hr.
  destruct (writeCentralDirectoryRecords _ entries) as [z1 [e|]]; cbn [fst] in Hr.
  - eapply keepsEnd_trans; [apply keepsEnd_withOffsetOfStart|].
    eapply keepsEnd_trans; [exact Hr|apply keepsEnd_withSettled].
  - destruct (getEndOfCentralDirectoryRecord _ false).
    + eapply keepsEnd_trans; [apply keepsEnd_withOffsetOfStart|].
      eapply keepsEnd_trans; [exact Hr|].
      eapply keepsEnd_trans; [apply keepsEnd_writeBuffer|apply keepsEnd_withSettled].
    + eapply keepsEnd_trans; [apply keepsEnd_withOffsetOfStart|].
      eapply keepsEnd_trans; [exact Hr|apply keepsEnd_withSettled].
Qed.

Lemma keepsEnd_advance heap l : keepsEnd (self l) (self (advance heap l)).
Proof.
  unfold advance. destruct (chain (self l)) as [|run|e|e].
  - destruct (pending l) as [|p rest]; [apply keepsEnd_refl|].
    destruct (negb (p_prepared p)); [apply keepsEnd_refl|]. cbn [self].
    unfold react. destruct (p_task p);
      first [apply keepsEnd_startEntry|apply keepsEnd_centralDirectoryTask].
  - apply keepsEnd_advanceStream.
  - destruct (pending l) as [|p rest]; [apply keepsEnd_refl|apply keepsEnd_withSettled].
  - apply keepsEnd_refl.
Qed.

Lemma keepsEnd_step a ev : keepsEnd (zip a) (zip (step a ev)).
Proof.
  destruct ev as [c|id| |id]; cbn [step].
  - destruct (snd (invoke a c)) as [e|] eqn:Hs.
    + rewrite (invoke_failed_unchanged a c e Hs). apply keepsEnd_refl.
    + destruct c; cbn [invoke]; unfold zip;
        cbn [fst withLowLevel lowlevel removeEntry];
        try apply keepsEnd_refl.
      * unfold addFile. destruct (validateMetadataPath _ _); [|apply keepsEnd_refl].
        unfold addEntry. destruct (negb _); apply keepsEnd_refl.
      * unfold addReadStream. destruct (validateMetadataPath _ _); [|apply keepsEnd_refl].
        destruct (FileEntry_new _ _ _); [|apply keepsEnd_refl].
        unfold addEntry. destruct (negb _); apply keepsEnd_refl.
      * unfold addBuffer. destruct (validateMetadataPath _ _); [|apply keepsEnd_refl].
        destruct (blen buffer >? 1073741823); [apply keepsEnd_refl|].
        unfold addEntry. destruct (negb _); apply keepsEnd_refl.
      * unfold addEmptyDirectory. destruct (validateMetadataPath _ _); [|apply keepsEnd_refl].
        unfold addEntry. destruct (negb _); apply keepsEnd_refl.
      * unfold addCentralDirectoryRecord. destruct (negb _); [apply keepsEnd_refl|].
        destruct (archiveComment options); apply keepsEnd_refl.
  - apply keepsEnd_refl.
  - apply keepsEnd_advance.
  - unfold resume. destruct (bool_decide _); [apply keepsEnd_refl|].
    destruct (settled (zip a) !! id) as [[[entry|e]|[record|e]]|];
      try apply keepsEnd_refl.
    apply keepsEnd_lowlevelEnd.
Qed.

Lemma keepsEnd_run events : forall a, keepsEnd (zip a) (zip (run a events)).
Proof.
  induction events as [|ev rest IH]; intros a; [apply keepsEnd_refl|].
  cbn [run fold_left]. eapply keepsEnd_trans; [apply keepsEnd_step|apply IH].
Qed.

(** C8, as the code has it. Once finalization has completed, every add
    operation and every [finalize] fails at call time and changes nothing;
    the error is the state error whenever the checks the operation makes at
    call time pass (a bad path, an oversized buffer or, for a read-stream
    add, a bad entry is reported first), and always for [finalize]; whatever
    happens afterwards, the archive stays finalized and the output receives
    no further chunk. *)
Theorem after_finalize (a : Archive) :
  finalized a ->
  (forall c, isAddOrEnd c -> exists e, invoke a c = (a, Some e))
  /\ (forall c, passesCallTimeChecks c -> invoke a c = (a, Some ErrFinalized))
  /\ (forall events, finalized (run a events) /\ output (run a events) = output a).
Proof.
  intros [Hq He].
  assert (Hadd : forall prepared t,
             withLowLevel a (addEntry (lowlevel a) prepared t) = (a, Some ErrFinalized)).
  { intros prepared t. unfold addEntry. unfold zip in Hq. rewrite Hq. cbn [negb].
    apply withLowLevel_failed. }
  assert (Hvalid : forall c, passesCallTimeChecks c -> invoke a c = (a, Some ErrFinalized)).
  { intros c Hc. destruct c; cbn [invoke passesCallTimeChecks] in *.
    - destruct Hc as [stored Hv]. unfold addFile. rewrite Hv. apply Hadd.
    - destruct Hc as (stored & entry & Hv & Hentry). unfold addReadStream. rewrite Hv.
      fold (readStreamOptions options). rewrite Hentry. apply Hadd.
    - destruct Hc as [[stored Hv] Hlen]. unfold addBuffer. rewrite Hv.
      destruct (Z.gtb_spec (blen buffer) 1073741823); [exfalso; lia|]. apply Hadd.
    - destruct Hc as [stored Hv]. unfold addEmptyDirectory. rewrite Hv. apply Hadd.
    - destruct Hc.
    - unfold addCentralDirectoryRecord. unfold zip in Hq. rewrite Hq. cbn [negb].
      apply withLowLevel_failed. }
  split; [|split; [exact Hvalid|]].
  - intros c Hc. destruct c; cbn [isAddOrEnd] in Hc; try destruct Hc.
    + cbn [invoke]. unfold addFile. destruct (validateMetadataPath _ _) as [stored|e].
      * exists ErrFinalized. apply Hadd.
      * exists e. apply withLowLevel_failed.
    + cbn [invoke]. unfold addReadStream. destruct (validateMetadataPath _ _) as [stored|e].
      * destruct (FileEntry_new _ _ _) as [entry|e].
        -- exists ErrFinalized. apply Hadd.
        -- exists e. apply withLowLevel_failed.
      * exists e. apply withLowLevel_failed.
    + cbn [invoke]. unfold addBuffer. destruct (validateMetadataPath _ _) as [stored|e].
      * destruct (blen buffer >? 1073741823).
        -- eexists. apply withLowLevel_failed.
        -- exists ErrFinalized. apply Hadd.
      * exists e. apply withLowLevel_failed.
    + cbn [invoke]. unfold addEmptyDirectory. destruct (validateMetadataPath _ _) as [stored|e].
      * exists ErrFinalized. apply Hadd.
      * exists e. apply withLowLevel_failed.
    + exists ErrFinalized. apply Hvalid. exact I.
  - intros events. destruct (keepsEnd_run events a) as (Hq' & He' & _).
    destruct (He' He) as [Hended Hreceived].
    split; [split; [apply Hq', Hq|exact Hended]|exact Hreceived].
Qed.

End AfterFinalize.

Lemma after_finalize_witness :
  finalized finalizedArchive
  /\ snd (invoke finalizedArchive (CallAddEmptyDirectory (str "d") noOptions sampleDate))
     = Some ErrFinalized
  /\ snd (invoke finalizedArchive (CallEnd noEndOptions)) = Some ErrFinalized
  /\ output (run finalizedArchive
               [Invoke (CallAddBuffer (str "hello") (str "a.txt") storeOptions sampleDate);
                Advance; Advance])
     = output finalizedArchive.
Proof.
  assert (Hf : finalized finalizedArchive) by (split; reflexivity).
  destruct (after_finalize finalizedArchive Hf) as (_ & Hvalid & Hquiet).
  split; [exact Hf|]. split; [|split].
  - rewrite Hvalid; [reflexivity|]. cbn. eexists. reflexivity.
  - rewrite Hvalid; [reflexivity|]. exact I.
  - apply Hquiet.
Defined.

(** C8 as stated fails on the kind of error: on a finalized archive an add
    with an empty path fails at once, with the path error and not with the
    state error. *)
Lemma add_after_finalize_reports_path_error :
  hasQueue (zip finalizedArchive) = false
  /\ ended (readable (zip finalizedArchive)) = true
  /\ snd (invoke finalizedArchive (CallAddEmptyDirectory [] noOptions sampleDate))
     = Some ErrEmptyPath
  /\ ErrEmptyPath <> ErrFinalized.
Proof. repeat split; try reflexivity. discriminate. Qed.

(** ** The payload pipeline *)

Section Payload.
Context `{Collaborators}.

Lemma totalLength_app xs ys : totalLength (xs ++ ys) = totalLength xs + totalLength ys.
Proof.
  unfold totalLength.
  induction xs as [|x xs IH]; cbn [fold_right app]; [reflexivity|].
  rewrite IH. lia.
Qed.

Lemma pushAll_app r xs ys : pushAll r (xs ++ ys) = pushAll (pushAll r xs) ys.
Proof. unfold pushAll. apply fold_left_app. Qed.

Lemma pushAll_open r chunks :
  ended r = false -> destroyed r = false ->
  pushAll r chunks
  = {| received := received r ++ chunks; ended := false; destroyed := false |}.
Proof.
  revert r. induction chunks as [|c rest IH]; intros r He Hd.
  - cbn. rewrite app_nil_r. destruct r; cbn in *; congruence.
  - unfold pushAll. cbn [fold_left]. fold (pushAll (push r c) rest).
    assert (Hp : push r c = {| received := received r ++ [c]; ended := false;
                               destroyed := false |}).
    { unfold push. rewrite He, Hd. reflexivity. }
    rewrite Hp, IH by reflexivity. cbn [received]. rewrite <- app_assoc. reflexivity.
Qed.

Lemma push_open r chunk :
  ended r = false -> destroyed r = false ->
  push r chunk = {| received := received r ++ [chunk]; ended := false; destroyed := false |}.
Proof. intros He Hd. unfold push. rewrite He, Hd. reflexivity. Qed.

Lemma writeBuffer_open z b :
  ended (readable z) = false -> destroyed (readable z) = false ->
  writeBuffer z b
  = withReadable z
      {| received := received (readable z) ++ [b]; ended := false; destroyed := false |}
      (outputStreamCursor z + blen b).
Proof. intros He Hd. unfold writeBuffer. rewrite push_open by assumption. reflexivity. Qed.

(** [n] steps of the chain, as events. *)
Lemma run_advances n : forall a,
  run a (repeat Advance n)
  = {| lowlevel := drain n (arrays a) (lowlevel a); arrays := arrays a;
       resumed := resumed a |}.
Proof.
  induction n as [|n IH]; intros a; [destruct a; reflexivity|].
  cbn [repeat run fold_left]. fold (run (step a Advance) (repeat Advance n)).
  rewrite IH. reflexivity.
Qed.

Lemma step_advance_streaming a r :
  chain (zip a) = Streaming r ->
  step a Advance = withSelf a (advanceStream (zip a) r).
Proof.
  intros Hc. cbn [step]. unfold advance, zip in *. rewrite Hc. reflexivity.
Qed.

Lemma zip_withSelf a z : zip (withSelf a z) = z.
Proof. reflexivity. Qed.

Lemma withSelf_withSelf a z z' : withSelf (withSelf a z) z' = withSelf a z'.
Proof. reflexivity. Qed.

(** The chunks of the source go through, one step each. *)
Lemma stream_chunks chunks : forall a id entry cursor crc counted forwarded d ending,
  chain (zip a)
  = Streaming {| run_id := id; run_entry := entry; run_cursor := cursor;
                 run_source := {| rs_chunks := chunks; rs_end := ending |};
                 run_crc32 := crc; run_uncompressedSize := counted;
                 run_compressedSize := forwarded; run_deflate := d |} ->
  run a (repeat Advance (List.length chunks))
  = withSelf a
      (withChain
         (withReadable (zip a)
            (pushAll (readable (zip a)) (snd (compressChunks entry d chunks)))
            (outputStreamCursor (zip a)))
         (Streaming
            {| run_id := id; run_entry := entry; run_cursor := cursor;
               run_source := {| rs_chunks := []; rs_end := ending |};
               run_crc32 := crcOfChunks crc chunks;
               run_uncompressedSize := counted + totalLength chunks;
               run_compressedSize :=
                 forwarded + totalLength (snd (compressChunks entry d chunks));
               run_deflate := fst (compressChunks entry d chunks) |})).
Proof.
  induction chunks as [|chunk rest IH]; intros a id entry cursor crc counted forwarded d ending Hc.
  - cbn [List.length repeat run fold_left compressChunks snd fst pushAll crcOfChunks
         totalLength fold_right].
    rewrite !Z.add_0_r. rewrite <- Hc.
    destruct a as [[[q c o r ch s] p n] arr res]. reflexivity.
  - cbn [List.length repeat run fold_left].
    rewrite (step_advance_streaming a _ Hc).
    unfold advanceStream. cbn [run_source rs_chunks].
    unfold streamChunk. cbn [run_entry run_deflate run_crc32 run_uncompressedSize
      run_compressedSize run_id run_cursor run_source rs_end].
    cbn [compressChunks].
    destruct (compressChunk entry d chunk) as [d1 outs] eqn:Hchunk.
    destruct (compressChunks entry d1 rest) as [d2 outs'] eqn:Hrest.
    fold (run (withSelf a
      (withChain (withReadable (zip a) (pushAll (readable (zip a)) outs)
                               (outputStreamCursor (zip a)))
         (Streaming
            {| run_id := id; run_entry := entry; run_cursor := cursor;
               run_source := {| rs_chunks := rest; rs_end := ending |};
               run_crc32 := crc32Unsigned chunk crc;
               run_uncompressedSize := counted + blen chunk;
               run_compressedSize := forwarded + totalLength outs;
               run_deflate := d1 |}))) (repeat Advance (List.length rest))).
    erewrite IH by reflexivity.
    rewrite Hrest. cbn [fst snd zip_withSelf].
    rewrite withSelf_withSelf, zip_withSelf.
    cbn [readable withChain withReadable outputStreamCursor crcOfChunks fold_left
         totalLength fold_right].
    fold (totalLength rest). rewrite pushAll_app, totalLength_app.
    fold (crcOfChunks (crc32Unsigned chunk crc) rest).
    rewrite !Z.add_assoc. reflexivity.
Qed.

Lemma checkCompressedSize_cases entry forwarded :
  (forall declared, compressedSize entry = Some declared -> declared <> forwarded ->
     checkCompressedSize entry forwarded = Err ErrUnexpectedCompressedSize)
  /\ (compressedSize entry = None \/ compressedSize entry = Some forwarded ->
      exists sealed,
        checkCompressedSize entry forwarded = Ok sealed
        /\ compressedSize sealed = Some forwarded
        /\ uncompressedSize sealed = uncompressedSize entry
        /\ crc32 sealed = crc32 entry).
Proof.
  unfold checkCompressedSize. split.
  - intros declared -> Hne. destruct (Z.eqb_spec forwarded declared); [congruence|reflexivity].
  - intros [Hn | Hs].
    + rewrite Hn. eexists. split; [reflexivity|]. repeat split; reflexivity.
    + rewrite Hs, Z.eqb_refl. eexists. split; [reflexivity|]. repeat split; auto.
Qed.

Lemma onEnd_cases entry crc counted :
  (forall declared, uncompressedSize entry = Some declared -> declared <> counted ->
     onEnd entry crc counted = inl ErrUnexpectedByteCount)
  /\ (uncompressedSize entry = None \/ uncompressedSize entry = Some counted ->
      exists sealed,
        onEnd entry crc counted = inr sealed
        /\ uncompressedSize sealed = Some counted
        /\ crc32 sealed = Some crc
        /\ compressedSize sealed = compressedSize entry).
Proof.
  unfold onEnd. cbn [uncompressedSize setCrc32]. split.
  - intros declared -> Hne. destruct (Z.eqb_spec declared counted); [congruence|reflexivity].
  - intros [Hn | Hs].
    + rewrite Hn. eexists. split; [reflexivity|]. repeat split; reflexivity.
    + rewrite Hs, Z.eqb_refl. eexists. split; [reflexivity|].
      repeat split; try reflexivity. exact Hs.
Qed.

(** C5, as the code has it. When the source of an entry has emitted [chunks]
    and ended: the count of the second transform is the number of bytes of
    [chunks], the count of the fourth the number of bytes forwarded to the
    output. A declared [uncompressedSize] that differs from the first makes
    the ['end'] listener throw 'file data stream has unexpected number of
    bytes': nothing catches it, and no operation settles;
    otherwise [uncompressedSize] is that count. A declared [compressedSize]
    that differs from the bytes forwarded between the local header and the
    data descriptor rejects the operation with 'Unexpected compressed size';
    otherwise [compressedSize] is that count. In the buffer path the
    declared [compressedSize] is the length of the buffer that is forwarded. *)
Theorem payload_completion (a : Archive) (id : nat) (entry : Entry) (chunks : list Buffer) :
  chain (zip a)
  = Streaming {| run_id := id; run_entry := entry;
                 run_cursor := outputStreamCursor (zip a);
                 run_source := {| rs_chunks := chunks; rs_end := EmitsEnd |};
                 run_crc32 := 0; run_uncompressedSize := 0;
                 run_compressedSize := 0; run_deflate := deflateInit |} ->
  let a' := run a (repeat Advance (S (List.length chunks))) in
  let counted := totalLength chunks in
  let sent := forwardedChunks entry chunks in
  let forwarded := totalLength sent in
  (forall declared, uncompressedSize entry = Some declared -> declared <> counted ->
     chain (zip a') = Uncaught ErrUnexpectedByteCount
     /\ settled (zip a') = settled (zip a)
     /\ readable (zip a') = pushAll (readable (zip a)) sent)
  /\ (uncompressedSize entry = None \/ uncompressedSize entry = Some counted ->
      (forall declared, compressedSize entry = Some declared -> declared <> forwarded ->
         chain (zip a') = Rejected ErrUnexpectedCompressedSize
         /\ settled (zip a') !! id = Some (SettledEntry (Err ErrUnexpectedCompressedSize))
         /\ received (readable (zip a')) = received (pushAll (readable (zip a)) sent))
      /\ (compressedSize entry = None \/ compressedSize entry = Some forwarded ->
          exists sealed,
            uncompressedSize sealed = Some counted
            /\ compressedSize sealed = Some forwarded
            /\ crc32 sealed = Some (crcOfChunks 0 chunks)
            /\ ((exists descriptor,
                   getDataDescriptor sealed = Ok descriptor
                   /\ settled (zip a') !! id = Some (SettledEntry (Ok sealed))
                   /\ chain (zip a') = Fulfilled
                   /\ outputStreamCursor (zip a')
                      = outputStreamCursor (zip a) + forwarded + blen descriptor
                   /\ readable (zip a')
                      = push (pushAll (readable (zip a)) sent) descriptor)
                \/ (exists e,
                      getDataDescriptor sealed = Err e
                      /\ settled (zip a') !! id = Some (SettledEntry (Err e))
                      /\ chain (zip a') = Rejected e))))
  /\ (forall metadataPath options compress crc size buffer now sealed write,
      callback (TaskAddBuffer metadataPath options compress crc size (Ok buffer) now)
      = Ok (sealed, write) ->
      write = WriteBuffer buffer
      /\ compressedSize sealed = Some (blen buffer)
      /\ checkCompressedSize sealed (blen buffer) = Ok sealed).
Proof.
  intros Hc a' counted sent forwarded.
  assert (Ha' : a' = withSelf a
    (streamEnd
       (withChain
          (withReadable (zip a)
             (pushAll (readable (zip a)) (snd (compressChunks entry deflateInit chunks)))
             (outputStreamCursor (zip a)))
          (Streaming
             {| run_id := id; run_entry := entry;
                run_cursor := outputStreamCursor (zip a);
                run_source := {| rs_chunks := []; rs_end := EmitsEnd |};
                run_crc32 := crcOfChunks 0 chunks;
                run_uncompressedSize := 0 + totalLength chunks;
                run_compressedSize :=
                  0 + totalLength (snd (compressChunks entry deflateInit chunks));
                run_deflate := fst (compressChunks entry deflateInit chunks) |}))
       {| run_id := id; run_entry := entry;
          run_cursor := outputStreamCursor (zip a);
          run_source := {| rs_chunks := []; rs_end := EmitsEnd |};
          run_crc32 := crcOfChunks 0 chunks;
          run_uncompressedSize := 0 + totalLength chunks;
          run_compressedSize :=
            0 + totalLength (snd (compressChunks entry deflateInit chunks));
          run_deflate := fst (compressChunks entry deflateInit chunks) |})).
  { subst a'. replace (S (List.length chunks)) with (List.length chunks + 1)%nat by lia.
    rewrite repeat_app. unfold run. rewrite fold_left_app. fold (run a (repeat Advance (List.length chunks))).
    rewrite (stream_chunks chunks a _ _ _ _ _ _ _ _ Hc).
    cbn [repeat fold_left]. erewrite step_advance_streaming by reflexivity.
    rewrite withSelf_withSelf. reflexivity. }
  assert (Hsent : sent = snd (compressChunks entry deflateInit chunks)
                         ++ compressFlush entry (fst (compressChunks entry deflateInit chunks))).
  { subst sent. unfold forwardedChunks.
    destruct (compressChunks entry deflateInit chunks). reflexivity. }
  assert (Hforwarded : 0 + totalLength (snd (compressChunks entry deflateInit chunks))
                       + totalLength (compressFlush entry
                                        (fst (compressChunks entry deflateInit chunks)))
                       = forwarded).
  { subst forwarded. rewrite Hsent, totalLength_app. lia. }
  rewrite Ha'. rewrite zip_withSelf. unfold streamEnd.
  cbn [run_entry run_deflate run_compressedSize run_crc32 run_uncompressedSize run_id
       run_cursor readable withReadable withChain outputStreamCursor].
  rewrite <- pushAll_app, <- Hsent, Hforwarded. rewrite Z.add_0_l. fold counted.
  destruct (onEnd_cases entry (crcOfChunks 0 chunks) counted) as [Hbad Hgood].
  split; [|split].
  - intros declared Hd Hne. rewrite (Hbad declared Hd Hne).
    cbn [chain settled readable withChain withReadable]. auto.
  - intros Hu. destruct (Hgood Hu) as (sealed1 & -> & Hu1 & Hcrc1 & Hc1).
    unfold afterWrite. cbn [outputStreamCursor withReadable].
    replace (outputStreamCursor (zip a) + forwarded - outputStreamCursor (zip a))
      with forwarded by lia.
    destruct (checkCompressedSize_cases sealed1 forwarded) as [Hcbad Hcgood].
    split.
    + intros declared Hd Hne. rewrite Hc1 in Hcbad. rewrite (Hcbad declared Hd Hne).
      unfold reject, emitError.
      destruct errorListener;
        cbn [chain settled readable withSettled withChain withReadable received destroy];
        rewrite lookup_insert_eq; auto.
    + intros Hcs. rewrite Hc1 in Hcgood.
      destruct (Hcgood Hcs) as (sealed & -> & Hcs2 & Hu2 & Hcrc2).
      exists sealed. rewrite Hu2, Hcrc2. repeat (split; [assumption|]).
      destruct (getDataDescriptor sealed) as [descriptor|e].
      * left. exists descriptor. split; [reflexivity|].
        unfold writeBuffer.
        cbn [chain settled readable withSettled withChain withReadable outputStreamCursor].
        rewrite lookup_insert_eq. auto.
      * right. exists e. split; [reflexivity|].
        unfold reject, emitError.
        destruct errorListener; cbn [chain settled withSettled withChain withReadable];
          rewrite lookup_insert_eq; auto.
  - intros metadataPath options compress crc size buffer now sealed write Hcb.
    cbn [callback rbind] in Hcb.
    destruct (FileEntry_new _ _ _) as [entry'|e] eqn:He; [|discriminate].
    cbn [rbind] in Hcb. injection Hcb as <- <-.
    assert (Hsize : compressedSize entry' = Some (blen buffer)).
    { revert He. unfold FileEntry_new, Entry_new.
      repeat match goal with
             | |- context [if ?b then _ else _] => destruct b; try discriminate
             | |- context [match ?x with _ => _ end] => destruct x; try discriminate
             end; intros [= <-]; reflexivity. }
    split; [reflexivity|]. split; [exact Hsize|].
    unfold checkCompressedSize. rewrite Hsize, Z.eqb_refl. reflexivity.
Qed.

End Payload.

Lemma payload_completion_witness :
  (uncompressedSize declaredEntry = Some 4
   /\ chain (zip (run (streamingArchive (Some 4))
                    (repeat Advance (S (List.length (rs_chunks helloStream))))))
      = Uncaught ErrUnexpectedByteCount)
  /\ (uncompressedSize undeclaredEntry = None
      /\ exists sealed,
           uncompressedSize sealed = Some (totalLength (rs_chunks helloStream))
           /\ compressedSize sealed
              = Some (totalLength (forwardedChunks undeclaredEntry (rs_chunks helloStream)))).
Proof.
  split.
  - split; [reflexivity|].
    destruct (payload_completion (streamingArchive (Some 4)) 0
                declaredEntry (rs_chunks helloStream) eq_refl)
      as (Hbad & _).
    apply (Hbad 4); [reflexivity|vm_compute; discriminate].
  - split; [reflexivity|].
    destruct (payload_completion (streamingArchive None) 0
                undeclaredEntry (rs_chunks helloStream) eq_refl)
      as (_ & Hok & _).
    destruct Hok as [_ Hsealed]; [left; reflexivity|].
    destruct Hsealed as (sealed & Hu & Hc & _); [left; reflexivity|].
    exists sealed. split; [exact Hu|exact Hc].
Defined.

Example stream_size_mismatch_never_settles :
  settled (zip (run (streamingArchive (Some 4)) (repeat Advance 3))) !! 0%nat = None
  /\ output (run (streamingArchive (Some 4)) (repeat Advance 3))
     = output (streamingArchive (Some 4)) ++ [str "hel"; str "lo"].
Proof. split; vm_compute; reflexivity. Qed.

Example stream_sizes_recorded :
  exists sealed,
    settled (zip (run (streamingArchive None) (repeat Advance 3))) !! 0%nat
    = Some (SettledEntry (Ok sealed))
    /\ uncompressedSize sealed = Some 5
    /\ compressedSize sealed = Some 5
    /\ crc32 sealed = Some 0x3610A686.
Proof. eexists. split; [vm_compute; reflexivity|]. repeat split; reflexivity. Qed.

(** The same stream with [options.compressedSize] four: the operation is
    rejected, the archive emits the error to its listener and is destroyed. With
    [options.size] four nothing of the kind happens: the operation stays
    pending, the archive is not destroyed, and an entry added after it is
    never written. *)
Example size_mismatches_compared :
  let declared size compressedSize :=
    CallAddReadStream helloStream (str "a.txt")
      {| o_compress := Some false; o_forceZip64Format := None;
         o_mode := None; o_mtime := None; o_fileComment := None;
         o_crc32 := None; o_size := size; o_compressedSize := compressedSize;
         o_uncompressedSize := None |}
      sampleDate in
  let later := CallAddEmptyDirectory (str "d") noOptions sampleDate in
  let history c := run newArchive ([Invoke c; Invoke later] ++ repeat Advance 8) in
  (settled (zip (history (declared None (Some 4)))) !! 0%nat
   = Some (SettledEntry (Err ErrUnexpectedCompressedSize))
   /\ settled (zip (history (declared None (Some 4)))) !! 1%nat
      = Some (SettledEntry (Err ErrUnexpectedCompressedSize))
   /\ destroyed (readable (zip (history (declared None (Some 4))))) = true)
  /\ (settled (zip (history (declared (Some 4) None))) !! 0%nat = None
      /\ settled (zip (history (declared (Some 4) None))) !! 1%nat = None
      /\ destroyed (readable (zip (history (declared (Some 4) None)))) = false
      /\ List.length (output (history (declared (Some 4) None))) = 3%nat).
Proof. cbv zeta. repeat split; vm_compute; reflexivity. Qed.

(** ** The order of the output *)

Section CallOrder.
Context `{Collaborators}.

(** *** Running the chain to rest *)

Lemma advance_idle heap l : busy l = false -> advance heap l = l.
Proof.
  unfold busy, advance. destruct (chain (self l)) as [|r|e|e] eqn:Hc.
  - destruct (pending l) as [|p rest]; [reflexivity|]. intros ->. reflexivity.
  - unfold advanceStream. destruct (rs_chunks (run_source r)); [|discriminate].
    destruct (rs_end (run_source r)); [discriminate|]. intros _. destruct l; reflexivity.
  - destruct (pending l); [reflexivity|discriminate].
  - reflexivity.
Qed.

Lemma chain_afterWrite z id entry cursor :
  chainFuel (chain (afterWrite z id entry cursor)) = 0%nat.
Proof.
  unfold afterWrite. destruct (checkCompressedSize _ _); [|reflexivity].
  destruct (getDataDescriptor _); reflexivity.
Qed.

Lemma callback_stream t entry readStream :
  callback t = Ok (entry, WriteStream readStream) ->
  taskFuel t = (2 + List.length (rs_chunks readStream))%nat.
Proof.
  destruct t; cbn [callback taskFuel].
  - intros Hc. bind_inversion Hc.
    destruct (negb (st_isFile _)); [discriminate|].
    bind_inversion Hc. congruence.
  - intros [= _ <-]. reflexivity.
  - intros Hc. bind_inversion Hc. discriminate.
  - intros Hc. bind_inversion Hc. discriminate.
  - discriminate.
Qed.

Lemma chainFuel_startEntry z id t :
  (chainFuel (chain (startEntry z id t)) < taskFuel t)%nat.
Proof.
  assert (Hpos : (0 < taskFuel t)%nat) by (destruct t; cbn; lia).
  unfold startEntry. destruct (callback t) as [[entry write]|e] eqn:Hc; [|exact Hpos].
  destruct (getLocalFileHeader _); [|exact Hpos].
  destruct write as [readStream|buffer|].
  - rewrite (callback_stream t entry readStream Hc). cbn. lia.
  - rewrite chain_afterWrite. exact Hpos.
  - rewrite chain_afterWrite. exact Hpos.
Qed.

Lemma chain_records entries : forall z,
  chain (fst (writeCentralDirectoryRecords z entries)) = chain z.
Proof.
  induction entries as [|entry rest IH]; intros z; cbn [writeCentralDirectoryRecords];
    [reflexivity|].
  destruct (getCentralDirectoryRecord entry); [|reflexivity]. rewrite IH. reflexivity.
Qed.

Lemma chain_centralDirectoryTask z id entries force comment :
  chain (centralDirectoryTask z id entries force comment) = chain z.
Proof.
  unfold centralDirectoryTask, centralDirectoryReaction. cbv zeta.
  pose proof (chain_records entries (withOffsetOfStart z (outputStreamCursor z))) as Hr.
  destruct (writeCentralDirectoryRecords _ entries) as [z1 [e|]]; cbn [fst] in Hr.
  - exact Hr.
  - destruct (getEndOfCentralDirectoryRecord _ false); exact Hr.
Qed.

Lemma advance_busy heap l : busy l = true -> (fuel (advance heap l) < fuel l)%nat.
Proof.
  unfold busy, advance, fuel. destruct (chain (self l)) as [|r|e|e] eqn:Hc.
  - destruct (pending l) as [|p rest]; [discriminate|]. intros ->. cbn [negb self pending].
    cbn [List.map list_sum fold_right]. fold (list_sum (List.map (fun p => taskFuel (p_task p)) rest)).
    unfold react. destruct (p_task p) eqn:Ht;
      try (pose proof (chainFuel_startEntry (self l) (p_id p) (p_task p)) as Hs;
           rewrite Ht in Hs; cbn [chainFuel] in *; lia).
    rewrite chain_centralDirectoryTask, Hc. cbn. lia.
  - cbn [self pending]. unfold advanceStream.
    destruct (rs_chunks (run_source r)) as [|chunk rest] eqn:Hchunks.
    + destruct (rs_end (run_source r)); [|discriminate]. intros _.
      unfold streamEnd. cbv zeta. destruct (onEnd _ _ _).
      * cbn. rewrite Hchunks. cbn. lia.
      * rewrite chain_afterWrite. cbn. lia.
    + intros _. unfold streamChunk. cbv zeta. destruct (compressChunk _ _ _).
      cbn. rewrite Hchunks. cbn. lia.
  - destruct (pending l) as [|p rest]; [discriminate|]. intros _.
    cbn [self pending chain withSettled chainFuel List.map list_sum fold_right].
    rewrite Hc. cbn [chainFuel].
    assert (0 < taskFuel (p_task p))%nat by (destruct (p_task p); cbn; lia). lia.
  - discriminate.
Qed.

Lemma drain_idle heap n : forall l, busy l = false -> drain n heap l = l.
Proof.
  induction n as [|n IH]; intros l Hb; [reflexivity|].
  cbn [drain]. rewrite advance_idle by exact Hb. apply IH, Hb.
Qed.

Lemma drain_add heap n m : forall l,
  drain (n + m) heap l = drain m heap (drain n heap l).
Proof.
  induction n as [|n IH]; intros l; [reflexivity|]. cbn [drain Nat.add]. apply IH.
Qed.

(** With enough steps the chain comes to rest. *)
Lemma drain_rest heap n : forall l, (fuel l <= n)%nat -> busy (drain n heap l) = false.
Proof.
  induction n as [|n IH]; intros l Hf.
  - cbn [drain]. destruct (busy l) eqn:Hb; [|reflexivity].
    pose proof (advance_busy heap l Hb). lia.
  - cbn [drain]. destruct (busy l) eqn:Hb.
    + apply IH. pose proof (advance_busy heap l Hb). lia.
    + rewrite advance_idle by exact Hb. rewrite drain_idle by exact Hb. exact Hb.
Qed.

Lemma drain_enough heap n l :
  (fuel l <= n)%nat -> drain n heap l = drain (fuel l) heap l.
Proof.
  intros Hf. replace n with (fuel l + (n - fuel l))%nat by lia.
  rewrite drain_add. apply drain_idle, drain_rest. lia.
Qed.

(** *** Steps commute with what a call or a preparation does to the queue *)

Lemma advance_enqueue heap l prepared t :
  busy l = true ->
  advance heap (enqueue l prepared t) = enqueue (advance heap l) prepared t.
Proof.
  unfold busy, advance, enqueue. cbn [self pending nextId].
  destruct (chain (self l)) as [|r|e|e].
  - destruct (pending l) as [|p rest]; [discriminate|]. intros Hp.
    cbn [app self pending nextId]. rewrite Hp. reflexivity.
  - intros _. reflexivity.
  - destruct (pending l) as [|p rest]; [discriminate|]. intros _.
    cbn [app self pending nextId]. reflexivity.
  - discriminate.
Qed.

Lemma advance_markAll heap l :
  busy l = true -> advance heap (markAll l) = markAll (advance heap l).
Proof.
  unfold busy, advance, markAll. cbn [self pending nextId].
  destruct (chain (self l)) as [|r|e|e].
  - destruct (pending l) as [|p rest]; [discriminate|]. intros Hp.
    cbn [List.map setPrepared p_prepared negb]. rewrite Hp. reflexivity.
  - intros _. reflexivity.
  - destruct (pending l) as [|p rest]; [discriminate|]. intros _. reflexivity.
  - discriminate.
Qed.

Lemma busy_markAll l : busy l = true -> busy (markAll l) = true.
Proof.
  unfold busy, markAll. cbn [self pending].
  destruct (chain (self l)); [|auto| |auto];
    destruct (pending l); cbn [List.map]; auto.
Qed.

Lemma fuel_markAll l : fuel (markAll l) = fuel l.
Proof.
  unfold fuel, markAll. cbn [self pending]. rewrite map_map. reflexivity.
Qed.

Lemma markAll_markAll l : markAll (markAll l) = markAll l.
Proof.
  unfold markAll. cbn [self pending nextId]. rewrite map_map. reflexivity.
Qed.

Lemma markAll_enqueue l prepared t :
  markAll (enqueue l prepared t) = enqueue (markAll l) true t.
Proof.
  unfold markAll, enqueue. cbn [self pending nextId]. rewrite map_app. reflexivity.
Qed.

Lemma markAll_prepare l id : markAll (prepare l id) = markAll l.
Proof.
  unfold markAll, prepare. cbn [self pending nextId]. rewrite map_map.
  f_equal. apply map_ext. intros p. destruct (Nat.eqb (p_id p) id); reflexivity.
Qed.

Lemma fuel_prepare l id : fuel (prepare l id) = fuel l.
Proof.
  unfold fuel, prepare. cbn [self pending]. rewrite map_map. f_equal. f_equal.
  apply map_ext. intros p. destruct (Nat.eqb (p_id p) id); reflexivity.
Qed.

(** A step does not change where the chain comes to rest. *)
Lemma settle_advance heap l : settle heap (advance heap l) = settle heap l.
Proof.
  destruct (busy l) eqn:Hb; [|rewrite advance_idle by exact Hb; reflexivity].
  unfold settle.
  rewrite <- (fuel_markAll (advance heap l)), <- (fuel_markAll l).
  rewrite <- advance_markAll by exact Hb.
  pose proof (advance_busy heap (markAll l) (busy_markAll l Hb)) as Hlt.
  destruct (fuel (markAll l)) as [|k] eqn:Hk; [lia|].
  cbn [drain]. symmetry. apply drain_enough. lia.
Qed.

Lemma settle_drain heap n : forall l, settle heap (drain n heap l) = settle heap l.
Proof.
  induction n as [|n IH]; intros l; [reflexivity|].
  cbn [drain]. rewrite IH. apply settle_advance.
Qed.

Lemma settle_prepare heap l id : settle heap (prepare l id) = settle heap l.
Proof. unfold settle. rewrite markAll_prepare, fuel_prepare. reflexivity. Qed.

Lemma settle_markAll heap l : settle heap (markAll l) = settle heap l.
Proof. unfold settle. rewrite markAll_markAll, fuel_markAll. reflexivity. Qed.

Lemma settle_enqueue_markAll heap l prepared t :
  settle heap (enqueue (markAll l) prepared t) = settle heap (enqueue l prepared t).
Proof.
  unfold settle. rewrite !markAll_enqueue, markAll_markAll. f_equal.
  unfold fuel, enqueue, markAll. cbn [self pending]. rewrite !map_app, map_map. reflexivity.
Qed.

Lemma settle_enqueue_drain heap prepared t n : forall l,
  settle heap (enqueue (drain n heap l) prepared t) = settle heap (enqueue l prepared t).
Proof.
  induction n as [|n IH]; intros l; [reflexivity|].
  cbn [drain]. rewrite IH. destruct (busy l) eqn:Hb.
  - rewrite <- advance_enqueue by exact Hb. apply settle_advance.
  - rewrite advance_idle by exact Hb. reflexivity.
Qed.

(** Queuing on an archive, or on the archive run to rest: the same rest. *)
Lemma settle_enqueue heap l prepared t :
  settle heap (enqueue (settle heap l) prepared t) = settle heap (enqueue l prepared t).
Proof.
  unfold settle at 2. rewrite settle_enqueue_drain. apply settle_enqueue_markAll.
Qed.

Lemma settle_settle heap l : settle heap (settle heap l) = settle heap l.
Proof. unfold settle at 2. rewrite settle_drain. apply settle_markAll. Qed.

(** *** Archives that have only been added to *)

Lemma keepsAdds_refl z : keepsAdds z z.
Proof. split; auto. Qed.

Lemma keepsAdds_trans z1 z2 z3 : keepsAdds z1 z2 -> keepsAdds z2 z3 -> keepsAdds z1 z3.
Proof. intros [Hq1 Hn1] [Hq2 Hn2]. split; [congruence|auto]. Qed.

Lemma keepsAdds_settled z z' :
  hasQueue z' = hasQueue z -> settled z' = settled z -> keepsAdds z z'.
Proof. intros Hq Hs. split; [exact Hq|]. rewrite Hs. auto. Qed.

Lemma keepsAdds_entry z id r : keepsAdds z (withSettled z id (SettledEntry r)).
Proof.
  split; [reflexivity|]. intros Hn id' r'. cbn [settled withSettled].
  destruct (decide (id = id')) as [->|Hne].
  - rewrite lookup_insert_eq. discriminate.
  - rewrite lookup_insert_ne by exact Hne. apply Hn.
Qed.

Lemma keepsAdds_reject z id e : keepsAdds z (reject z id e).
Proof.
  unfold reject. eapply keepsAdds_trans; [|apply keepsAdds_entry].
  unfold emitError. destruct errorListener; split; auto.
Qed.

Lemma keepsAdds_writeBuffer z b : keepsAdds z (writeBuffer z b).
Proof. apply keepsAdds_settled; reflexivity. Qed.

Lemma keepsAdds_afterWrite z id entry cursor : keepsAdds z (afterWrite z id entry cursor).
Proof.
  unfold afterWrite. destruct (checkCompressedSize _ _); [|apply keepsAdds_reject].
  destruct (getDataDescriptor _); [|apply keepsAdds_reject].
  eapply keepsAdds_trans; [|apply keepsAdds_entry]. apply keepsAdds_settled; reflexivity.
Qed.

Lemma keepsAdds_startEntry z id t : keepsAdds z (startEntry z id t).
Proof.
  unfold startEntry. destruct (callback t) as [[entry write]|e]; [|apply keepsAdds_reject].
  destruct (getLocalFileHeader _) as [header|e]; [|apply keepsAdds_reject].
  eapply keepsAdds_trans; [apply keepsAdds_writeBuffer|].
  destruct write.
  - apply keepsAdds_settled; reflexivity.
  - eapply keepsAdds_trans; [apply keepsAdds_writeBuffer|apply keepsAdds_afterWrite].
  - apply keepsAdds_afterWrite.
Qed.

Lemma keepsAdds_advanceStream z r : keepsAdds z (advanceStream z r).
Proof.
  unfold advanceStream. destruct (rs_chunks (run_source r)) as [|chunk rest].
  - destruct (rs_end (run_source r)); [|apply keepsAdds_refl].
    unfold streamEnd. cbv zeta. destruct (onEnd _ _ _).
    + apply keepsAdds_settled; reflexivity.
    + eapply keepsAdds_trans; [|apply keepsAdds_afterWrite].
      apply keepsAdds_settled; reflexivity.
  - unfold streamChunk. cbv zeta. destruct (compressChunk _ _ _).
    apply keepsAdds_settled; reflexivity.
Qed.

Lemma react_add heap z p :
  isAddTask (p_task p) -> react heap z p = startEntry z (p_id p) (p_task p).
Proof. unfold react. destruct (p_task p); [reflexivity..|intros []]. Qed.

Lemma rejection_add t e : isAddTask t -> rejection t e = SettledEntry (Err e).
Proof. destruct t; [reflexivity..|intros []]. Qed.

(** No central directory task waiting: the arrays of index.js are not read. *)
Lemma advance_heap heap heap' l :
  Forall (fun p => isAddTask (p_task p)) (pending l) ->
  advance heap l = advance heap' l.
Proof.
  intros Hp. unfold advance. destruct (chain (self l)); try reflexivity.
  destruct (pending l) as [|p rest]; [reflexivity|].
  apply Forall_cons in Hp as [Hp _].
  rewrite !(react_add _ _ _ Hp). reflexivity.
Qed.

Lemma addsOnly_advance heap l : addsOnly l -> addsOnly (advance heap l).
Proof.
  intros Hl. pose proof Hl as (Hp & Hn & Hq). unfold advance.
  destruct (chain (self l)) as [|r|e|e].
  - destruct (pending l) as [|p rest]; [exact Hl|].
    destruct (negb (p_prepared p)); [exact Hl|].
    apply Forall_cons in Hp as [Hp Hrest]. rewrite (react_add _ _ _ Hp).
    destruct (keepsAdds_startEntry (self l) (p_id p) (p_task p)) as [Hq' Hn'].
    split; [|split]; cbn [self pending]; [exact Hrest|apply Hn', Hn|congruence].
  - destruct (keepsAdds_advanceStream (self l) r) as [Hq' Hn'].
    split; [|split]; cbn [self pending]; [exact Hp|apply Hn', Hn|congruence].
  - destruct (pending l) as [|p rest]; [exact Hl|].
    apply Forall_cons in Hp as [Hp Hrest]. rewrite (rejection_add _ _ Hp).
    destruct (keepsAdds_entry (self l) (p_id p) (Err e)) as [Hq' Hn'].
    split; [|split]; cbn [self pending]; [exact Hrest|apply Hn', Hn|congruence].
  - exact Hl.
Qed.

Lemma addsOnly_markAll l : addsOnly l -> addsOnly (markAll l).
Proof.
  intros (Hp & Hn & Hq). split; [|split]; cbn [self pending markAll]; try assumption.
  apply Forall_map. exact Hp.
Qed.

Lemma addsOnly_prepare l id : addsOnly l -> addsOnly (prepare l id).
Proof.
  intros (Hp & Hn & Hq). split; [|split]; cbn [self pending prepare]; try assumption.
  apply Forall_map. eapply Forall_impl; [exact Hp|].
  intros p Ht. cbn beta. destruct (Nat.eqb (p_id p) id); exact Ht.
Qed.

Lemma addsOnly_enqueue l prepared t : addsOnly l -> isAddTask t -> addsOnly (enqueue l prepared t).
Proof.
  intros (Hp & Hn & Hq) Ht. split; [|split]; cbn [self pending enqueue]; try assumption.
  apply Forall_app. split; [exact Hp|]. apply Forall_cons. split; [exact Ht|constructor].
Qed.

Lemma addsOnly_drain heap n : forall l, addsOnly l -> addsOnly (drain n heap l).
Proof.
  induction n as [|n IH]; intros l Hl; [exact Hl|].
  cbn [drain]. apply IH, addsOnly_advance, Hl.
Qed.

Lemma addsOnly_settle heap l : addsOnly l -> addsOnly (settle heap l).
Proof. intros Hl. apply addsOnly_drain, addsOnly_markAll, Hl. Qed.

Lemma drain_heap heap heap' n : forall l, addsOnly l -> drain n heap l = drain n heap' l.
Proof.
  induction n as [|n IH]; intros l Hl; [reflexivity|].
  cbn [drain]. rewrite (advance_heap heap heap') by apply Hl.
  apply IH, addsOnly_advance, Hl.
Qed.

Lemma settle_heap heap heap' l : addsOnly l -> settle heap l = settle heap' l.
Proof. intros Hl. apply drain_heap, addsOnly_markAll, Hl. Qed.

(** *** One call at a time *)

Lemma addEntry_open l prepared t :
  hasQueue (self l) = true -> fst (addEntry l prepared t) = enqueue l prepared t.
Proof. intros Hq. unfold addEntry. rewrite Hq. reflexivity. Qed.

(** What an add leaves in the queue does not depend on the archive. *)
Lemma invoke_uniform c :
  notEnd (Invoke c) ->
  (forall a, lowlevel (fst (invoke a c)) = lowlevel a)
  \/ (exists prepared t, isAddTask t /\
        forall a, hasQueue (zip a) = true ->
                  lowlevel (fst (invoke a c)) = enqueue (lowlevel a) prepared t).
Proof.
  destruct c as [realPath metadataPath options statsPromise content
                |readStream metadataPath options now
                |buffer metadataPath options now
                |metadataPath options now
                |entry
                |options]; intros Hc; cbn [invoke withLowLevel fst lowlevel].
  - unfold addFile. destruct (validateMetadataPath _ _) as [path|e]; [|left; reflexivity].
    right. eexists _, _. split; [|intros a Hq; apply addEntry_open, Hq]. exact I.
  - unfold addReadStream. destruct (validateMetadataPath _ _) as [path|e]; [|left; reflexivity].
    destruct (FileEntry_new _ _ _) as [entry|e]; [|left; reflexivity].
    right. eexists _, _. split; [|intros a Hq; apply addEntry_open, Hq]. exact I.
  - unfold addBuffer. destruct (validateMetadataPath _ _) as [path|e]; [|left; reflexivity].
    destruct (blen buffer >? 1073741823); [left; reflexivity|]. cbv zeta.
    right. eexists _, _. split; [|intros a Hq; apply addEntry_open, Hq]. exact I.
  - unfold addEmptyDirectory. destruct (validateMetadataPath _ _) as [path|e]; [|left; reflexivity].
    right. eexists _, _. split; [|intros a Hq; apply addEntry_open, Hq]. exact I.
  - left. reflexivity.
  - destruct Hc.
Qed.

Lemma resume_add a id : addsOnly (lowlevel a) -> lowlevel (resume a id) = lowlevel a.
Proof.
  intros (_ & Hn & _). unfold resume. destruct (bool_decide _); [reflexivity|].
  destruct (settled (zip a) !! id) as [[[entry|e]|[r|e]]|] eqn:Hs; try reflexivity.
  destruct (Hn _ _ Hs).
Qed.

Lemma addsOnly_new : addsOnly newLowLevel.
Proof.
  split; [constructor|]. split; [|reflexivity].
  intros id r. cbn [newLowLevel self newZipFile settled]. rewrite lookup_empty. discriminate.
Qed.

(** The invariant of the comparison: the interleaved archive [a], settled,
    is the archive [s] of the calls made one at a time. *)
Lemma run_sequential events : forall a s,
  addsOnly (lowlevel a) ->
  lowlevel s = settle [] (lowlevel a) ->
  Forall notEnd events ->
  addsOnly (lowlevel (run a events))
  /\ lowlevel (fold_left oneAtATime (callsOf events) s) = settle [] (lowlevel (run a events)).
Proof.
  induction events as [|ev events IH]; intros a s Ha Hs Hev; [split; assumption|].
  apply Forall_cons in Hev as [Hev Hrest].
  assert (Hs' : addsOnly (lowlevel s)) by (rewrite Hs; apply addsOnly_settle, Ha).
  destruct ev as [c|id| |id].
  - change (run a (Invoke c :: events)) with (run (fst (invoke a c)) events).
    change (callsOf (Invoke c :: events)) with (c :: callsOf events).
    cbn [fold_left]. unfold oneAtATime at 2.
    destruct (invoke_uniform c Hev) as [Hsame|(prepared & t & Ht & Hadd)].
    + apply IH; [rewrite Hsame; exact Ha| |exact Hrest].
      cbn [quiesce lowlevel]. rewrite !Hsame.
      rewrite (settle_heap _ []) by exact Hs'.
      rewrite Hs. apply settle_settle.
    + pose proof Ha as (_ & _ & Hqa). pose proof Hs' as (_ & _ & Hqs).
      apply IH; [rewrite (Hadd a Hqa); apply addsOnly_enqueue; assumption| |exact Hrest].
      cbn [quiesce lowlevel]. rewrite (Hadd a Hqa), (Hadd s Hqs).
      rewrite (settle_heap _ []) by (apply addsOnly_enqueue; assumption).
      rewrite Hs. apply settle_enqueue.
  - change (run a (Prepared id :: events))
      with (run {| lowlevel := prepare (lowlevel a) id; arrays := arrays a;
                   resumed := resumed a |} events).
    change (callsOf (Prepared id :: events)) with (callsOf events).
    apply IH; cbn [lowlevel]; [apply addsOnly_prepare, Ha| |exact Hrest].
    rewrite settle_prepare. exact Hs.
  - change (run a (Advance :: events))
      with (run {| lowlevel := advance (arrays a) (lowlevel a); arrays := arrays a;
                   resumed := resumed a |} events).
    change (callsOf (Advance :: events)) with (callsOf events).
    apply IH; cbn [lowlevel]; [apply addsOnly_advance, Ha| |exact Hrest].
    rewrite (advance_heap _ []) by apply Ha. rewrite settle_advance. exact Hs.
  - change (run a (Resume id :: events)) with (run (resume a id) events).
    change (callsOf (Resume id :: events)) with (callsOf events).
    apply IH; [rewrite resume_add by exact Ha; exact Ha| |exact Hrest].
    rewrite resume_add by exact Ha. exact Hs.
Qed.

Lemma keepsEnd_drain heap n : forall l, keepsEnd (self l) (self (drain n heap l)).
Proof.
  induction n as [|n IH]; intros l; [apply keepsEnd_refl|].
  cbn [drain]. eapply keepsEnd_trans; [apply keepsEnd_advance|apply IH].
Qed.

Lemma keepsEnd_settle heap l : keepsEnd (self l) (self (settle heap l)).
Proof. apply (keepsEnd_drain heap (fuel l) (markAll l)). Qed.

Lemma settle_idle heap l :
  pending l = [] -> (forall r, chain (self l) <> Streaming r) ->
  self (settle heap l) = self l.
Proof.
  intros Hp Hc. unfold settle, fuel. rewrite Hp.
  destruct (chain (self l)) as [|r|e|e]; try reflexivity.
  destruct (Hc r). reflexivity.
Qed.

Lemma idle_fuel a : fuel (lowlevel a) = 0%nat -> idle a.
Proof.
  unfold fuel, idle, zip. intros Hf.
  destruct (pending (lowlevel a)) as [|p rest].
  - split; [reflexivity|]. intros r Hr. rewrite Hr in Hf. discriminate.
  - exfalso. unfold list_sum in Hf. cbn [List.map fold_right] in Hf. destruct (p_task p); cbn [taskFuel] in Hf; lia.
Qed.

(** *** What each entry contributes *)

Lemma settle_still heap l : pending l = [] -> busy l = false -> settle heap l = l.
Proof.
  intros Hp Hb. unfold settle.
  assert (Hm : markAll l = l).
  { unfold markAll. rewrite Hp. destruct l; cbn in *; subst; reflexivity. }
  rewrite Hm. apply drain_idle, Hb.
Qed.

Lemma halted_advance heap l :
  halted l ->
  received (readable (self (advance heap l))) = received (readable (self l))
  /\ halted (advance heap l).
Proof.
  unfold halted, advance. destruct (chain (self l)) as [|r|e|e] eqn:Hc.
  - intros [].
  - intros [Hchunks Hend]. cbn [self]. unfold advanceStream. rewrite Hchunks, Hend.
    rewrite Hc. auto.
  - intros _. destruct (pending l) as [|p rest]; [rewrite Hc; auto|].
    cbn [self withSettled readable chain]. rewrite Hc. auto.
  - intros _. rewrite Hc. auto.
Qed.

Lemma halted_drain heap n : forall l,
  halted l ->
  received (readable (self (drain n heap l))) = received (readable (self l))
  /\ halted (drain n heap l).
Proof.
  induction n as [|n IH]; intros l Hl; [auto|].
  cbn [drain]. destruct (halted_advance heap l Hl) as [Hr Hh].
  destruct (IH _ Hh) as [Hr' Hh']. split; [congruence|exact Hh'].
Qed.

Lemma halted_settle heap l :
  halted l ->
  received (readable (self (settle heap l))) = received (readable (self l))
  /\ halted (settle heap l).
Proof. intros Hl. apply (halted_drain heap (fuel l) (markAll l)), Hl. Qed.

(** The end of the reaction of [addEntry], on an output that takes chunks. *)
Lemma afterWrite_closing z id entry cursor :
  ended (readable z) = false -> destroyed (readable z) = false ->
  let z' := afterWrite z id entry cursor in
  match closing (Some entry) (outputStreamCursor z - cursor) with
  | Some descriptor =>
      received (readable z') = received (readable z) ++ [descriptor]
      /\ chain z' = Fulfilled
      /\ ended (readable z') = false /\ destroyed (readable z') = false
      /\ outputStreamCursor z' = outputStreamCursor z + blen descriptor
  | None =>
      received (readable z') = received (readable z)
      /\ exists e, chain z' = Rejected e
  end.
Proof.
  intros He Hd. cbv zeta. unfold closing, afterWrite.
  destruct (checkCompressedSize entry _) as [entry'|e].
  - destruct (getDataDescriptor entry') as [descriptor|e].
    + rewrite (writeBuffer_open z descriptor He Hd).
      cbn [withSettled withChain withReadable readable received chain ended destroyed
           outputStreamCursor]. auto.
    + destruct (reject_fields z id e) as (_ & _ & _ & Hr & _ & _ & Hc & _). eauto.
  - destruct (reject_fields z id e) as (_ & _ & _ & Hr & _ & _ & Hc & _). eauto.
Qed.


(** The reaction of a call queued on an archive at rest starts at the next
    step of the chain. *)
Lemma settle_enqueue_ready heap l prepared t :
  ready l -> isAddTask t ->
  settle heap (enqueue l prepared t)
  = settle heap {| self := startEntry (self l) (nextId l) t; pending := [];
                   nextId := S (nextId l) |}.
Proof.
  intros (Hc & Hp & _) Ht.
  rewrite <- (settle_markAll heap (enqueue l prepared t)), markAll_enqueue.
  rewrite <- (settle_advance heap (enqueue (markAll l) true t)). f_equal.
  unfold advance, enqueue, markAll. cbn [self pending nextId]. rewrite Hc, Hp.
  cbn [List.map app p_prepared negb]. rewrite react_add by exact Ht. reflexivity.
Qed.

Lemma settle_done heap z n :
  (forall r, chain z <> Streaming r) ->
  settle heap {| self := z; pending := []; nextId := n |}
  = {| self := z; pending := []; nextId := n |}.
Proof.
  intros Hc. apply settle_still; [reflexivity|].
  unfold busy. cbn [self pending]. destruct (chain z) as [|r|e|e]; try reflexivity.
  destruct (Hc r). reflexivity.
Qed.

(** The chunks of a source go through the chain, one step each. *)
Lemma drain_stream heap chunks l id entry cursor crc counted forwarded d ending :
  chain (self l)
  = Streaming {| run_id := id; run_entry := entry; run_cursor := cursor;
                 run_source := {| rs_chunks := chunks; rs_end := ending |};
                 run_crc32 := crc; run_uncompressedSize := counted;
                 run_compressedSize := forwarded; run_deflate := d |} ->
  drain (List.length chunks) heap l
  = {| self :=
         withChain
           (withReadable (self l)
              (pushAll (readable (self l)) (snd (compressChunks entry d chunks)))
              (outputStreamCursor (self l)))
           (Streaming
              {| run_id := id; run_entry := entry; run_cursor := cursor;
                 run_source := {| rs_chunks := []; rs_end := ending |};
                 run_crc32 := crcOfChunks crc chunks;
                 run_uncompressedSize := counted + totalLength chunks;
                 run_compressedSize :=
                   forwarded + totalLength (snd (compressChunks entry d chunks));
                 run_deflate := fst (compressChunks entry d chunks) |});
       pending := pending l; nextId := nextId l |}.
Proof.
  intros Hc.
  pose proof (stream_chunks chunks {| lowlevel := l; arrays := heap; resumed := ∅ |}
                _ _ _ _ _ _ _ _ Hc) as Hs.
  rewrite run_advances in Hs. apply (f_equal lowlevel) in Hs. exact Hs.
Qed.

(** From the payload to the end of the entry. *)
Lemma afterWrite_finish z zp id entry header payload :
  ended (readable zp) = false -> destroyed (readable zp) = false ->
  received (readable zp) = received (readable z) ++ header :: payload ->
  outputStreamCursor zp = outputStreamCursor z + blen header + totalLength payload ->
  let z' := afterWrite zp id entry (outputStreamCursor z + blen header) in
  match closing (Some entry) (totalLength payload) with
  | Some descriptor =>
      received (readable z') = received (readable z) ++ header :: payload ++ [descriptor]
      /\ chain z' = Fulfilled
      /\ ended (readable z') = false /\ destroyed (readable z') = false
      /\ outputStreamCursor z'
         = outputStreamCursor z + totalLength (header :: payload ++ [descriptor])
  | None =>
      received (readable z') = received (readable z) ++ header :: payload
      /\ exists e, chain z' = Rejected e
  end.
Proof.
  intros He Hd Hr Hc z'.
  pose proof (afterWrite_closing zp id entry (outputStreamCursor z + blen header) He Hd)
    as Hz.
  cbv zeta in Hz. fold z' in Hz.
  replace (outputStreamCursor zp - (outputStreamCursor z + blen header))
    with (totalLength payload) in Hz by lia.
  destruct (closing (Some entry) (totalLength payload)) as [descriptor|].
  - destruct Hz as (Hr' & Hc' & He' & Hd' & Hcur).
    rewrite Hr', Hr, Hcur, Hc. repeat split; try assumption.
    + rewrite <- app_assoc. reflexivity.
    + change (header :: payload ++ [descriptor]) with ([header] ++ payload ++ [descriptor]).
      rewrite !totalLength_app. unfold totalLength at 2 4. cbn [fold_right]. lia.
  - destruct Hz as (Hr' & Hc'). rewrite Hr', Hr. auto.
Qed.


(** An entry that got to its end, or was rejected on the way: the chain is
    at rest, or halted. *)
Lemma finish_settle heap z z' n header payload (entry : option Entry) :
  match closing entry (totalLength payload) with
  | Some descriptor =>
      received (readable z') = received (readable z) ++ header :: payload ++ [descriptor]
      /\ chain z' = Fulfilled
      /\ ended (readable z') = false /\ destroyed (readable z') = false
      /\ outputStreamCursor z'
         = outputStreamCursor z + totalLength (header :: payload ++ [descriptor])
  | None =>
      received (readable z') = received (readable z) ++ header :: payload
      /\ exists e, chain z' = Rejected e
  end ->
  let l' := settle heap {| self := z'; pending := []; nextId := n |} in
  let c := match closing entry (totalLength payload) with
           | None => (header :: payload, false)
           | Some descriptor => (header :: payload ++ [descriptor], true)
           end in
  received (readable (self l')) = received (readable z) ++ fst c
  /\ if snd c
     then ready l' /\ outputStreamCursor (self l') = outputStreamCursor z + totalLength (fst c)
     else halted l'.
Proof.
  intros Hz l' c. subst l' c.
  destruct (closing entry (totalLength payload)) as [descriptor|].
  - destruct Hz as (Hr & Hc & He & Hd & Hcur).
    rewrite settle_done by (intros r; rewrite Hc; discriminate).
    cbn [self fst snd]. unfold ready. cbn [self pending]. auto 10.
  - destruct Hz as (Hr & e & Hc).
    rewrite settle_done by (intros r; rewrite Hc; discriminate).
    cbn [self fst snd]. unfold halted. cbn [self]. rewrite Hc. auto.
Qed.

(** A call queued on an archive at rest, its preparation over and the chain
    run as far as it goes: the output has received the contribution of the
    entry, and the chain is at rest again if the entry is complete. *)
Lemma contribution_settle heap l prepared t :
  ready l -> isAddTask t ->
  let cursor := outputStreamCursor (self l) in
  let l' := settle heap (enqueue l prepared t) in
  received (readable (self l')) = received (readable (self l)) ++ fst (contribution cursor t)
  /\ if snd (contribution cursor t)
     then ready l'
          /\ outputStreamCursor (self l') = cursor + totalLength (fst (contribution cursor t))
     else halted l'.
Proof.
  intros Hready Ht cursor l'. subst l'. rewrite settle_enqueue_ready by assumption.
  destruct Hready as (Hc & Hp & He & Hd).
  assert (Hfailed : forall e,
            let l' := settle heap {| self := reject (self l) (nextId l) e; pending := [];
                                     nextId := S (nextId l) |} in
            received (readable (self l')) = received (readable (self l)) ++ []
            /\ halted l').
  { intros e. cbv zeta.
    destruct (reject_fields (self l) (nextId l) e) as (_ & _ & _ & Hr & _ & _ & Hc' & _).
    rewrite settle_done by (intros r; rewrite Hc'; discriminate).
    unfold halted. cbn [self]. rewrite Hc', Hr, app_nil_r. auto. }
  unfold contribution, startEntry. fold cursor.
  destruct (callback t) as [[entry write]|e] eqn:Hcb; [|apply Hfailed].
  cbv zeta. fold cursor.
  destruct (getLocalFileHeader (setOffset entry cursor)) as [header|e] eqn:Hheader;
    [|apply Hfailed].
  set (started := setOffset entry cursor).
  pose proof (writeBuffer_open (self l) header He Hd) as Hz1.
  set (z1 := writeBuffer (self l) header) in *.
  assert (He1 : ended (readable z1) = false) by (rewrite Hz1; reflexivity).
  assert (Hd1 : destroyed (readable z1) = false) by (rewrite Hz1; reflexivity).
  assert (Hr1 : received (readable z1) = received (readable (self l)) ++ [header])
    by (rewrite Hz1; reflexivity).
  assert (Hc1 : outputStreamCursor z1 = cursor + blen header) by (rewrite Hz1; reflexivity).
  clearbody z1. clear Hz1.
  destruct write as [[chunks ending]|buffer|].
  - match goal with
    | |- context [settle heap ?l0] => set (l1 := l0)
    end.
    rewrite <- (settle_drain heap (List.length chunks) l1).
    rewrite (drain_stream heap chunks l1 _ _ _ _ _ _ _ _ eq_refl).
    subst l1. cbn [self pending nextId withChain readable outputStreamCursor].
    rewrite (pushAll_open (readable z1) _ He1 Hd1), Hr1, Hc1.
    set (outs := snd (compressChunks started deflateInit chunks)).
    set (d := fst (compressChunks started deflateInit chunks)).
    assert (Hsent : forwardedChunks started chunks = outs ++ compressFlush started d).
    { unfold forwardedChunks, outs, d.
      destruct (compressChunks started deflateInit chunks). reflexivity. }
    rewrite !Z.add_0_l.
    destruct ending.
    + match goal with
      | |- context [settle heap ?l0] => set (l2 := l0)
      end.
      rewrite <- (settle_advance heap l2). subst l2.
      unfold advance. cbn [self chain withChain pending nextId].
      unfold advanceStream. cbn [run_source rs_chunks rs_end].
      unfold streamEnd.
      cbn [run_entry run_deflate run_compressedSize run_crc32 run_uncompressedSize
           run_id run_cursor withReadable readable outputStreamCursor].
 rewrite pushAll_open by reflexivity. cbn [received].
      cbn [payloadOf written rs_end rs_chunks]. rewrite Hsent.
      destruct (onEnd started (crcOfChunks 0 chunks) (totalLength chunks))
        as [e|sealed].
      * rewrite settle_done by (intros r; discriminate).
        cbn [closing fst snd self withChain withReadable readable received chain].
        unfold halted. cbn [self withChain chain].
        rewrite <- !app_assoc. auto.
      * apply (finish_settle heap (self l) _ _ header (outs ++ compressFlush started d)
                 (Some sealed)).
        apply afterWrite_finish.
        -- reflexivity.
        -- reflexivity.
        -- cbn [withReadable withChain readable received].
           rewrite <- !app_assoc. reflexivity.
        -- cbn [withReadable withChain outputStreamCursor].
           rewrite totalLength_app. lia.
    + rewrite settle_still; [|reflexivity|reflexivity].
      cbn [payloadOf written rs_end rs_chunks closing fst snd
           self withChain withReadable readable received chain].
      unfold halted. cbn [self withChain chain run_source rs_chunks rs_end].
      rewrite <- !app_assoc. auto.
  - rewrite Hc1. apply (finish_settle heap (self l) _ _ header [buffer] (Some started)).
    apply afterWrite_finish.
    + rewrite (writeBuffer_open z1 buffer He1 Hd1). reflexivity.
    + rewrite (writeBuffer_open z1 buffer He1 Hd1). reflexivity.
    + rewrite (writeBuffer_open z1 buffer He1 Hd1). cbn [withReadable readable received].
      rewrite Hr1, <- app_assoc. reflexivity.
    + rewrite (writeBuffer_open z1 buffer He1 Hd1). cbn [withReadable outputStreamCursor].
      rewrite Hc1. unfold totalLength. cbn [fold_right]. lia.
  - rewrite Hc1. apply (finish_settle heap (self l) _ _ header [] (Some started)).
    apply afterWrite_finish; try assumption.
    rewrite Hc1. unfold totalLength. cbn [fold_right]. lia.
Qed.


(** What a call leaves on the queue of any archive that can be added to. *)
Lemma invoke_queued c :
  notEnd (Invoke c) ->
  match queuedTask c with
  | None => forall a, lowlevel (fst (invoke a c)) = lowlevel a
  | Some t =>
      isAddTask t
      /\ exists prepared, forall a,
           hasQueue (zip a) = true ->
           lowlevel (fst (invoke a c)) = enqueue (lowlevel a) prepared t
  end.
Proof.
  intros Hc. unfold queuedTask.
  destruct (invoke_uniform c Hc) as [Hsame|(prepared & t & Ht & Hadd)].
  - rewrite Hsame. exact Hsame.
  - rewrite (Hadd newArchive eq_refl). cbn. eauto.
Qed.

Lemma ready_settle heap l : ready l -> settle heap l = l.
Proof.
  intros (Hc & Hp & _). apply settle_still; [exact Hp|].
  unfold busy. rewrite Hc, Hp. reflexivity.
Qed.

(** One call at a time: each entry follows the one before it. *)
Lemma sequential_contributions calls : forall s,
  Forall (fun c => notEnd (Invoke c)) calls ->
  addsOnly (lowlevel s) ->
  (ready (lowlevel s) ->
   output (fold_left oneAtATime calls s)
   = output s ++ inCallOrder (outputStreamCursor (zip s)) (queuedTasks calls))
  /\ (halted (lowlevel s) -> output (fold_left oneAtATime calls s) = output s).
Proof.
  induction calls as [|c calls IH]; intros s Hcalls Hadds.
  { split; intros _; cbn [fold_left queuedTasks flat_map inCallOrder];
      [rewrite app_nil_r|]; reflexivity. }
  apply Forall_cons in Hcalls as [Hc Hcalls].
  cbn [fold_left]. set (s' := oneAtATime s c).
  assert (Hs' : lowlevel s'
                = settle (arrays (fst (invoke s c))) (lowlevel (fst (invoke s c))))
    by reflexivity.
  pose proof Hadds as (_ & _ & Hqueue).
  pose proof (invoke_queued c Hc) as Hq.
  cbn [queuedTasks flat_map]. fold (queuedTasks calls).
  destruct (queuedTask c) as [t|].
  - destruct Hq as (Ht & prepared & Hadd). rewrite (Hadd s Hqueue) in Hs'.
    assert (Hadds' : addsOnly (lowlevel s')).
    { rewrite Hs'. apply addsOnly_settle, addsOnly_enqueue; assumption. }
    destruct (IH s' Hcalls Hadds') as [IHready IHhalted].
    split.
    + intros Hready.
      destruct (contribution_settle (arrays (fst (invoke s c))) (lowlevel s) prepared t
                  Hready Ht) as [Hreceived Hnext].
      rewrite <- Hs' in Hreceived, Hnext.
      cbn [app inCallOrder]. unfold output, zip in *.
      destruct (snd (contribution (outputStreamCursor (self (lowlevel s))) t)).
      * destruct Hnext as [Hready' Hcursor].
        rewrite (IHready Hready'), Hreceived, Hcursor, <- app_assoc. reflexivity.
      * rewrite (IHhalted Hnext), Hreceived, app_nil_r. reflexivity.
    + intros Hhalted.
      destruct (halted_settle (arrays (fst (invoke s c)))
                  (enqueue (lowlevel s) prepared t) Hhalted) as [Hreceived Hh].
      rewrite <- Hs' in Hreceived, Hh. rewrite (IHhalted Hh). exact Hreceived.
  - rewrite (Hq s) in Hs'.
    assert (Hadds' : addsOnly (lowlevel s')) by (rewrite Hs'; apply addsOnly_settle, Hadds).
    destruct (IH s' Hcalls Hadds') as [IHready IHhalted].
    split.
    + intros Hready. rewrite ready_settle in Hs' by exact Hready.
      rewrite Hs' in IHready. rewrite (IHready Hready).
      unfold output, zip. rewrite Hs'. reflexivity.
    + intros Hhalted.
      destruct (halted_settle (arrays (fst (invoke s c))) (lowlevel s) Hhalted)
        as [Hreceived Hh].
      rewrite <- Hs' in Hreceived, Hh. rewrite (IHhalted Hh). exact Hreceived.
Qed.

Lemma callsOf_notEnd events :
  Forall notEnd events -> Forall (fun c => notEnd (Invoke c)) (callsOf events).
Proof.
  induction events as [|ev events IH]; intros Hev; [constructor|].
  apply Forall_cons in Hev as [Hev Hrest]. cbn [callsOf flat_map].
  apply Forall_app. split; [|apply IH, Hrest].
  destruct ev; [|constructor..]. apply Forall_cons. split; [exact Hev|constructor].
Qed.

End CallOrder.

(** C9. However the calls of the add operations, the ends of their
    preparations (file stat, buffer compression), the steps of the promise
    chain and the continuations of index.js interleave, the chunks pushed so
    far are an initial part of the entries in the order of the calls: for
    each call that was queued the local header of its entry, written at the
    offset where the entry before it ends, then its payload, then its data
    descriptor, and nothing after an entry that failed or whose source never
    ends. Once nothing waits and no stream is being read the output is
    exactly that; it is also what the same calls push when each one is left
    to finish before the next is made. *)
Theorem output_in_call_order `{Collaborators} (events : list Event) :
  Forall notEnd events ->
  let a := run newArchive events in
  let entries := inCallOrder 0 (queuedTasks (callsOf events)) in
  (exists rest, entries = output a ++ rest)
  /\ (idle a -> output a = entries)
  /\ output (sequential (callsOf events)) = entries.
Proof.
  intros Hev a entries.
  destruct (run_sequential events newArchive newArchive addsOnly_new eq_refl Hev)
    as [_ Hs].
  fold (sequential (callsOf events)) in Hs. fold a in Hs.
  assert (Hentries : output (sequential (callsOf events)) = entries).
  { destruct (sequential_contributions (callsOf events) newArchive
                (callsOf_notEnd events Hev) addsOnly_new) as [Hready _].
    apply Hready. repeat split. }
  rewrite <- Hentries. unfold output, zip. rewrite Hs.
  split; [|split].
  - apply (keepsEnd_settle [] (lowlevel a)).
  - intros [Hp Hc]. rewrite settle_idle by assumption. reflexivity.
  - reflexivity.
Qed.

Lemma output_in_call_order_witness :
  Forall notEnd outOfOrder
  /\ output (run newArchive outOfOrder) = inCallOrder 0 (queuedTasks threeAdds)
  /\ exists headerA descriptorA headerB headerC descriptorC,
       inCallOrder 0 (queuedTasks threeAdds)
       = [headerA; str "ab"; str "c"; descriptorA;
          headerB; storedBlock 1 (str "bb"); [];
          headerC; descriptorC]
       /\ skipn 30 headerA = str "a.txt"
       /\ skipn 30 headerB = str "b.txt"
       /\ skipn 30 headerC = str "c/".
Proof.
  assert (Hev : Forall notEnd outOfOrder) by (repeat constructor).
  split; [exact Hev|].
  destruct (output_in_call_order outOfOrder Hev) as (_ & Hidle & _).
  split; [apply Hidle, idle_fuel; vm_compute; reflexivity|].
  eexists _, _, _, _, _. split; [vm_compute; reflexivity|].
  repeat split.
Defined.

(** Until the stat of the file is there nothing is written, though the
    buffer and the directory are ready. *)
Example ready_entries_wait_for_the_first :
  output (run newArchive
            (List.map Invoke threeAdds ++ [Prepared 1; Advance; Advance; Advance])) = []
  /\ List.length (output (run newArchive outOfOrder)) = 9%nat.
Proof. split; vm_compute; reflexivity. Qed.

(** * Further properties of the encoders and of the queue *)

(** ** Numbers and dates on the wire *)

Lemma writeUInt32LE_in_range v :
  0 <= v <= 0xffffffff ->
  writeUInt32LE v
  = Ok [v mod 256; (v / 256) mod 256; (v / 65536) mod 256; (v / 16777216) mod 256].
Proof.
  intros Hv. unfold writeUInt32LE, inRange.
  destruct (Z.leb_spec 0 v); [|lia]. destruct (Z.leb_spec v 0xffffffff); [|lia].
  reflexivity.
Qed.

Lemma writeUInt32LE_out_of_range v :
  v < 0 \/ 0xffffffff < v -> writeUInt32LE v = Err ErrOutOfRange.
Proof.
  intros Hv. unfold writeUInt32LE, inRange.
  destruct (Z.leb_spec 0 v); [|reflexivity].
  destruct (Z.leb_spec v 0xffffffff); [lia|reflexivity].
Qed.

Lemma writeUInt16LE_in_range v :
  0 <= v <= 0xffff -> writeUInt16LE v = Ok [v mod 256; (v / 256) mod 256].
Proof.
  intros Hv. unfold writeUInt16LE, inRange.
  destruct (Z.leb_spec 0 v); [|lia]. destruct (Z.leb_spec v 0xffff); [|lia].
  reflexivity.
Qed.

Lemma writeUInt16LE_out_of_range v :
  v < 0 \/ 0xffff < v -> writeUInt16LE v = Err ErrOutOfRange.
Proof.
  intros Hv. unfold writeUInt16LE, inRange.
  destruct (Z.leb_spec 0 v); [|reflexivity].
  destruct (Z.leb_spec v 0xffff); [lia|reflexivity].
Qed.

Lemma le32_value v :
  0 <= v <= 0xffffffff ->
  v mod 256 + 256 * ((v / 256) mod 256) + 65536 * ((v / 65536) mod 256)
  + 16777216 * ((v / 16777216) mod 256) = v.
Proof.
  intros Hv.
  destruct (writeUInt32LE_Ok v _ (writeUInt32LE_in_range v Hv))
    as [_ (b0 & b1 & b2 & b3 & Hb & Hsum)].
  injection Hb as <- <- <- <-. exact Hsum.
Qed.

Lemma le16_value v :
  0 <= v <= 0xffff -> v mod 256 + 256 * ((v / 256) mod 256) = v.
Proof.
  intros Hv.
  destruct (writeUInt16LE_Ok v _ (writeUInt16LE_in_range v Hv))
    as [_ (b0 & b1 & Hb & Hsum)].
  injection Hb as <- <-. exact Hsum.
Qed.

Lemma mod_256_byte x : isByte (x mod 256).
Proof. unfold isByte. apply Z.mod_pos_bound. lia. Qed.

(** X1. [writeUInt64LE] stores every integer from 0 to 2^64 - 1 as eight
    bytes, the low 32-bit half first, each half little-endian: read back
    they give the number. Any other integer is a RangeError of one of the
    two 32-bit writes. *)
Theorem writeUInt64LE_round_trip (n : Z) :
  match writeUInt64LE n with
  | Ok b =>
      0 <= n < 2 ^ 64 /\ List.length b = 8%nat /\ Forall isByte b
      /\ readUInt64LE b 0 = n
      /\ readUInt32LE b 0 = n mod 2 ^ 32 /\ readUInt32LE b 4 = n / 2 ^ 32
  | Err e => e = ErrOutOfRange /\ (n < 0 \/ 2 ^ 64 <= n)
  end.
Proof.
  destruct (writeUInt64LE n) as [b|e] eqn:Hw.
  - pose proof Hw as Hw'. unfold writeUInt64LE in Hw'. cbv zeta in Hw'.
    apply rbind_Ok in Hw' as (l & Hl & Hw'). apply rbind_Ok in Hw' as (h & Hh & Hw').
    injection Hw' as <-.
    pose proof (writeUInt32LE_Ok _ _ Hl) as [Hlr _].
    pose proof (writeUInt32LE_Ok _ _ Hh) as [Hhr _].
    assert (Hn : 0 <= n).
    { destruct (Z.le_gt_cases 0 n) as [|Hneg]; [assumption|].
      assert (n / 4294967296 < 0) by (apply Z.div_lt_upper_bound; lia). lia. }
    assert (Hn' : n < 2 ^ 64).
    { pose proof (Z.div_mod n 4294967296 ltac:(lia)).
      pose proof (Z.mod_pos_bound n 4294967296 ltac:(lia)).
      change (2 ^ 64) with 18446744073709551616. lia. }
    rewrite Z.rem_mod_nonneg in Hl by lia.
    rewrite writeUInt32LE_in_range in Hl by (rewrite Z.rem_mod_nonneg in Hlr; lia).
    rewrite writeUInt32LE_in_range in Hh by lia.
    injection Hl as <-. injection Hh as <-.
    split; [lia|]. split; [reflexivity|]. split.
    { repeat constructor; apply mod_256_byte. }
    unfold readUInt64LE, readUInt32LE, byteAt. cbn [nth Nat.add app].
    pose proof (Z.mod_pos_bound n 4294967296 ltac:(lia)) as Hm.
    rewrite (le32_value (n mod 4294967296)) by lia.
    rewrite (le32_value (n / 4294967296)) by lia.
    change (2 ^ 32) with 4294967296.
    pose proof (Z.div_mod n 4294967296 ltac:(lia)). lia.
  - unfold writeUInt64LE in Hw. cbv zeta in Hw.
    destruct (Z.le_gt_cases 0 n) as [Hpos|Hneg].
    + rewrite Z.rem_mod_nonneg in Hw by lia.
      pose proof (Z.mod_pos_bound n 4294967296 ltac:(lia)).
      rewrite writeUInt32LE_in_range in Hw by lia. cbn [rbind] in Hw.
      assert (Hq : 0 <= n / 4294967296) by (apply Z.div_pos; lia).
      destruct (Z.le_gt_cases (n / 4294967296) 0xffffffff) as [Hle|Hgt].
      * rewrite writeUInt32LE_in_range in Hw by lia. discriminate.
      * rewrite writeUInt32LE_out_of_range in Hw by lia. injection Hw as <-.
        split; [reflexivity|]. right.
        pose proof (Z.div_mod n 4294967296 ltac:(lia)).
        change (2 ^ 64) with 18446744073709551616. lia.
    + assert (Hh : n / 4294967296 < 0) by (apply Z.div_lt_upper_bound; lia).
      split; [|left; exact Hneg].
      destruct (writeUInt32LE (Z.rem n 4294967296)) as [l|e'] eqn:Hl; cbn [rbind] in Hw.
      * rewrite writeUInt32LE_out_of_range in Hw by lia. cbn [rbind] in Hw. congruence.
      * unfold writeUInt32LE in Hl. destruct (inRange _ _); congruence.
Qed.

Lemma land_low_shiftl a b k : 0 <= k -> 0 <= a < 2 ^ k -> Z.land a (Z.shiftl b k) = 0.
Proof.
  intros Hk Ha. apply Z.bits_inj'. intros i Hi.
  rewrite Z.land_spec, Z.bits_0.
  destruct (Z.lt_ge_cases i k) as [Hlt|Hge].
  - rewrite Z.shiftl_spec_low by exact Hlt. apply andb_false_r.
  - replace (Z.testbit a i) with false; [reflexivity|].
    symmetry. apply Z.testbit_false; [exact Hi|].
    rewrite Z.div_small; [reflexivity|].
    split; [lia|]. apply Z.lt_le_trans with (2 ^ k); [lia|].
    apply Z.pow_le_mono_r; lia.
Qed.

(** Bit fields that do not overlap add up. *)
Lemma lor_shiftl_add a b k :
  0 <= k -> 0 <= a < 2 ^ k -> Z.lor a (Z.shiftl b k) = a + b * 2 ^ k.
Proof.
  intros Hk Ha. rewrite <- Z.lxor_lor by (apply land_low_shiftl; assumption).
  rewrite <- Z.add_nocarry_lxor by (apply land_low_shiftl; assumption).
  rewrite Z.shiftl_mul_pow2 by exact Hk. reflexivity.
Qed.

Lemma land_mask a k : 0 <= k -> Z.land a (2 ^ k - 1) = a mod 2 ^ k.
Proof.
  intros Hk. rewrite <- Z.land_ones by exact Hk. rewrite Z.ones_equiv.
  rewrite <- Z.sub_1_r. reflexivity.
Qed.

Lemma dos_date_value (d : Date) :
  dos_date (dateToDosDateTime d)
  = getUTCDate d mod 32 + ((getUTCMonth d + 1) mod 16) * 32
    + ((getUTCFullYear d - 1980) mod 128) * 512.
Proof.
  unfold dateToDosDateTime. cbn [dos_date].
  change 31 with (2 ^ 5 - 1). change 15 with (2 ^ 4 - 1). change 127 with (2 ^ 7 - 1).
  rewrite !land_mask by lia.
  change (2 ^ 5) with 32. change (2 ^ 4) with 16. change (2 ^ 7) with 128.
  pose proof (Z.mod_pos_bound (getUTCDate d) 32 ltac:(lia)).
  pose proof (Z.mod_pos_bound (getUTCMonth d + 1) 16 ltac:(lia)).
  rewrite (lor_shiftl_add _ _ 5) by (change (2 ^ 5) with 32; lia).
  rewrite (lor_shiftl_add _ _ 9) by (change (2 ^ 5) with 32; change (2 ^ 9) with 512; lia).
  reflexivity.
Qed.

Lemma dos_time_value (d : Date) :
  0 <= getUTCSeconds d <= 63 ->
  dos_time (dateToDosDateTime d)
  = getUTCSeconds d / 2 + (getUTCMinutes d mod 64) * 32
    + (getUTCHours d mod 32) * 2048.
Proof.
  intros Hs. unfold dateToDosDateTime. cbn [dos_time].
  change 63 with (2 ^ 6 - 1). change 31 with (2 ^ 5 - 1).
  rewrite !land_mask by lia.
  change (2 ^ 5) with 32. change (2 ^ 6) with 64.
  pose proof (Z.mod_pos_bound (getUTCMinutes d) 64 ltac:(lia)).
  assert (0 <= getUTCSeconds d / 2 < 32) by (split; [apply Z.div_pos|apply Z.div_lt_upper_bound]; lia).
  rewrite (lor_shiftl_add _ _ 5) by (change (2 ^ 5) with 32; lia).
  rewrite (lor_shiftl_add _ _ 11) by (change (2 ^ 5) with 32; change (2 ^ 11) with 2048; lia).
  reflexivity.
Qed.

(** X2. For a date from 1980 to 2107, [dateToDosDateTime] packs the fields
    into two 16-bit numbers from which they can be read back: day in bits
    0-4, month (from 1) in bits 5-8 and years since 1980 in bits 9-15 of the
    date; seconds halved (rounded down) in bits 0-4, minutes in bits 5-10 and
    hours in bits 11-15 of the time. *)
Theorem dateToDosDateTime_fields (d : Date) :
  utcFields d ->
  1980 <= getUTCFullYear d <= 2107 ->
  let dos := dateToDosDateTime d in
  (0 <= dos_date dos <= 0xffff /\ 0 <= dos_time dos <= 0xffff)
  /\ (Z.land (dos_date dos) 0x1f = getUTCDate d
      /\ Z.land (Z.shiftr (dos_date dos) 5) 0xf = getUTCMonth d + 1
      /\ Z.shiftr (dos_date dos) 9 = getUTCFullYear d - 1980)
  /\ (2 * Z.land (dos_time dos) 0x1f = getUTCSeconds d - getUTCSeconds d mod 2
      /\ Z.land (Z.shiftr (dos_time dos) 5) 0x3f = getUTCMinutes d
      /\ Z.shiftr (dos_time dos) 11 = getUTCHours d).
Proof.
  intros (Hmo & Hda & Hh & Hmi & Hs) Hy dos. subst dos.
  rewrite dos_date_value, dos_time_value by lia.
  rewrite (Z.mod_small (getUTCDate d) 32), (Z.mod_small (getUTCMonth d + 1) 16),
    (Z.mod_small (getUTCFullYear d - 1980) 128), (Z.mod_small (getUTCMinutes d) 64),
    (Z.mod_small (getUTCHours d) 32) by lia.
  change 31 with (2 ^ 5 - 1). change 15 with (2 ^ 4 - 1). change 63 with (2 ^ 6 - 1).
  rewrite !land_mask, !Z.shiftr_div_pow2 by lia.
  change (2 ^ 5) with 32. change (2 ^ 4) with 16. change (2 ^ 6) with 64.
  change (2 ^ 9) with 512. change (2 ^ 11) with 2048.
  repeat split; Z.div_mod_to_equations; lia.
Qed.

Lemma dateToDosDateTime_fields_witness :
  utcFields lastDosSecond
  /\ dos_date (dateToDosDateTime lastDosSecond) = 0xff9f
  /\ dos_time (dateToDosDateTime lastDosSecond) = 0xbf7d
  /\ Z.shiftr (dos_date (dateToDosDateTime lastDosSecond)) 9 = 127.
Proof.
  assert (Hf : utcFields lastDosSecond) by (unfold utcFields; cbn; lia).
  split; [exact Hf|]. split; [reflexivity|]. split; [reflexivity|].
  apply (dateToDosDateTime_fields lastDosSecond Hf). cbn. lia.
Defined.

(** X3. [dateToDosDateTime] rejects no year: it keeps the years since 1980
    modulo 128, so two dates a multiple of 128 years apart get the same DOS
    date and time (1979 is stored as 2107). *)
Theorem dateToDosDateTime_year_wraps (d d' : Date) :
  sameButYear d d' ->
  (getUTCFullYear d' - getUTCFullYear d) mod 128 = 0 ->
  dateToDosDateTime d' = dateToDosDateTime d.
Proof.
  intros (Hmo & Hda & Hh & Hmi & Hs) Hy.
  unfold dateToDosDateTime. rewrite Hmo, Hda, Hh, Hmi, Hs. f_equal.
  f_equal. f_equal. change 127 with (2 ^ 7 - 1). rewrite !land_mask by lia.
  change (2 ^ 7) with 128. Z.div_mod_to_equations. lia.
Qed.

Lemma dateToDosDateTime_year_wraps_witness :
  dateToDosDateTime lastSecondOf1979 = dateToDosDateTime lastDosSecond.
Proof.
  apply dateToDosDateTime_year_wraps.
  - repeat split.
  - reflexivity.
Defined.

(** ** The local file header and the data descriptor *)

Lemma writeUInt32LE_opt_in_range v :
  0 <= stored v <= 0xffffffff -> exists b, writeUInt32LE_opt v = Ok b.
Proof.
  destruct v as [n|]; cbn [writeUInt32LE_opt stored]; intros Hv; [|eauto].
  rewrite writeUInt32LE_in_range by exact Hv. eauto.
Qed.

Lemma rbind_Err {A B} (r : result A) (k : A -> result B) (e : Error) :
  rbind r k = Err e -> r = Err e \/ exists a, r = Ok a /\ k a = Err e.
Proof. destruct r as [a|e']; cbn [rbind]; [eauto|intros [= ->]; left; reflexivity]. Qed.

Lemma writeUInt16LE_Err v e : writeUInt16LE v = Err e -> e = ErrOutOfRange.
Proof. unfold writeUInt16LE. destruct (inRange _ _); congruence. Qed.

Lemma writeUInt32LE_Err v e : writeUInt32LE v = Err e -> e = ErrOutOfRange.
Proof. unfold writeUInt32LE. destruct (inRange _ _); congruence. Qed.

Lemma writeUInt32LE_opt_Err v e : writeUInt32LE_opt v = Err e -> e = ErrOutOfRange.
Proof. destruct v; [apply writeUInt32LE_Err|discriminate]. Qed.

Lemma writeUInt64LE_Err n e : writeUInt64LE n = Err e -> e = ErrOutOfRange.
Proof.
  unfold writeUInt64LE. cbv zeta. intros Hw.
  apply rbind_Err in Hw as [Hw|(l & _ & Hw)]; [exact (writeUInt32LE_Err _ _ Hw)|].
  apply rbind_Err in Hw as [Hw|(h & _ & Hw)]; [exact (writeUInt32LE_Err _ _ Hw)|].
  discriminate.
Qed.

Lemma writeUInt64LE_opt_Err v e : writeUInt64LE_opt v = Err e -> e = ErrOutOfRange.
Proof. destruct v; [apply writeUInt64LE_Err|discriminate]. Qed.

(** The only error of a chain of writes is the RangeError of one of them. *)
Ltac range_error H :=
  lazymatch type of H with
  | rbind _ _ = Err _ =>
      let a := fresh "w" in
      let E := fresh "Hw" in
      apply rbind_Err in H as [H|(a & E & H)]; [range_error H|range_error H]
  | writeUInt16LE _ = Err _ => exact (writeUInt16LE_Err _ _ H)
  | writeUInt32LE _ = Err _ => exact (writeUInt32LE_Err _ _ H)
  | writeUInt32LE_opt _ = Err _ => exact (writeUInt32LE_opt_Err _ _ H)
  | writeUInt64LE _ = Err _ => exact (writeUInt64LE_Err _ _ H)
  | writeUInt64LE_opt _ = Err _ => exact (writeUInt64LE_opt_Err _ _ H)
  | Ok _ = Err _ => discriminate H
  | _ => idtac
  end.

Lemma generalPurposeBitFlag_value entry :
  generalPurposeBitFlag entry = if crcAndFileSizeKnown entry then 0x0800 else 0x0808.
Proof. unfold generalPurposeBitFlag. destruct (crcAndFileSizeKnown entry); reflexivity. Qed.

(** X4. A local file header that is emitted has 30 bytes and the name: the
    signature 0x04034b50, version needed 20 (also for an entry in ZIP64
    form), the UTF-8 flag with bit 3 set exactly when checksum and sizes are
    not known beforehand, the method, DOS time and date, the checksum and the
    two sizes when they are known and zeros otherwise, the length of the
    name, an extra field length of 0, and the name. *)
Theorem local_file_header_layout (entry : Entry) (header : Buffer) :
  getLocalFileHeader entry = Ok header -> localHeaderFields entry header.
Proof.
  unfold getLocalFileHeader. cbv zeta. intros Hrec.
  rewrite generalPurposeBitFlag_value in Hrec. unfold compressionMethod in Hrec.
  unfold localHeaderFields. cbv zeta.
  destruct (crcAndFileSizeKnown entry); destruct (compress entry);
    bind_inversion Hrec; bytes_of_writes;
    rewrite !length_app; read_bytes;
    unfold VERSION_NEEDED_TO_EXTRACT_UTF8 in *;
    repeat split; lia.
Qed.

Lemma local_file_header_layout_witness :
  exists header,
    getLocalFileHeader (storedEntry 5) = Ok header
    /\ localHeaderFields (storedEntry 5) header
    /\ header = [80; 75; 3; 4; 20; 0; 8; 8; 0; 0; 0; 0; 33; 0; 0; 0; 0; 0;
                 0; 0; 0; 0; 0; 0; 0; 0; 5; 0; 0; 0] ++ str "a.bin".
Proof.
  eexists. split; [reflexivity|]. split; [|reflexivity].
  apply local_file_header_layout. reflexivity.
Defined.

Lemma writeUInt16LE_fits v : (exists b, writeUInt16LE v = Ok b) <-> 0 <= v <= 0xffff.
Proof.
  split.
  - intros [b Hb]. apply writeUInt16LE_Ok in Hb. tauto.
  - intros Hv. rewrite writeUInt16LE_in_range by exact Hv. eauto.
Qed.

Lemma writeUInt32LE_opt_fits v :
  (exists b, writeUInt32LE_opt v = Ok b) <-> 0 <= stored v <= 0xffffffff.
Proof.
  split.
  - intros [b Hb]. apply writeUInt32LE_opt_Ok in Hb. tauto.
  - apply writeUInt32LE_opt_in_range.
Qed.

(** X5. [getLocalFileHeader] succeeds exactly when the DOS time, the DOS
    date and the length of the name fit 16 bits and, for an entry whose
    checksum and sizes are known beforehand, these fit 32 bits; otherwise it
    throws a RangeError. The local header has no ZIP64 form: a known size
    above 0xffffffff cannot be written, whatever [forceZip64Format] is. *)
Theorem local_file_header_fits (entry : Entry) :
  ((exists header, getLocalFileHeader entry = Ok header) <-> headerFits entry)
  /\ (forall e, getLocalFileHeader entry = Err e -> e = ErrOutOfRange)
  /\ (crcAndFileSizeKnown entry = true ->
      exceeds (uncompressedSize entry) 0xffffffff
      \/ exceeds (compressedSize entry) 0xffffffff ->
      getLocalFileHeader entry = Err ErrOutOfRange).
Proof.
  assert (Hiff : (exists header, getLocalFileHeader entry = Ok header) <-> headerFits entry).
  { unfold headerFits. split.
    - intros [header Hrec]. unfold getLocalFileHeader in Hrec. cbv zeta in Hrec.
      destruct (crcAndFileSizeKnown entry);
        bind_inversion Hrec; bytes_of_writes; read_bytes;
        (split; [lia|]); (split; [lia|]); (split; [lia|]);
        [intros _; lia|discriminate].
    - intros (Ht & Hd & Hn & Hk). unfold getLocalFileHeader. cbv zeta.
      rewrite generalPurposeBitFlag_value. unfold compressionMethod.
      rewrite (writeUInt32LE_in_range 0x04034b50) by lia.
      unfold VERSION_NEEDED_TO_EXTRACT_UTF8.
      rewrite (writeUInt16LE_in_range 20) by lia. cbn [rbind].
      rewrite (writeUInt16LE_in_range (if crcAndFileSizeKnown entry then _ else _))
        by (destruct (crcAndFileSizeKnown entry); lia).
      rewrite (writeUInt16LE_in_range (if compress entry then _ else _))
        by (destruct (compress entry); lia).
      rewrite (writeUInt16LE_in_range (lastModFileTime entry)) by exact Ht.
      rewrite (writeUInt16LE_in_range (lastModFileDate entry)) by exact Hd.
      cbn [rbind].
      assert (Hc : exists b, writeUInt32LE_opt
                     (if crcAndFileSizeKnown entry then crc32 entry else Some 0) = Ok b).
      { apply writeUInt32LE_opt_in_range.
        destruct (crcAndFileSizeKnown entry); [apply Hk; reflexivity|cbn; lia]. }
      assert (Hcs : exists b, writeUInt32LE_opt
                      (if crcAndFileSizeKnown entry then compressedSize entry else Some 0)
                    = Ok b).
      { apply writeUInt32LE_opt_in_range.
        destruct (crcAndFileSizeKnown entry); [apply Hk; reflexivity|cbn; lia]. }
      assert (Hus : exists b, writeUInt32LE_opt
                      (if crcAndFileSizeKnown entry then uncompressedSize entry else Some 0)
                    = Ok b).
      { apply writeUInt32LE_opt_in_range.
        destruct (crcAndFileSizeKnown entry); [apply Hk; reflexivity|cbn; lia]. }
      destruct Hc as [bc ->], Hcs as [bcs ->], Hus as [bus ->]. cbn [rbind].
      rewrite (writeUInt16LE_in_range (blen (utf8FileName entry)))
        by (unfold blen in *; lia).
      rewrite (writeUInt16LE_in_range 0) by lia. cbn [rbind]. eauto. }
  split; [exact Hiff|]. split.
  - intros e Hrec. unfold getLocalFileHeader in Hrec. cbv zeta in Hrec.
    range_error Hrec.
  - intros Hk Hbig.
    destruct (getLocalFileHeader entry) as [header|e] eqn:Hrec.
    + exfalso. destruct (proj1 Hiff (ex_intro _ header eq_refl)) as (_ & _ & _ & Hfit).
      destruct (Hfit Hk) as (_ & Hcs & Hus).
      destruct Hbig as [(v & Hv & Hlt)|(v & Hv & Hlt)];
        rewrite Hv in *; cbn [stored] in *; lia.
    + f_equal. unfold getLocalFileHeader in Hrec. cbv zeta in Hrec.
      range_error Hrec.
Qed.

Lemma local_file_header_fits_witness :
  headerFits (knownEntry 0xffffffff)
  /\ (exists header, getLocalFileHeader (knownEntry 0xffffffff) = Ok header)
  /\ getLocalFileHeader (knownEntry 0x100000000) = Err ErrOutOfRange.
Proof.
  assert (Hfit : headerFits (knownEntry 0xffffffff)).
  { unfold headerFits, stored, blen. cbn. intuition lia. }
  split; [exact Hfit|]. split.
  - apply (local_file_header_fits (knownEntry 0xffffffff)), Hfit.
  - apply (local_file_header_fits (knownEntry 0x100000000)); [reflexivity|].
    left. exists 0x100000000. split; [reflexivity|lia].
Defined.

(** X6. A data descriptor that is emitted is empty when checksum and sizes
    were known beforehand (bit 3 of the flags is then clear); otherwise it
    starts with the signature 0x08074b50 and the checksum, followed by the
    compressed and the uncompressed size on 4 bytes each (16 bytes in all),
    or on 8 bytes each (24 bytes) for an entry in ZIP64 form. *)
Theorem data_descriptor_layout (entry : Entry) (descriptor : Buffer) :
  getDataDescriptor entry = Ok descriptor -> dataDescriptorFields entry descriptor.
Proof.
  unfold getDataDescriptor, dataDescriptorFields. intros Hrec.
  destruct (crcAndFileSizeKnown entry); [congruence|].
  destruct (useZip64Format entry); cbn [negb] in Hrec;
    bind_inversion Hrec; bytes_of_writes; read_bytes; repeat split; lia.
Qed.

Lemma data_descriptor_layout_witness :
  getDataDescriptor (storedEntry 5)
  = Ok [80; 75; 7; 8; 0; 0; 0; 0; 5; 0; 0; 0; 5; 0; 0; 0]
  /\ dataDescriptorFields (storedEntry 5)
       [80; 75; 7; 8; 0; 0; 0; 0; 5; 0; 0; 0; 5; 0; 0; 0]
  /\ (exists descriptor,
        getDataDescriptor (storedEntry 0xffffffff) = Ok descriptor
        /\ blen descriptor = 24).
Proof.
  split; [reflexivity|]. split.
  - apply data_descriptor_layout. reflexivity.
  - eexists. split; [reflexivity|].
    apply (data_descriptor_layout (storedEntry 0xffffffff)). reflexivity.
Defined.

(** ** The central directory record and the end record *)

(** X7. A central directory record that is emitted starts with the
    signature 0x02014b50 and version made by 0x033f (Unix, 6.3), and holds
    the same flags, method, DOS time and date as the local header, the
    checksum, the lengths of name and comment, zeros for disk number and
    internal attributes, and the external attributes; the 46 fixed bytes are
    followed by the name, an extra field of the announced length, and the
    comment. *)
Theorem central_directory_record_layout (entry : Entry) (record : Buffer) :
  getCentralDirectoryRecord entry = Ok record -> centralDirectoryFields entry record.
Proof.
  unfold getCentralDirectoryRecord. cbv zeta. intros Hrec.
  rewrite generalPurposeBitFlag_value in Hrec. unfold compressionMethod in Hrec.
  unfold centralDirectoryFields.
  bind_inversion Hrec. bytes_of_writes.
  unfold VERSION_MADE_BY in *. change (Z.lor (Z.shiftl 3 8) 63) with 831 in *. read_bytes.
  destruct (crcAndFileSizeKnown entry); destruct (compress entry);
    (repeat (split; [lia|])); eexists; (split; [reflexivity|lia]).
Qed.

Lemma central_directory_record_layout_witness :
  exists record,
    getCentralDirectoryRecord (storedEntry 5) = Ok record
    /\ centralDirectoryFields (storedEntry 5) record
    /\ skipn 46 record = str "a.bin".
Proof.
  eexists. split; [reflexivity|]. split; [|reflexivity].
  apply central_directory_record_layout. reflexivity.
Defined.

(** X8. Asked only how long the end structure would be,
    [getEndOfCentralDirectoryRecord] never fails and answers 22, or 98 when
    the ZIP64 variant is needed: the length of the structure without the
    archive comment. The bytes it produces otherwise are that many plus the
    length of the comment. *)
Theorem end_record_length_told (record : EndRecord) :
  let told := if needZip64Format record then 98 else 22 in
  getEndOfCentralDirectoryRecord record true = Ok (EocdrLength told)
  /\ forall bytes,
       getEndOfCentralDirectoryRecord record false = Ok (EocdrBytes bytes) ->
       blen bytes = told + blen (r_comment record).
Proof.
  cbv zeta. split.
  - unfold getEndOfCentralDirectoryRecord. cbv zeta.
    destruct (needZip64Format record); reflexivity.
  - unfold getEndOfCentralDirectoryRecord. cbv zeta. intros bytes Hrec.
    destruct (needZip64Format record); cbn [negb] in Hrec;
      bind_inversion Hrec; subst bytes; bytes_of_writes;
      unfold blen; rewrite ?length_app; cbn [List.length]; lia.
Qed.

(** ** Entries *)

Lemma land_ffff_iff mode : Z.land mode 0xffff = mode <-> 0 <= mode <= 0xffff.
Proof.
  pose proof (land_mask mode 16 ltac:(lia)) as Hmask.
  change (2 ^ 16 - 1) with 65535 in Hmask. change (2 ^ 16) with 65536 in Hmask.
  rewrite Hmask. split.
  - intros Hm. pose proof (Z.mod_pos_bound mode 65536 ltac:(lia)). lia.
  - intros Hm. apply Z.mod_small. lia.
Qed.

Lemma shiftMode_value mode : 0 <= mode <= 0xffff -> shiftMode mode = mode * 65536.
Proof.
  intros Hm. unfold shiftMode. rewrite Z.shiftl_mul_pow2 by lia.
  change (2 ^ 16) with 65536. apply Z.mod_small. lia.
Qed.

(** X9. [new Entry(metadataPath, options)] checks, in this order, that the
    UTF-8 name has at most 0xffff bytes, that the mode is an integer from 0
    to 0xffff, and that the file comment has at most 0xffff bytes, and throws
    at the first check that fails. The entry it builds has the mode in the
    upper 16 bits of the external attributes, takes its uncompressed size
    from [options.size], has no offset yet, and counts checksum and sizes as
    known exactly when [crc32], [size] and [compressedSize] were all given. *)
Theorem Entry_new_outcome (now : Date) (metadataPath : jsstring) (options : Options) :
  match Entry_new now metadataPath options with
  | Err e => entryError metadataPath options = Some e
  | Ok entry =>
      entryError metadataPath options = None
      /\ utf8FileName entry = utf8Encode metadataPath
      /\ fileComment entry = commentOf options
      /\ (exists mode, o_mode options = Some mode
            /\ externalFileAttributes entry = mode * 65536
            /\ Z.shiftr (externalFileAttributes entry) 16 = mode)
      /\ crc32 entry = o_crc32 options
      /\ uncompressedSize entry = o_size options
      /\ compressedSize entry = o_compressedSize options
      /\ relativeOffsetOfLocalHeader entry = None
      /\ (crcAndFileSizeKnown entry = true <->
          o_crc32 options <> None /\ o_size options <> None
          /\ o_compressedSize options <> None)
  end.
Proof.
  unfold Entry_new, entryError, commentOf, fileCommentBytes. cbv zeta.
  destruct (blen (utf8Encode metadataPath) >? 65535); [reflexivity|].
  destruct (o_mode options) as [mode|]; [|reflexivity].
  destruct (Z.eqb_spec (Z.land mode 65535) mode) as [Hm|Hm]; cbn [negb].
  - apply land_ffff_iff in Hm.
    destruct (Z.leb_spec 0 mode); [|lia]. destruct (Z.leb_spec mode 65535); [|lia].
    cbn [andb].
    assert (Hknown : forall (a b c : option Z),
               notNull a && notNull b && notNull c = true
               <-> a <> None /\ b <> None /\ c <> None).
    { intros [a|] [b|] [c|]; cbn; intuition congruence. }
    assert (Hattr : shiftMode mode = mode * 65536 /\ Z.shiftr (shiftMode mode) 16 = mode).
    { rewrite shiftMode_value by lia. split; [reflexivity|].
      rewrite Z.shiftr_div_pow2 by lia. change (2 ^ 16) with 65536.
      apply Z.div_mul. lia. }
    destruct (o_fileComment options) as [c|]; cbv beta iota.
    + match goal with
      | |- context [?x >? 65535] => destruct (x >? 65535)
      end; [exact eq_refl|]. cbv iota.
      cbn [utf8FileName fileComment externalFileAttributes crc32 uncompressedSize
           compressedSize relativeOffsetOfLocalHeader crcAndFileSizeKnown].
      repeat (split; [reflexivity|]). split; [exists mode; tauto|].
      repeat (split; [reflexivity|]). apply Hknown.
    + cbn [utf8FileName fileComment externalFileAttributes crc32 uncompressedSize
           compressedSize relativeOffsetOfLocalHeader crcAndFileSizeKnown].
      change (blen [] >? 65535) with false. cbv iota.
      repeat (split; [reflexivity|]). split; [exists mode; tauto|].
      repeat (split; [reflexivity|]). apply Hknown.
  - assert (Hr : (0 <=? mode) && (mode <=? 65535) = false).
    { destruct (Z.leb_spec 0 mode); [|reflexivity].
      destruct (Z.leb_spec mode 65535); [|reflexivity].
      exfalso. apply Hm, land_ffff_iff. lia. }
    rewrite Hr. reflexivity.
Qed.

(** ** A single operation on an archive at rest *)

Lemma Entry_new_Ok now metadataPath options entry :
  Entry_new now metadataPath options = Ok entry ->
  utf8FileName entry = utf8Encode metadataPath
  /\ crc32 entry = o_crc32 options
  /\ uncompressedSize entry = o_size options
  /\ compressedSize entry = o_compressedSize options
  /\ compress entry = truthy (o_compress options)
  /\ crcAndFileSizeKnown entry
     = notNull (o_crc32 options) && notNull (o_size options)
       && notNull (o_compressedSize options)
  /\ forceZip64Format entry = truthy (o_forceZip64Format options)
  /\ relativeOffsetOfLocalHeader entry = None.
Proof.
  unfold Entry_new. cbv zeta.
  destruct (_ >? 65535); [discriminate|].
  destruct (o_mode options) as [mode|]; [|discriminate].
  destruct (negb _); [discriminate|].
  destruct (o_fileComment options) as [c|].
  - destruct (_ >? 65535); [discriminate|]. intros [= <-]. repeat split.
  - intros [= <-]. repeat split.
Qed.

Section Operations.
Context `{Collaborators}.

(** A call on an archive at rest puts one reaction on the queue; once what
    it awaits is there, a step of the chain runs it. *)
Lemma run_single (a : Archive) (c : Call) (prepared : bool) (t : Task) :
  atRest a ->
  lowlevel (fst (invoke a c)) = enqueue (lowlevel a) prepared t ->
  isAddTask t ->
  zip (run a [Invoke c; Prepared (nextId (lowlevel a)); Advance])
  = startEntry (zip a) (nextId (lowlevel a)) t
  /\ pending (lowlevel (run a [Invoke c; Prepared (nextId (lowlevel a)); Advance])) = [].
Proof.
  intros (Hc & Hp & _) Hinv Ht.
  cbn [run fold_left step lowlevel]. rewrite Hinv.
  unfold zip. cbn [lowlevel]. unfold advance, prepare, enqueue.
  cbn [self pending nextId]. rewrite Hp. cbn [app List.map p_id].
  rewrite Nat.eqb_refl. cbn [setPrepared p_prepared negb p_id p_task].
  unfold zip in Hc. rewrite Hc.
  rewrite (react_add _ _ {| p_id := nextId (lowlevel a); p_prepared := true; p_task := t |} Ht).
  cbn [self pending p_id p_task]. split; reflexivity.
Qed.

(** X10. A buffer added to an archive at rest, once its compression (if
    any) has finished and the chain has made a step: the output has received
    the local header, the buffer as it is stored (deflated or not) and an
    empty data descriptor; the cursor has advanced by the header and the
    payload; the operation has fulfilled with an entry whose offset is the
    cursor before, whose checksum is that of the buffer given, whose sizes are
    those of the buffer given and of the payload, all known beforehand; and
    the archive is at rest again. *)
Theorem add_buffer_output (a : Archive) (buffer : Buffer) (metadataPath : jsstring)
    (options : Options) (now : Date) (stored : jsstring) (payload : Buffer)
    (entry : Entry) (header : Buffer) :
  atRest a ->
  validateMetadataPath metadataPath false = Ok stored ->
  blen buffer <= 0x3fffffff ->
  (if default true (o_compress options) then deflateRaw buffer else Ok buffer) = Ok payload ->
  FileEntry_new now stored
    (bufferOptions options (default true (o_compress options))
       (crc32Unsigned buffer 0) (blen buffer) (blen payload)) = Ok entry ->
  getLocalFileHeader (setOffset entry (outputStreamCursor (zip a))) = Ok header ->
  let id := nextId (lowlevel a) in
  let a' := run a [Invoke (CallAddBuffer buffer metadataPath options now);
                   Prepared id; Advance] in
  output a' = output a ++ [header; payload; []]
  /\ outputStreamCursor (zip a') = outputStreamCursor (zip a) + blen header + blen payload
  /\ settled (zip a') !! id
     = Some (SettledEntry (Ok (setOffset entry (outputStreamCursor (zip a)))))
  /\ atRest a'
  /\ crc32 entry = Some (crc32Unsigned buffer 0)
  /\ uncompressedSize entry = Some (blen buffer)
  /\ compressedSize entry = Some (blen payload)
  /\ crcAndFileSizeKnown entry = true.
Proof.
  intros Hrest Hpath Hlen Hpayload Hentry Hheader id a'.
  pose proof Hrest as (Hchain & Hpending & Hqueue & Hended & Hdestroyed).
  destruct (Entry_new_Ok _ _ _ _ Hentry)
    as (_ & Hcrc & Hsize & Hcsize & _ & Hknown & _ & _).
  cbn [bufferOptions o_crc32 o_size o_compressedSize notNull andb] in Hcrc, Hsize, Hcsize, Hknown.
  destruct (run_single a (CallAddBuffer buffer metadataPath options now)
              (negb (default true (o_compress options)))
              (TaskAddBuffer stored options (default true (o_compress options))
                 (crc32Unsigned buffer 0) (blen buffer)
                 (if default true (o_compress options) then deflateRaw buffer else Ok buffer)
                 now) Hrest) as [Hzip Hpend].
  { cbn [invoke withLowLevel fst lowlevel]. unfold addBuffer. rewrite Hpath.
    destruct (Z.gtb_spec (blen buffer) 1073741823) as [Hgt|_]; [lia|].
    cbv zeta. apply addEntry_open, Hqueue. }
  { exact I. }
  fold id in Hzip, Hpend. fold a' in Hzip, Hpend.
  assert (Hstart : zip a'
    = withSettled
        (withChain
           (writeBuffer
              (writeBuffer (writeBuffer (zip a) header) payload) [])
           Fulfilled)
        id (SettledEntry (Ok (setOffset entry (outputStreamCursor (zip a)))))).
  { rewrite Hzip. unfold startEntry. cbn [callback]. rewrite Hpayload. cbn [rbind].
    change (FileEntry_new now stored _)
      with (FileEntry_new now stored
              (bufferOptions options (default true (o_compress options))
                 (crc32Unsigned buffer 0) (blen buffer) (blen payload))).
    rewrite Hentry. cbn [rbind]. cbv zeta. rewrite Hheader.
    unfold afterWrite, checkCompressedSize.
    cbn [setOffset compressedSize]. rewrite Hcsize.
    cbn [writeBuffer withReadable outputStreamCursor].
    replace (outputStreamCursor (zip a) + blen header + blen payload
             - (outputStreamCursor (zip a) + blen header)) with (blen payload) by lia.
    rewrite Z.eqb_refl. cbn [negb].
    unfold getDataDescriptor. cbn [setOffset crcAndFileSizeKnown]. rewrite Hknown.
    reflexivity. }
  rewrite (writeBuffer_open (zip a)) in Hstart by assumption.
  rewrite !writeBuffer_open in Hstart by reflexivity.
  unfold output. rewrite Hstart.
  cbn [readable received withSettled withChain withReadable outputStreamCursor
       settled chain hasQueue].
  rewrite <- !app_assoc. cbn [app].
  split; [reflexivity|]. split; [unfold blen; cbn [List.length]; lia|].
  split; [apply lookup_insert_eq|]. split.
  - unfold atRest. rewrite Hpend, Hstart.
    cbn [readable received withSettled withChain withReadable outputStreamCursor
         settled chain hasQueue ended destroyed].
    auto.
  - auto.
Qed.

(** X11. An empty directory added to an archive at rest, after one step of
    the chain: the output has received the local header and the data
    descriptor, the operation has fulfilled and the archive is at rest. The
    entry is not compressed, has checksum 0 and compressed size 0, and takes
    its uncompressed size from [options.size] (the [uncompressedSize: 0] of
    the constructor is not read): unless the caller gave a size, checksum and
    sizes do not count as known, and the descriptor is the signature followed
    by zeros, 16 bytes, or 24 in ZIP64 form. *)
Theorem add_empty_directory_output (a : Archive) (metadataPath : jsstring)
    (options : Options) (now : Date) (stored : jsstring) (entry : Entry)
    (header : Buffer) :
  atRest a ->
  validateMetadataPath metadataPath true = Ok stored ->
  DirectoryEntry_new now stored options = Ok entry ->
  getLocalFileHeader (setOffset entry (outputStreamCursor (zip a))) = Ok header ->
  let id := nextId (lowlevel a) in
  let placed := setOffset entry (outputStreamCursor (zip a)) in
  let a' := run a [Invoke (CallAddEmptyDirectory metadataPath options now);
                   Prepared id; Advance] in
  output a' = output a ++ [header; directoryDescriptor placed]
  /\ outputStreamCursor (zip a')
     = outputStreamCursor (zip a) + blen header + blen (directoryDescriptor placed)
  /\ settled (zip a') !! id = Some (SettledEntry (Ok placed))
  /\ atRest a'
  /\ compress entry = false
  /\ crc32 entry = Some 0
  /\ compressedSize entry = Some 0
  /\ uncompressedSize entry = o_size options
  /\ crcAndFileSizeKnown entry = notNull (o_size options).
Proof.
  intros Hrest Hpath Hentry Hheader id placed a'.
  pose proof Hrest as (Hchain & Hpending & Hqueue & Hended & Hdestroyed).
  destruct (Entry_new_Ok _ _ _ _ Hentry)
    as (_ & Hcrc & Hsize & Hcsize & Hcompress & Hknown & _ & _).
  cbn [o_crc32 o_size o_compressedSize o_compress notNull andb truthy default
       from_option id] in Hcrc, Hsize, Hcsize, Hknown, Hcompress.
  rewrite andb_true_r in Hknown.
  destruct (run_single a (CallAddEmptyDirectory metadataPath options now) true
              (TaskAddEmptyDirectory stored options now) Hrest) as [Hzip Hpend].
  { cbn [invoke withLowLevel fst lowlevel]. unfold addEmptyDirectory. rewrite Hpath.
    apply addEntry_open, Hqueue. }
  { exact I. }
  fold id in Hzip, Hpend. fold a' in Hzip, Hpend.
  assert (Hdescriptor : getDataDescriptor placed = Ok (directoryDescriptor placed)).
  { unfold getDataDescriptor, directoryDescriptor. subst placed.
    cbn [setOffset crcAndFileSizeKnown crc32 compressedSize uncompressedSize].
    rewrite Hknown, Hcrc, Hcsize, Hsize.
    destruct (o_size options) as [size|]; [reflexivity|]. cbn [notNull].
    destruct (useZip64Format _); reflexivity. }
  assert (Hstart : zip a'
    = withSettled
        (withChain
           (writeBuffer (writeBuffer (zip a) header) (directoryDescriptor placed))
           Fulfilled)
        id (SettledEntry (Ok placed))).
  { rewrite Hzip. unfold startEntry. cbn [callback]. rewrite Hentry. cbn [rbind].
    cbv zeta. rewrite Hheader. fold placed.
    unfold afterWrite, checkCompressedSize.
    replace (compressedSize placed) with (Some 0) by (symmetry; exact Hcsize).
    rewrite Z.sub_diag. cbn [Z.eqb negb]. rewrite Hdescriptor. reflexivity. }
  rewrite (writeBuffer_open (zip a)) in Hstart by assumption.
  rewrite !writeBuffer_open in Hstart by reflexivity.
  unfold output. rewrite Hstart.
  cbn [readable received withSettled withChain withReadable outputStreamCursor
       settled chain hasQueue].
  rewrite <- !app_assoc. cbn [app].
  split; [reflexivity|]. split; [reflexivity|].
  split; [apply lookup_insert_eq|]. split.
  - unfold atRest. rewrite Hpend, Hstart.
    cbn [readable received withSettled withChain withReadable outputStreamCursor
         settled chain hasQueue ended destroyed].
    auto.
  - auto.
Qed.

End Operations.

Lemma add_buffer_output_witness :
  atRest newArchive
  /\ output (run newArchive [Invoke helloBufferCall; Prepared 0; Advance])
     = [helloHeader; str "hello"; []]
  /\ crc32 helloEntry = Some 0x3610A686.
Proof.
  assert (Hrest : atRest newArchive) by (repeat split).
  split; [exact Hrest|].
  destruct (add_buffer_output newArchive (str "hello") (str "a.txt") storeOptions
              sampleDate (str "a.txt") (str "hello") helloEntry helloHeader Hrest)
    as (Hout & _ & _ & _ & Hcrc & _);
    [reflexivity|vm_compute; discriminate|reflexivity|vm_compute; reflexivity
    |vm_compute; reflexivity|].
  split; [exact Hout|exact Hcrc].
Defined.

Lemma add_empty_directory_output_witness :
  atRest newArchive
  /\ output (run newArchive [Invoke directoryCall; Prepared 0; Advance])
     = [directoryHeader; [80; 75; 7; 8; 0; 0; 0; 0; 0; 0; 0; 0; 0; 0; 0; 0]]
  /\ crcAndFileSizeKnown directoryEntry = false.
Proof.
  assert (Hrest : atRest newArchive) by (repeat split).
  split; [exact Hrest|].
  destruct (add_empty_directory_output newArchive (str "d") noOptions sampleDate
              (str "d/") directoryEntry directoryHeader Hrest)
    as (Hout & _ & _ & _ & _ & _ & _ & _ & Hknown);
    [reflexivity|vm_compute; reflexivity|vm_compute; reflexivity|].
  split; [exact Hout|exact Hknown].
Defined.

(** ** Stored paths *)

Lemma replaceBackslashes_clean s : ~ In chBackslash (replaceBackslashes s).
Proof.
  unfold replaceBackslashes. intros Hin. apply in_map_iff in Hin as (c & Hc & _).
  destruct (Z.eqb_spec c chBackslash); [discriminate|congruence].
Qed.

Lemma replaceBackslashes_fixed s : ~ In chBackslash s -> replaceBackslashes s = s.
Proof.
  unfold replaceBackslashes. induction s as [|c rest IH]; intros Hn; [reflexivity|].
  cbn [List.map]. destruct (Z.eqb_spec c chBackslash) as [->|_].
  - exfalso. apply Hn. left. reflexivity.
  - f_equal. apply IH. intros Hin. apply Hn. right. exact Hin.
Qed.

Lemma split_snoc sep s : split sep (s ++ [sep]) = split sep s ++ [[]].
Proof.
  induction s as [|c rest IH]; cbn [app split].
  - rewrite Z.eqb_refl. reflexivity.
  - destruct (c =? sep); [rewrite IH; reflexivity|].
    rewrite IH. pose proof (split_nonempty sep rest) as Hne.
    destruct (split sep rest) as [|seg segs]; [congruence|reflexivity].
Qed.

(** X12. A path that [validateMetadataPath] has accepted is accepted again
    and returned unchanged, for the same kind of entry; it is not empty and
    holds no backslash. *)
Theorem validateMetadataPath_idempotent (metadataPath stored : jsstring)
    (isDirectory : bool) :
  validateMetadataPath metadataPath isDirectory = Ok stored ->
  validateMetadataPath stored isDirectory = Ok stored
  /\ stored <> []
  /\ ~ In chBackslash stored.
Proof.
  unfold validateMetadataPath at 1. cbv zeta.
  case_bool_decide as Hempty; [discriminate|].
  set (replaced := replaceBackslashes metadataPath).
  assert (Hclean : ~ In chBackslash replaced) by apply replaceBackslashes_clean.
  assert (Hne : replaced <> []).
  { subst replaced. destruct metadataPath; [congruence|discriminate]. }
  destruct (testDriveLetter replaced) eqn:Hdrive; [discriminate|].
  destruct (testLeadingSlash replaced) eqn:Hlead; [discriminate|]. cbn [orb].
  destruct (indexOf (split chSlash replaced) [chDot; chDot] =? -1) eqn:Hdots;
    [|discriminate]. cbn [negb].
  assert (Hsame : forall d, (d = true \/ testTrailingSlash replaced = false) ->
            validateMetadataPath replaced d
            = if d then Ok (if negb (testTrailingSlash replaced)
                            then replaced ++ [chSlash] else replaced)
              else Ok replaced).
  { intros d Hd. unfold validateMetadataPath. cbv zeta.
    case_bool_decide; [contradiction|].
    rewrite (replaceBackslashes_fixed replaced Hclean), Hdrive, Hlead, Hdots.
    cbn [orb negb]. destruct d; [reflexivity|].
    destruct Hd as [Hd|Hd]; [discriminate|rewrite Hd; reflexivity]. }
  destruct isDirectory.
  - destruct (testTrailingSlash replaced) eqn:Htrail; cbn [negb]; intros [= <-].
    + rewrite (Hsame true) by auto. rewrite ?Htrail. auto.
    + assert (Hclean' : ~ In chBackslash (replaced ++ [chSlash])).
      { intros Hin. apply in_app_or in Hin as [Hin|[Hin|[]]]; [contradiction|discriminate]. }
      split; [|split; [intros Hx; apply app_eq_nil in Hx as [_ Hx]; discriminate|exact Hclean']].
      unfold validateMetadataPath. cbv zeta.
      case_bool_decide as Hx; [apply app_eq_nil in Hx as [_ Hx]; discriminate|].
      rewrite (replaceBackslashes_fixed _ Hclean').
      assert (Hd' : testDriveLetter (replaced ++ [chSlash]) = false).
      { destruct replaced as [|c [|d rest]];
          [congruence|cbn; apply andb_false_r|exact Hdrive]. }
      assert (Hl' : testLeadingSlash (replaced ++ [chSlash]) = false).
      { destruct replaced as [|c rest]; [congruence|exact Hlead]. }
      assert (Hi' : (indexOf (split chSlash (replaced ++ [chSlash])) [chDot; chDot] =? -1)
                    = true).
      { destruct (indexOf (split chSlash (replaced ++ [chSlash])) [chDot; chDot] =? -1)
          eqn:Hi; [reflexivity|].
        apply indexOf_found in Hi. rewrite split_snoc in Hi.
        apply in_app_or in Hi as [Hi|[Hi|[]]]; [|discriminate].
        apply indexOf_found in Hi. congruence. }
      rewrite Hd', Hl', Hi'. cbn [orb negb].
      rewrite (proj2 (testTrailingSlash_iff _) (ex_intro _ replaced eq_refl)).
      reflexivity.
  - destruct (testTrailingSlash replaced) eqn:Htrail; [discriminate|]. intros [= <-].
    rewrite (Hsame false) by auto. auto.
Qed.

Lemma validateMetadataPath_idempotent_witness :
  validateMetadataPath [97; 92; 98] true = Ok (str "a/b/")
  /\ validateMetadataPath (str "a/b/") true = Ok (str "a/b/").
Proof.
  assert (Hfirst : validateMetadataPath [97; 92; 98] true = Ok (str "a/b/")) by reflexivity.
  split; [exact Hfirst|].
  apply (validateMetadataPath_idempotent _ _ _ Hfirst).
Defined.

(** ** Where the local headers are *)

Lemma startedAs_refl entry : startedAs entry entry.
Proof. repeat split. Qed.

Lemma startedAs_trans e1 e2 e3 : startedAs e1 e2 -> startedAs e2 e3 -> startedAs e1 e3.
Proof.
  unfold startedAs. intros (A1 & A2 & A3 & A4 & A5 & A6 & A7 & A8 & A9)
                           (B1 & B2 & B3 & B4 & B5 & B6 & B7 & B8 & B9).
  repeat split; congruence.
Qed.

Lemma headerAt_app chunks extra entry :
  headerAt chunks entry -> headerAt (chunks ++ extra) entry.
Proof.
  intros (before & header & after & started & -> & Hoff & Hheader & Hs).
  exists before, header, (after ++ extra), started.
  split; [rewrite <- app_assoc; reflexivity|]. auto.
Qed.

Lemma headerAt_startedAs chunks entry entry' :
  headerAt chunks entry -> startedAs entry entry' -> headerAt chunks entry'.
Proof.
  intros (before & header & after & started & -> & Hoff & Hheader & Hs) Hs'.
  exists before, header, after, started. split; [reflexivity|].
  split; [destruct Hs' as (_ & _ & _ & _ & _ & _ & _ & _ & ->); exact Hoff|].
  split; [exact Hheader|]. eapply startedAs_trans; eassumption.
Qed.

Lemma checkCompressedSize_startedAs entry forwarded entry' :
  checkCompressedSize entry forwarded = Ok entry' -> startedAs entry entry'.
Proof.
  unfold checkCompressedSize. destruct (compressedSize entry) as [declared|].
  - destruct (negb _); [discriminate|]. intros [= <-]. apply startedAs_refl.
  - intros [= <-]. repeat split.
Qed.

Lemma onEnd_startedAs entry crc size entry' :
  onEnd entry crc size = inr entry' -> startedAs entry entry'.
Proof.
  unfold onEnd. cbv zeta. cbn [setCrc32 uncompressedSize].
  destruct (uncompressedSize entry) as [declared|].
  - destruct (negb _); [discriminate|]. intros [= <-]. repeat split.
  - intros [= <-]. repeat split.
Qed.

Section Offsets.
Context `{Collaborators}.

Lemma located_insert z id v chunks :
  located z ->
  (exists extra, chunks = received (readable z) ++ extra) ->
  (forall entry, v = SettledEntry (Ok entry) -> headerAt chunks entry) ->
  forall id' entry,
    <[id := v]> (settled z) !! id' = Some (SettledEntry (Ok entry)) ->
    headerAt chunks entry.
Proof.
  intros Hloc [extra ->] Hv id' entry Hl.
  destruct (decide (id = id')) as [->|Hne].
  - rewrite lookup_insert_eq in Hl. injection Hl as ->. apply Hv. reflexivity.
  - rewrite lookup_insert_ne in Hl by exact Hne. apply headerAt_app, (Hloc _ _ Hl).
Qed.

Lemma tracked_reject z id e :
  ended (readable z) = false -> located z -> tracked (reject z id e).
Proof.
  intros He Hloc. unfold tracked, reject, emitError, counted, located.
  destruct errorListener;
    cbn [readable withSettled withChain withReadable chain settled ended destroy received];
    (split; [exact He|]); (split; [|exact I]);
    apply (located_insert z id _ (received (readable z)) Hloc).
  - exists []. rewrite app_nil_r. reflexivity.
  - intros entry [=].
  - exists []. rewrite app_nil_r. reflexivity.
  - intros entry [=].
Qed.

(** The reaction of [addEntry] after the payload: the descriptor is written
    and the operation fulfils, or it rejects. *)
Lemma tracked_afterWrite z id entry cursor :
  ended (readable z) = false -> destroyed (readable z) = false ->
  outputStreamCursor z = totalLength (received (readable z)) ->
  located z -> headerAt (received (readable z)) entry ->
  tracked (afterWrite z id entry cursor).
Proof.
  intros He Hd Hc Hloc Hat. unfold afterWrite.
  destruct (checkCompressedSize entry _) as [entry'|e] eqn:Hcheck;
    [|apply tracked_reject; assumption].
  destruct (getDataDescriptor entry') as [descriptor|e];
    [|apply tracked_reject; assumption].
  unfold tracked, counted, located, writeBuffer.
  rewrite push_open by assumption.
  cbn [readable withSettled withChain withReadable chain settled ended destroyed
       received outputStreamCursor].
  split; [reflexivity|]. split.
  - apply (located_insert z id _ _ Hloc); [eauto|].
    intros entry0 [= <-]. apply headerAt_app.
    eapply headerAt_startedAs; [exact Hat|].
    eapply checkCompressedSize_startedAs, Hcheck.
  - split; [reflexivity|]. rewrite totalLength_app, Hc.
    unfold totalLength. cbn [fold_right]. lia.
Qed.

Lemma tracked_startEntry z id t :
  tracked z -> chain z = Fulfilled -> tracked (startEntry z id t).
Proof.
  intros (He & Hloc & Hcount) Hchain. unfold counted in Hcount. rewrite Hchain in Hcount.
  destruct Hcount as [Hd Hc]. unfold startEntry.
  destruct (callback t) as [[entry write]|e]; [|apply tracked_reject; assumption].
  cbv zeta.
  destruct (getLocalFileHeader _) as [header|e] eqn:Hheader;
    [|apply tracked_reject; assumption].
  rewrite (writeBuffer_open z header He Hd).
  set (z1 := withReadable z _ _).
  assert (He1 : ended (readable z1) = false) by reflexivity.
  assert (Hd1 : destroyed (readable z1) = false) by reflexivity.
  assert (Hc1 : outputStreamCursor z1 = totalLength (received (readable z1))).
  { subst z1. cbn [withReadable outputStreamCursor readable received].
    rewrite totalLength_app, Hc. unfold totalLength. cbn [fold_right]. lia. }
  assert (Hloc1 : located z1).
  { intros id' entry' Hl. subst z1. cbn [withReadable settled readable received] in *.
    apply headerAt_app, (Hloc _ _ Hl). }
  assert (Hat1 : headerAt (received (readable z1))
                   (setOffset entry (outputStreamCursor z))).
  { exists (received (readable z)), header, [], (setOffset entry (outputStreamCursor z)).
    split; [reflexivity|]. split; [cbn [setOffset relativeOffsetOfLocalHeader]; congruence|].
    split; [exact Hheader|apply startedAs_refl]. }
  destruct write as [readStream|buffer|].
  - unfold tracked, counted, located.
    cbn [withChain chain readable settled run_compressedSize run_entry outputStreamCursor].
    split; [exact He1|]. split; [exact Hloc1|].
    split; [exact Hd1|]. split; [lia|exact Hat1].
  - rewrite (writeBuffer_open z1 buffer He1 Hd1).
    apply tracked_afterWrite; cbn [withReadable readable received ended destroyed
                                   outputStreamCursor settled]; try reflexivity.
    + rewrite totalLength_app, Hc1. unfold totalLength. cbn [fold_right]. lia.
    + intros id' entry' Hl. apply headerAt_app, (Hloc1 _ _ Hl).
    + apply headerAt_app, Hat1.
  - apply tracked_afterWrite; assumption.
Qed.

Lemma tracked_advanceStream z r :
  tracked z -> chain z = Streaming r -> tracked (advanceStream z r).
Proof.
  intros (He & Hloc & Hcount) Hchain. unfold counted in Hcount. rewrite Hchain in Hcount.
  destruct Hcount as (Hd & Hc & Hat). unfold advanceStream.
  destruct (rs_chunks (run_source r)) as [|chunk rest].
  - destruct (rs_end (run_source r)).
    + unfold streamEnd. cbv zeta.
      rewrite (pushAll_open _ _ He Hd).
      set (outs := compressFlush (run_entry r) (run_deflate r)).
      destruct (onEnd _ _ _) as [e|entry'] eqn:Hend.
      * unfold tracked, counted, located.
        cbn [withChain withReadable chain readable settled ended received].
        split; [reflexivity|]. split; [|exact I].
        intros id entry Hl. apply headerAt_app, (Hloc _ _ Hl).
      * apply tracked_afterWrite;
          cbn [withReadable readable received ended destroyed outputStreamCursor settled];
          try reflexivity.
        -- rewrite totalLength_app. lia.
        -- intros id entry Hl. apply headerAt_app, (Hloc _ _ Hl).
        -- apply headerAt_app. eapply headerAt_startedAs; [exact Hat|].
           eapply onEnd_startedAs, Hend.
    + unfold tracked, counted. rewrite Hchain. auto.
  - unfold streamChunk. cbv zeta.
    destruct (compressChunk _ _ _) as [d outs].
    rewrite (pushAll_open _ _ He Hd).
    unfold tracked, counted, located.
    cbn [withChain withReadable chain readable settled ended destroyed received
         outputStreamCursor run_compressedSize run_entry].
    split; [reflexivity|]. split.
    + intros id entry Hl. apply headerAt_app, (Hloc _ _ Hl).
    + split; [reflexivity|]. split; [rewrite totalLength_app; lia|].
      apply headerAt_app, Hat.
Qed.

Lemma tracked_advance heap l :
  addsOnly l -> tracked (self l) -> tracked (self (advance heap l)).
Proof.
  intros (Hadds & _ & _) Htr. unfold advance.
  destruct (chain (self l)) as [|r|e|e] eqn:Hchain.
  - destruct (pending l) as [|p rest]; [exact Htr|].
    destruct (negb (p_prepared p)); [exact Htr|].
    apply Forall_cons in Hadds as [Hp _].
    cbn [self]. rewrite (react_add _ _ _ Hp). apply tracked_startEntry; assumption.
  - cbn [self]. apply tracked_advanceStream; assumption.
  - destruct (pending l) as [|p rest]; [exact Htr|].
    apply Forall_cons in Hadds as [Hp _].
    cbn [self]. rewrite (rejection_add _ _ Hp).
    destruct Htr as (He & Hloc & _). unfold tracked, counted, located.
    cbn [withSettled readable settled chain]. rewrite Hchain.
    split; [exact He|]. split; [|exact I].
    apply (located_insert (self l) (p_id p) _ _ Hloc).
    + exists []. rewrite app_nil_r. reflexivity.
    + intros entry [=].
  - exact Htr.
Qed.

Lemma tracked_new : tracked newZipFile.
Proof.
  unfold tracked, located, counted. cbn. split; [reflexivity|]. split; [|auto].
  intros id entry Hl. rewrite lookup_empty in Hl. discriminate.
Qed.

(** While only adds are made the object stays tracked. *)
Lemma tracked_run events : forall a,
  Forall notEnd events -> addsOnly (lowlevel a) -> tracked (zip a) ->
  addsOnly (lowlevel (run a events)) /\ tracked (zip (run a events)).
Proof.
  induction events as [|ev events IH]; intros a Hev Ha Htr; [split; assumption|].
  apply Forall_cons in Hev as [Hev Hrest].
  change (run a (ev :: events)) with (run (step a ev) events).
  apply IH; [exact Hrest| |]; destruct ev as [c|id| |id]; cbn [step lowlevel]; unfold zip.
  - destruct (invoke_uniform c Hev) as [Hsame|(prepared & t & Ht & Hadd)].
    + rewrite Hsame. exact Ha.
    + rewrite (Hadd a) by apply Ha. apply addsOnly_enqueue; assumption.
  - apply addsOnly_prepare, Ha.
  - apply addsOnly_advance, Ha.
  - rewrite resume_add by exact Ha. exact Ha.
  - destruct (invoke_uniform c Hev) as [Hsame|(prepared & t & Ht & Hadd)].
    + rewrite Hsame. exact Htr.
    + rewrite (Hadd a) by apply Ha. exact Htr.
  - exact Htr.
  - cbn [lowlevel]. apply tracked_advance; assumption.
  - rewrite resume_add by exact Ha. exact Htr.
Qed.

End Offsets.

(** X13. Whatever adds are made and however their reactions, preparations
    and continuations interleave (no [end()] among them), every entry an
    operation has fulfilled with records as its offset the number of bytes
    pushed before its local header: the header written for it, with the same
    name, times, flags and offset, is in the output exactly there. *)
Theorem local_headers_at_offsets `{Collaborators} (events : list Event)
    (id : nat) (entry : Entry) :
  Forall notEnd events ->
  settled (zip (run newArchive events)) !! id = Some (SettledEntry (Ok entry)) ->
  headerAt (output (run newArchive events)) entry.
Proof.
  intros Hev Hl.
  destruct (tracked_run events newArchive Hev addsOnly_new tracked_new)
    as [_ (_ & Hloc & _)].
  exact (Hloc _ _ Hl).
Qed.

(** X14. Under the same conditions, whenever the chain is at rest (the last
    reaction that ran has fulfilled) the output is open and
    [outputStreamCursor] is the number of bytes pushed so far; while a
    stream is being read the cursor is short of it by the payload bytes
    forwarded so far. *)
Theorem cursor_counts_output `{Collaborators} (events : list Event) :
  Forall notEnd events ->
  let a := run newArchive events in
  ended (readable (zip a)) = false
  /\ (chain (zip a) = Fulfilled ->
      destroyed (readable (zip a)) = false
      /\ outputStreamCursor (zip a) = totalLength (output a))
  /\ (forall r, chain (zip a) = Streaming r ->
      destroyed (readable (zip a)) = false
      /\ outputStreamCursor (zip a) + run_compressedSize r = totalLength (output a)).
Proof.
  intros Hev a.
  destruct (tracked_run events newArchive Hev addsOnly_new tracked_new)
    as [_ (He & _ & Hcount)].
  fold a in He, Hcount. unfold counted in Hcount. split; [exact He|]. split.
  - intros Hc. rewrite Hc in Hcount. exact Hcount.
  - intros r Hc. rewrite Hc in Hcount. destruct Hcount as (Hd & Hcur & _). auto.
Qed.

Lemma local_headers_at_offsets_witness :
  Forall notEnd outOfOrder
  /\ settled (zip (run newArchive outOfOrder)) !! 1%nat
     = Some (SettledEntry (Ok secondEntry))
  /\ relativeOffsetOfLocalHeader secondEntry = Some 54
  /\ headerAt (output (run newArchive outOfOrder)) secondEntry.
Proof.
  assert (Hev : Forall notEnd outOfOrder) by (repeat constructor).
  assert (Hl : settled (zip (run newArchive outOfOrder)) !! 1%nat
               = Some (SettledEntry (Ok secondEntry))) by (vm_compute; reflexivity).
  split; [exact Hev|]. split; [exact Hl|]. split; [reflexivity|].
  exact (local_headers_at_offsets outOfOrder 1 secondEntry Hev Hl).
Defined.

Lemma cursor_counts_output_witness :
  Forall notEnd outOfOrder
  /\ outputStreamCursor (zip (run newArchive outOfOrder)) = 144
  /\ totalLength (output (run newArchive outOfOrder)) = 144.
Proof.
  assert (Hev : Forall notEnd outOfOrder) by (repeat constructor).
  split; [exact Hev|].
  destruct (cursor_counts_output outOfOrder Hev) as (_ & Hrest & _).
  destruct Hrest as [_ Hcursor]; [reflexivity|].
  split; [|rewrite <- Hcursor]; vm_compute; reflexivity.
Defined.

(** ** After a failure *)

Section Failures.
Context `{Collaborators}.

Lemma self_addEntry l prepared t : self (fst (addEntry l prepared t)) = self l.
Proof. unfold addEntry. destruct (negb (hasQueue (self l))); reflexivity. Qed.

(** A call changes the queue or the arrays, not the object. *)
Lemma zip_invoke a c : zip (fst (invoke a c)) = zip a.
Proof.
  unfold zip. destruct c; cbn [invoke withLowLevel fst lowlevel removeEntry].
  - unfold addFile. destruct (validateMetadataPath _ _); [apply self_addEntry|reflexivity].
  - unfold addReadStream. destruct (validateMetadataPath _ _); [|reflexivity].
    destruct (FileEntry_new _ _ _); [apply self_addEntry|reflexivity].
  - unfold addBuffer. destruct (validateMetadataPath _ _); [|reflexivity].
    destruct (_ >? _); [reflexivity|]. cbv zeta. apply self_addEntry.
  - unfold addEmptyDirectory.
    destruct (validateMetadataPath _ _); [apply self_addEntry|reflexivity].
  - reflexivity.
  - unfold addCentralDirectoryRecord. destruct (negb _); [reflexivity|].
    cbv zeta. destruct (archiveComment _); reflexivity.
Qed.

Lemma pending_invoke a c :
  exists more, pending (lowlevel (fst (invoke a c))) = pending (lowlevel a) ++ more.
Proof.
  assert (Hadd : forall l prepared t,
             exists more, pending (fst (addEntry l prepared t)) = pending l ++ more).
  { intros l prepared t. unfold addEntry. destruct (negb _); cbn [fst enqueue pending].
    - exists []. rewrite app_nil_r. reflexivity.
    - eauto. }
  assert (Hsame : exists more, pending (lowlevel a) = pending (lowlevel a) ++ more).
  { exists []. rewrite app_nil_r. reflexivity. }
  destruct c; cbn [invoke withLowLevel fst lowlevel removeEntry].
  - unfold addFile. destruct (validateMetadataPath _ _); [apply Hadd|exact Hsame].
  - unfold addReadStream. destruct (validateMetadataPath _ _); [|exact Hsame].
    destruct (FileEntry_new _ _ _); [apply Hadd|exact Hsame].
  - unfold addBuffer. destruct (validateMetadataPath _ _); [|exact Hsame].
    destruct (_ >? _); [exact Hsame|]. cbv zeta. apply Hadd.
  - unfold addEmptyDirectory.
    destruct (validateMetadataPath _ _); [apply Hadd|exact Hsame].
  - exact Hsame.
  - unfold addCentralDirectoryRecord. destruct (negb _); [exact Hsame|].
    cbv zeta. destruct (archiveComment _); [|exact Hsame].
    cbn [fst enqueue pending]. eauto.
Qed.

(** What a continuation of index.js leaves of the object. *)
Lemma resume_zip a id :
  chain (zip (resume a id)) = chain (zip a)
  /\ settled (zip (resume a id)) = settled (zip a)
  /\ received (readable (zip (resume a id))) = received (readable (zip a))
  /\ outputStreamCursor (zip (resume a id)) = outputStreamCursor (zip a)
  /\ pending (lowlevel (resume a id)) = pending (lowlevel a).
Proof.
  unfold resume. destruct (bool_decide _); [auto|].
  destruct (settled (zip a) !! id) as [[[entry|e]|[r|e]]|]; cbv zeta; auto.
Qed.

(** X15. Once a reaction of an add has rejected, the archive stays
    poisoned whatever is called or happens afterwards: the chain stays
    rejected with that error, no chunk is pushed, the cursor does not move,
    and every operation that settles from then on is rejected with the same
    error. *)
Theorem rejected_for_good (a : Archive) (e : Error) (events : list Event) :
  chain (zip a) = Rejected e ->
  let a' := run a events in
  chain (zip a') = Rejected e
  /\ output a' = output a
  /\ outputStreamCursor (zip a') = outputStreamCursor (zip a)
  /\ forall id v,
       settled (zip a') !! id = Some v ->
       settled (zip a) !! id = Some v \/ rejectedWith e v.
Proof.
  revert a. induction events as [|ev events IH]; intros a Hc; cbv zeta.
  - cbn [run fold_left]. auto.
  - change (run a (ev :: events)) with (run (step a ev) events).
    assert (Hstep : chain (zip (step a ev)) = Rejected e
                    /\ output (step a ev) = output a
                    /\ outputStreamCursor (zip (step a ev)) = outputStreamCursor (zip a)
                    /\ forall id v, settled (zip (step a ev)) !! id = Some v ->
                         settled (zip a) !! id = Some v \/ rejectedWith e v).
    { destruct ev as [c|id| |id]; cbn [step].
      - rewrite zip_invoke. unfold output. rewrite zip_invoke. auto.
      - unfold output, zip. cbn [lowlevel prepare self]. auto.
      - unfold output, zip in *. cbn [lowlevel]. unfold advance. rewrite Hc.
        destruct (pending (lowlevel a)) as [|p rest]; [auto|].
        cbn [self withSettled chain readable outputStreamCursor settled].
        repeat (split; [auto|]). intros id v Hl.
        destruct (decide (p_id p = id)) as [<-|Hne].
        + rewrite lookup_insert_eq in Hl. injection Hl as <-. right.
          unfold rejectedWith, rejection. destruct (p_task p); auto.
        + rewrite lookup_insert_ne in Hl by exact Hne. auto.
      - destruct (resume_zip a id) as (Hch & Hs & Hr & Hcur & _).
        unfold output. rewrite Hch, Hs, Hr, Hcur. auto. }
    destruct Hstep as (Hc1 & Ho1 & Hcur1 & Hs1).
    destruct (IH (step a ev) Hc1) as (Hc2 & Ho2 & Hcur2 & Hs2).
    split; [exact Hc2|]. split; [congruence|]. split; [congruence|].
    intros id v Hl. destruct (Hs2 id v Hl) as [Hl'|Hr]; [apply Hs1, Hl'|right; exact Hr].
Qed.

(** X16. Once the ['end'] listener of [writeEntryStream] has thrown, the
    promise the chain waits for never settles: whatever is called or happens
    afterwards, no reaction runs, no operation settles, nothing is pushed and
    the reactions queued only pile up. *)
Theorem uncaught_blocks_for_good (a : Archive) (e : Error) (events : list Event) :
  chain (zip a) = Uncaught e ->
  let a' := run a events in
  chain (zip a') = Uncaught e
  /\ settled (zip a') = settled (zip a)
  /\ output a' = output a
  /\ exists more,
       List.map p_task (pending (lowlevel a'))
       = List.map p_task (pending (lowlevel a)) ++ more.
Proof.
  revert a. induction events as [|ev events IH]; intros a Hc; cbv zeta.
  - cbn [run fold_left]. split; [exact Hc|]. split; [reflexivity|]. split; [reflexivity|].
    exists []. rewrite app_nil_r. reflexivity.
  - change (run a (ev :: events)) with (run (step a ev) events).
    assert (Hstep : chain (zip (step a ev)) = Uncaught e
                    /\ settled (zip (step a ev)) = settled (zip a)
                    /\ output (step a ev) = output a
                    /\ exists more,
                         List.map p_task (pending (lowlevel (step a ev)))
                         = List.map p_task (pending (lowlevel a)) ++ more).
    { destruct ev as [c|id| |id]; cbn [step].
      - rewrite zip_invoke. unfold output. rewrite zip_invoke.
        repeat (split; [auto|]). destruct (pending_invoke a c) as [more ->].
        exists (List.map p_task more). apply map_app.
      - unfold output, zip. cbn [lowlevel prepare self pending].
        repeat (split; [auto|]). exists []. rewrite app_nil_r, List.map_map.
        apply map_ext. intros p. destruct (Nat.eqb _ _); reflexivity.
      - unfold output, zip in *. cbn [lowlevel]. unfold advance. rewrite Hc.
        repeat (split; [auto|]). exists []. rewrite app_nil_r. reflexivity.
      - destruct (resume_zip a id) as (Hch & Hs & Hr & _ & Hp).
        unfold output. rewrite Hch, Hs, Hr, Hp. repeat (split; [auto|]).
        exists []. rewrite app_nil_r. reflexivity. }
    destruct Hstep as (Hc1 & Hs1 & Ho1 & more1 & Hp1).
    destruct (IH (step a ev) Hc1) as (Hc2 & Hs2 & Ho2 & more2 & Hp2).
    split; [exact Hc2|]. split; [congruence|]. split; [congruence|].
    exists (more1 ++ more2). rewrite Hp2, Hp1, app_assoc. reflexivity.
Qed.

End Failures.

Lemma rejected_for_good_witness :
  chain (zip (run newArchive wrongCompressedSize)) = Rejected ErrUnexpectedCompressedSize
  /\ output (run newArchive (wrongCompressedSize
                              ++ [Invoke helloBufferCall; Advance; Advance]))
     = output (run newArchive wrongCompressedSize)
  /\ settled (zip (run newArchive wrongCompressedSize)) !! 1%nat
     = Some (SettledEntry (Err ErrUnexpectedCompressedSize)).
Proof.
  assert (Hc : chain (zip (run newArchive wrongCompressedSize))
               = Rejected ErrUnexpectedCompressedSize) by reflexivity.
  split; [exact Hc|]. split.
  - unfold run at 1. rewrite fold_left_app.
    apply (rejected_for_good _ _ [Invoke helloBufferCall; Advance; Advance] Hc).
  - vm_compute. reflexivity.
Defined.

Lemma uncaught_blocks_for_good_witness :
  chain (zip (run newArchive wrongSize)) = Uncaught ErrUnexpectedByteCount
  /\ settled (zip (run newArchive (wrongSize
                                    ++ [Invoke helloBufferCall; Advance; Advance])))
     = settled (zip (run newArchive wrongSize))
  /\ settled (zip (run newArchive wrongSize)) !! 0%nat = None.
Proof.
  assert (Hc : chain (zip (run newArchive wrongSize)) = Uncaught ErrUnexpectedByteCount)
    by reflexivity.
  split; [exact Hc|]. split.
  - unfold run at 1. rewrite fold_left_app.
    apply (uncaught_blocks_for_good _ _ [Invoke helloBufferCall; Advance; Advance] Hc).
  - vm_compute. reflexivity.
Defined.

(** ** The numbers of the operations and [this.entries] *)

Section Numbers.
Context `{Collaborators}.

Lemma afterWrite_effect z id entry cursor :
  (forall r, chain (afterWrite z id entry cursor) <> Streaming r)
  /\ exists v, settled (afterWrite z id entry cursor) = <[id := v]> (settled z).
Proof.
  assert (Hreject : forall e,
            (forall r, chain (reject z id e) <> Streaming r)
            /\ exists v, settled (reject z id e) = <[id := v]> (settled z)).
  { intros e. destruct (reject_fields z id e) as (_ & _ & _ & _ & _ & _ & Hc & Hs).
    rewrite Hc, Hs. split; [discriminate|eauto]. }
  unfold afterWrite. destruct (checkCompressedSize _ _) as [entry'|e]; [|apply Hreject].
  destruct (getDataDescriptor _) as [descriptor|e]; [|apply Hreject].
  split; [discriminate|]. eauto.
Qed.

(** A reaction that starts either settles its operation or leaves a stream
    running under the number of the operation. *)
Lemma startEntry_effect z id t :
  match chain (startEntry z id t) with
  | Streaming r => run_id r = id /\ settled (startEntry z id t) = settled z
  | _ => exists v, settled (startEntry z id t) = <[id := v]> (settled z)
  end.
Proof.
  assert (Hreject : forall e,
            match chain (reject z id e) with
            | Streaming r => run_id r = id /\ settled (reject z id e) = settled z
            | _ => exists v, settled (reject z id e) = <[id := v]> (settled z)
            end).
  { intros e. destruct (reject_fields z id e) as (_ & _ & _ & _ & _ & _ & Hc & Hs).
    rewrite Hc, Hs. eauto. }
  unfold startEntry. destruct (callback t) as [[entry write]|e]; [|apply Hreject].
  cbv zeta. destruct (getLocalFileHeader _) as [header|e]; [|apply Hreject].
  destruct write as [readStream|buffer|].
  - cbn. auto.
  - destruct (afterWrite_effect (writeBuffer (writeBuffer z header) buffer) id
                (setOffset entry (outputStreamCursor z))
                (outputStreamCursor (writeBuffer z header))) as [Hc Hs].
    destruct (chain (afterWrite _ _ _ _)) as [|r|e|e]; try exact Hs.
    destruct (Hc r). reflexivity.
  - destruct (afterWrite_effect (writeBuffer z header) id
                (setOffset entry (outputStreamCursor z))
                (outputStreamCursor (writeBuffer z header))) as [Hc Hs].
    destruct (chain (afterWrite _ _ _ _)) as [|r|e|e]; try exact Hs.
    destruct (Hc r). reflexivity.
Qed.

Lemma advanceStream_effect z r :
  chain z = Streaming r ->
  match chain (advanceStream z r) with
  | Streaming r' => run_id r' = run_id r /\ settled (advanceStream z r) = settled z
  | _ => settled (advanceStream z r) = settled z
         \/ exists v, settled (advanceStream z r) = <[run_id r := v]> (settled z)
  end.
Proof.
  intros Hz. unfold advanceStream. destruct (rs_chunks (run_source r)) as [|chunk rest].
  - destruct (rs_end (run_source r)); [|rewrite Hz; auto].
    unfold streamEnd. cbv zeta. destruct (onEnd _ _ _) as [e|entry']; [cbn; auto|].
    match goal with
    | |- context [afterWrite ?z1 ?i ?e1 ?c1] =>
        destruct (afterWrite_effect z1 i e1 c1) as [Hc Hs];
        destruct (chain (afterWrite z1 i e1 c1)) as [|r'|e|e];
        try (right; exact Hs)
    end.
    destruct (Hc r'). reflexivity.
  - unfold streamChunk. cbv zeta. destruct (compressChunk _ _ _) as [d outs]. cbn. auto.
Qed.

Lemma settled_records entries : forall z,
  settled (fst (writeCentralDirectoryRecords z entries)) = settled z.
Proof.
  induction entries as [|entry rest IH]; intros z; cbn [writeCentralDirectoryRecords];
    [reflexivity|].
  destruct (getCentralDirectoryRecord entry); [|reflexivity]. rewrite IH. reflexivity.
Qed.

Lemma centralDirectoryTask_effect z id entries force comment :
  exists v,
    settled (centralDirectoryTask z id entries force comment) = <[id := v]> (settled z).
Proof.
  unfold centralDirectoryTask, centralDirectoryReaction. cbv zeta.
  pose proof (settled_records entries (withOffsetOfStart z (outputStreamCursor z))) as Hr.
  destruct (writeCentralDirectoryRecords _ entries) as [z1 [e|]]; cbn [fst] in Hr.
  - cbn [withSettled settled]. rewrite Hr. eauto.
  - destruct (getEndOfCentralDirectoryRecord _ false);
      cbn [withSettled settled writeBuffer withReadable]; rewrite Hr; eauto.
Qed.

Lemma react_effect heap z p :
  chain z = Fulfilled ->
  match chain (react heap z p) with
  | Streaming r => run_id r = p_id p /\ settled (react heap z p) = settled z
  | _ => exists v, settled (react heap z p) = <[p_id p := v]> (settled z)
  end.
Proof.
  intros Hz. unfold react. destruct (p_task p) eqn:Ht;
    try apply startEntry_effect.
  rewrite chain_centralDirectoryTask, Hz. apply centralDirectoryTask_effect.
Qed.

Lemma is_Some_insert (m : gmap nat Settled) id v id' :
  is_Some (<[id := v]> m !! id') -> id' = id \/ is_Some (m !! id').
Proof.
  destruct (decide (id = id')) as [->|Hne]; [auto|].
  rewrite lookup_insert_ne by exact Hne. auto.
Qed.

Lemma numbered_advance heap l : numbered l -> numbered (advance heap l).
Proof.
  intros (first & Hids & Hnext & Hchain). unfold advance.
  destruct (chain (self l)) as [|r|e|e] eqn:Hc.
  - destruct (pending l) as [|p rest] eqn:Hp;
      [exists first; rewrite Hp, Hc; auto|].
    destruct (negb (p_prepared p)); [exists first; rewrite Hp, Hc; auto|].
    cbn [List.map List.length seq] in Hids. injection Hids as Hid Hids.
    cbn [List.length] in Hnext.
    exists (S first). cbn [self pending nextId].
    split; [exact Hids|]. split; [lia|].
    pose proof (react_effect heap (self l) p Hc) as Heff.
    destruct (chain (react heap (self l) p)) as [|r|e|e].
    + destruct Heff as [v ->]. intros id His.
      apply is_Some_insert in His as [->|His]; [lia|]. specialize (Hchain _ His). lia.
    + destruct Heff as [Hr ->]. split; [congruence|].
      intros id His. specialize (Hchain _ His). lia.
    + destruct Heff as [v ->]. intros id His.
      apply is_Some_insert in His as [->|His]; [lia|]. specialize (Hchain _ His). lia.
    + destruct Heff as [v ->]. intros id His.
      apply is_Some_insert in His as [->|His]; [lia|]. specialize (Hchain _ His). lia.
  - destruct Hchain as [Hr Hdom]. exists first. cbn [self pending nextId].
    split; [exact Hids|]. split; [exact Hnext|].
    pose proof (advanceStream_effect (self l) r Hc) as Heff.
    assert (Hdone : forall id,
               is_Some (settled (advanceStream (self l) r) !! id) ->
               (settled (advanceStream (self l) r) = settled (self l)
                \/ exists v, settled (advanceStream (self l) r)
                             = <[run_id r := v]> (settled (self l))) ->
               (id < first)%nat).
    { intros id His [Hs|[v Hs]]; rewrite Hs in His.
      - specialize (Hdom _ His). lia.
      - apply is_Some_insert in His as [->|His]; [lia|]. specialize (Hdom _ His). lia. }
    destruct (chain (advanceStream (self l) r)) as [|r'|e|e].
    + intros id His. exact (Hdone id His Heff).
    + destruct Heff as [Hr' Hs]. split; [congruence|].
      intros id His. rewrite Hs in His. rewrite Hr'. apply Hdom, His.
    + intros id His. exact (Hdone id His Heff).
    + intros id His. exact (Hdone id His Heff).
  - destruct (pending l) as [|p rest] eqn:Hp;
      [exists first; rewrite Hp, Hc; auto|].
    cbn [List.map List.length seq] in Hids. injection Hids as Hid Hids.
    cbn [List.length] in Hnext.
    exists (S first). cbn [self pending nextId withSettled chain settled]. rewrite Hc.
    split; [exact Hids|]. split; [lia|].
    intros id His. apply is_Some_insert in His as [->|His]; [lia|].
    specialize (Hchain _ His). lia.
  - exists first. rewrite Hc. auto.
Qed.

Lemma numbered_enqueue l prepared t : numbered l -> numbered (enqueue l prepared t).
Proof.
  intros (first & Hids & Hnext & Hchain). exists first.
  cbn [enqueue pending nextId self]. rewrite map_app, length_app, Hids.
  cbn [List.map List.length p_id]. split.
  - rewrite seq_app. cbn [seq]. rewrite Hnext. reflexivity.
  - split; [lia|exact Hchain].
Qed.

Lemma numbered_prepare l id : numbered l -> numbered (prepare l id).
Proof.
  intros (first & Hids & Hnext & Hchain). exists first.
  cbn [prepare pending nextId self]. rewrite length_map, List.map_map.
  split; [|auto]. rewrite <- Hids. apply map_ext.
  intros p. destruct (Nat.eqb _ _); reflexivity.
Qed.

(** A step of the chain settles at most one operation, one that had not
    settled. *)
Lemma advance_settled heap l :
  numbered l ->
  settled (self (advance heap l)) = settled (self l)
  \/ exists id v,
       settled (self l) !! id = None
       /\ settled (self (advance heap l)) = <[id := v]> (settled (self l)).
Proof.
  intros (first & Hids & Hnext & Hchain). unfold advance.
  assert (Hnone : forall id,
             (forall id', is_Some (settled (self l) !! id') -> (id' < id)%nat) ->
             settled (self l) !! id = None).
  { intros id Hlt. destruct (settled (self l) !! id) as [v|] eqn:Hl; [|reflexivity].
    specialize (Hlt id). rewrite Hl in Hlt. specialize (Hlt (mk_is_Some _ _ eq_refl)). lia. }
  destruct (chain (self l)) as [|r|e|e] eqn:Hc.
  - destruct (pending l) as [|p rest] eqn:Hp; [auto|].
    destruct (negb (p_prepared p)); [auto|].
    cbn [List.map List.length seq] in Hids. injection Hids as Hid Hids.
    cbn [self]. pose proof (react_effect heap (self l) p Hc) as Heff.
    assert (Hfresh : settled (self l) !! p_id p = None).
    { apply Hnone. intros id' His. specialize (Hchain _ His). lia. }
    destruct (chain (react heap (self l) p)) as [|r|e|e];
      try (destruct Heff as [v Hv]; right; exists (p_id p), v; auto).
    left. apply Heff.
  - destruct Hchain as [Hr Hdom]. cbn [self].
    pose proof (advanceStream_effect (self l) r Hc) as Heff.
    assert (Hfresh : settled (self l) !! run_id r = None) by (apply Hnone, Hdom).
    destruct (chain (advanceStream (self l) r)) as [|r'|e|e];
      try (destruct Heff as [Hs|[v Hv]]; [left; exact Hs|right; exists (run_id r), v; auto]).
    left. apply Heff.
  - destruct (pending l) as [|p rest] eqn:Hp; [auto|].
    cbn [List.map List.length seq] in Hids. injection Hids as Hid Hids.
    cbn [self withSettled settled]. right. exists (p_id p), (rejection (p_task p) e).
    split; [|reflexivity]. apply Hnone. intros id' His. specialize (Hchain _ His). lia.
  - auto.
Qed.

Lemma advance_settled_stays heap l id v :
  numbered l ->
  settled (self l) !! id = Some v ->
  settled (self (advance heap l)) !! id = Some v.
Proof.
  intros Hn Hl. destruct (advance_settled heap l Hn) as [->|(id0 & v0 & Hnone & ->)];
    [exact Hl|].
  rewrite lookup_insert_ne; [exact Hl|]. intros ->. congruence.
Qed.

(** What a call does to the queue. *)
Lemma invoke_lowlevel a c :
  lowlevel (fst (invoke a c)) = lowlevel a
  \/ exists prepared t, lowlevel (fst (invoke a c)) = enqueue (lowlevel a) prepared t.
Proof.
  assert (Hadd : forall l prepared t,
             fst (addEntry l prepared t) = l
             \/ exists prepared' t', fst (addEntry l prepared t) = enqueue l prepared' t').
  { intros l prepared t. unfold addEntry. destruct (negb _); cbn [fst]; eauto. }
  destruct c; cbn [invoke withLowLevel fst lowlevel removeEntry].
  - unfold addFile. destruct (validateMetadataPath _ _); [apply Hadd|auto].
  - unfold addReadStream. destruct (validateMetadataPath _ _); [|auto].
    destruct (FileEntry_new _ _ _); [apply Hadd|auto].
  - unfold addBuffer. destruct (validateMetadataPath _ _); [|auto].
    destruct (_ >? _); [auto|]. cbv zeta. apply Hadd.
  - unfold addEmptyDirectory. destruct (validateMetadataPath _ _); [apply Hadd|auto].
  - auto.
  - unfold addCentralDirectoryRecord. destruct (negb _); [auto|].
    cbv zeta. destruct (archiveComment _); cbn [fst]; eauto.
Qed.

Lemma numbered_invoke a c : numbered (lowlevel a) -> numbered (lowlevel (fst (invoke a c))).
Proof.
  intros Hn. destruct (invoke_lowlevel a c) as [->|(prepared & t & ->)];
    [exact Hn|apply numbered_enqueue, Hn].
Qed.

Lemma invoke_arrays a c :
  resumed (fst (invoke a c)) = resumed a
  /\ (arrays (fst (invoke a c)) = arrays a
      \/ exists entry,
           arrays (fst (invoke a c))
           = arrays a ++ [List.filter (fun x => negb (Nat.eqb (fst x) entry)) (thisEntries a)]).
Proof. destruct c; cbn [invoke withLowLevel fst removeEntry arrays resumed]; eauto. Qed.

Lemma holdsFulfilled_later a a' array :
  (forall id, id ∈ resumed a -> id ∈ resumed a') ->
  (forall id v, settled (zip a) !! id = Some v -> settled (zip a') !! id = Some v) ->
  holdsFulfilled a array -> holdsFulfilled a' array.
Proof.
  intros Hr Hs [Hnd Hin]. split; [exact Hnd|].
  intros id entry Hi. destruct (Hin _ _ Hi) as [Hres Hset]. auto.
Qed.

Lemma NoDup_filter_fst (f : nat * Entry -> bool) array :
  NoDup (List.map fst array) -> NoDup (List.map fst (List.filter f array)).
Proof.
  induction array as [|x rest IH]; cbn [List.map List.filter]; intros Hnd; [constructor|].
  apply NoDup_cons in Hnd as [Hnot Hnd].
  destruct (f x); [|apply IH, Hnd]. cbn [List.map].
  apply NoDup_cons. split; [|apply IH, Hnd].
  intros Hin. apply Hnot. apply list_elem_of_In, in_map_iff in Hin as (y & Hy & Hin).
  apply list_elem_of_In, in_map_iff. exists y. split; [exact Hy|].
  apply filter_In in Hin. tauto.
Qed.

Lemma thisEntries_In a : arrays a <> [] -> In (thisEntries a) (arrays a).
Proof.
  intros Hne. unfold thisEntries, entriesRef. apply nth_In.
  destruct (arrays a); [congruence|]. cbn [List.length]. lia.
Qed.

Lemma wellKept_step a ev : wellKept a -> wellKept (step a ev).
Proof.
  intros (Hn & Hres & Hne & Harr).
  destruct ev as [c|id| |id]; cbn [step].
  - destruct (invoke_arrays a c) as [Hr Ha].
    assert (Hlater : forall array, holdsFulfilled a array ->
                                   holdsFulfilled (fst (invoke a c)) array).
    { intros array. apply holdsFulfilled_later; [rewrite Hr; auto|rewrite zip_invoke; auto]. }
    split; [apply numbered_invoke, Hn|].
    split; [rewrite Hr, zip_invoke; exact Hres|].
    destruct Ha as [->|[entry ->]].
    + split; [exact Hne|]. eapply Forall_impl; [exact Harr|exact Hlater].
    + split; [intros Hx; apply app_eq_nil in Hx as [_ Hx]; discriminate|].
      apply Forall_app. split; [eapply Forall_impl; [exact Harr|exact Hlater]|].
      apply Forall_cons. split; [|constructor]. apply Hlater.
      pose proof (thisEntries_In a Hne) as Hin.
      rewrite List.Forall_forall in Harr. destruct (Harr _ Hin) as [Hnd Hall].
      split; [apply NoDup_filter_fst, Hnd|].
      intros id e Hi. apply filter_In in Hi as [Hi _]. apply Hall, Hi.
  - split; [apply numbered_prepare, Hn|]. split; [exact Hres|]. split; [exact Hne|exact Harr].
  - cbn [lowlevel]. split; [apply numbered_advance, Hn|]. unfold zip. cbn [lowlevel resumed arrays].
    split.
    + intros id Hid. destruct (Hres id Hid) as [v Hv].
      exists v. apply advance_settled_stays; assumption.
    + split; [exact Hne|]. eapply Forall_impl; [exact Harr|].
      intros array. apply holdsFulfilled_later; [auto|].
      intros id v. apply advance_settled_stays, Hn.
  - unfold resume. case_bool_decide as Hdone; [repeat split; assumption|].
    destruct (settled (zip a) !! id) as [v|] eqn:Hv; [|repeat split; assumption].
    cbv zeta.
    assert (Hres' : forall id', id' ∈ {[id]} ∪ resumed a -> is_Some (settled (zip a) !! id')).
    { intros id' Hin. apply elem_of_union in Hin as [Hin|Hin]; [|auto].
      apply elem_of_singleton in Hin. subst id'. rewrite Hv. eauto. }
    assert (Hlater : forall a', resumed a' = {[id]} ∪ resumed a ->
                       settled (zip a') = settled (zip a) ->
                       Forall (holdsFulfilled a') (arrays a)).
    { intros a' Hr Hs. eapply Forall_impl; [exact Harr|].
      intros array. apply holdsFulfilled_later.
      - intros id' Hin. rewrite Hr. apply elem_of_union. auto.
      - rewrite Hs. auto. }
    destruct v as [[entry|e]|[r|e]].
    + split; [exact Hn|]. split; [exact Hres'|].
      split.
      { cbn [arrays]. intros Hx. apply (f_equal List.length) in Hx.
        unfold Heap in Hx. rewrite length_insert in Hx. destruct (arrays a); [congruence|discriminate]. }
      cbn [arrays]. apply Forall_insert; [apply Hlater; reflexivity|].
      pose proof (thisEntries_In a Hne) as Hin.
      rewrite List.Forall_forall in Harr. destruct (Harr _ Hin) as [Hnd Hall].
      split.
      * rewrite map_app. cbn [List.map fst]. apply NoDup_app. split; [exact Hnd|].
        split; [|apply NoDup_singleton].
        intros id' Hid' Hsame. apply list_elem_of_singleton in Hsame. subst id'.
        apply list_elem_of_In, in_map_iff in Hid' as ([id' e'] & Heq & Hi).
        cbn [fst] in Heq. subst id'. destruct (Hall _ _ Hi) as [Hr _]. contradiction.
      * intros id' e' Hi. cbn [resumed]. apply in_app_or in Hi as [Hi|[Hi|[]]].
        -- destruct (Hall _ _ Hi) as [Hr Hs]. split; [apply elem_of_union; auto|exact Hs].
        -- injection Hi as <- <-. split; [apply elem_of_union_l, elem_of_singleton; reflexivity|].
           exact Hv.
    + split; [exact Hn|]. split; [exact Hres'|]. split; [exact Hne|].
      apply Hlater; reflexivity.
    + split.
      { destruct Hn as (first & Hids & Hnext & Hchain). exists first. auto. }
      split; [exact Hres'|]. split; [exact Hne|]. apply Hlater; reflexivity.
    + split; [exact Hn|]. split; [exact Hres'|]. split; [exact Hne|].
      apply Hlater; reflexivity.
Qed.

Lemma wellKept_new : wellKept newArchive.
Proof.
  split; [|split; [|split]].
  - exists 0%nat. cbn. split; [reflexivity|]. split; [reflexivity|].
    intros id [v Hv]. rewrite lookup_empty in Hv. discriminate.
  - intros id Hid. apply elem_of_empty in Hid. destruct Hid.
  - discriminate.
  - apply Forall_cons. split; [|constructor]. split; [constructor|]. intros id e [].
Qed.

Lemma wellKept_run events : forall a, wellKept a -> wellKept (run a events).
Proof.
  induction events as [|ev events IH]; intros a Ha; [exact Ha|].
  apply (IH (step a ev)), wellKept_step, Ha.
Qed.

End Numbers.

(** X17. Whatever is called and however reactions and continuations
    interleave, [this.entries] holds only entries that an add operation has
    fulfilled with, and none of them twice: an add that was rejected, or that
    has not settled, is never listed in the central directory. *)
Theorem entries_are_fulfilled_adds `{Collaborators} (events : list Event) :
  let a := run newArchive events in
  NoDup (List.map fst (thisEntries a))
  /\ forall id entry,
       In (id, entry) (thisEntries a) ->
       settled (zip a) !! id = Some (SettledEntry (Ok entry)).
Proof.
  intros a. destruct (wellKept_run events newArchive wellKept_new) as (_ & _ & Hne & Harr).
  fold a in Hne, Harr. rewrite List.Forall_forall in Harr.
  destruct (Harr _ (thisEntries_In a Hne)) as [Hnd Hall].
  split; [exact Hnd|]. intros id entry Hi. apply (Hall _ _ Hi).
Qed.

(** ** The array that [end()] hands over *)

Section Aliasing.
Context `{Collaborators}.






End Aliasing.


Example removal_after_end_is_ignored :
  entriesCounted removedAfterEnd = Some 1 /\ entriesCounted removedBeforeEnd = Some 0.
Proof. split; vm_compute; reflexivity. Qed.

(** ** Finalization of an archive at rest *)

Section FinalizeAtRest.
Context `{Collaborators}.

Lemma writeCentralDirectoryRecords_Ok entries : forall z records,
  centralDirectoryRecords entries = Ok records ->
  ended (readable z) = false -> destroyed (readable z) = false ->
  writeCentralDirectoryRecords z entries
  = (withReadable z
       {| received := received (readable z) ++ records; ended := false;
          destroyed := false |}
       (outputStreamCursor z + totalLength records), None).
Proof.
  induction entries as [|entry rest IH]; intros z records Hrec He Hd.
  - injection Hrec as <-. cbn [writeCentralDirectoryRecords totalLength fold_right].
    rewrite app_nil_r, Z.add_0_r. f_equal.
    destruct z as [q c o [rc en de] ch s]. cbn in *. subst. reflexivity.
  - cbn [centralDirectoryRecords writeCentralDirectoryRecords] in *.
    destruct (getCentralDirectoryRecord entry) as [record|e]; [|discriminate].
    cbn [rbind] in Hrec.
    destruct (centralDirectoryRecords rest) as [records'|e]; [|discriminate].
    cbn [rbind] in Hrec. injection Hrec as <-.
    rewrite (writeBuffer_open z record He Hd).
    rewrite (IH _ records' eq_refl) by reflexivity.
    cbn [withReadable readable received outputStreamCursor hasQueue
         offsetOfStartOfCentralDirectory chain settled].
    rewrite <- app_assoc. cbn [app totalLength fold_right].
    fold (totalLength records'). f_equal. unfold withReadable. f_equal. lia.
Qed.

Lemma nextId_fresh a : wellKept a -> nextId (lowlevel a) ∉ resumed a.
Proof.
  intros ((first & _ & Hnext & Hchain) & Hres & _) Hin.
  specialize (Hres _ Hin). unfold zip in Hres.
  destruct (chain (self (lowlevel a))) as [|r|e|e];
    try (specialize (Hchain _ Hres); lia).
  destruct Hchain as [Hr Hdom]. specialize (Hdom _ Hres). lia.
Qed.

(** [end(options)] on an archive at rest: the central-directory reaction
    and the continuation of index.js. *)
Lemma finalize_run (a : Archive) (options : EndOptions)
    (comment : Buffer) (records : list Buffer) (eocdr : Buffer) :
  let id := nextId (lowlevel a) in
  let record :=
    endRecordFor (outputStreamCursor (zip a)) (truthy (e_forceZip64Format options))
      comment records (blen (thisEntries a)) in
  let a' := run a [Invoke (CallEnd options); Advance; Resume id] in
  wellKept a ->
  atRest a ->
  archiveComment options = Ok comment ->
  centralDirectoryRecords (List.map snd (thisEntries a)) = Ok records ->
  getEndOfCentralDirectoryRecord record false = Ok (EocdrBytes eocdr) ->
  output a' = output a ++ records ++ [eocdr]
  /\ settled (zip a') !! id = Some (SettledRecord (Ok record))
  /\ hasQueue (zip a') = false
  /\ ended (readable (zip a')) = true
  /\ offsetOfStartOfCentralDirectory (zip a') = Some (outputStreamCursor (zip a))
  /\ outputStreamCursor (zip a')
     = outputStreamCursor (zip a) + totalLength records + blen eocdr.
Proof.
  intros id record a' Hkept Hrest Hcomment Hrecords Heocdr.
  pose proof Hrest as (Hchain & Hpending & Hqueue & Hended & Hdestroyed).
  set (a1 := fst (invoke a (CallEnd options))).
  assert (H1 : lowlevel a1
               = enqueue (lowlevel a) true
                   (TaskCentralDirectory (entriesRef a)
                      (truthy (e_forceZip64Format options)) comment)
               /\ arrays a1 = arrays a /\ resumed a1 = resumed a).
  { subst a1. cbn [invoke withLowLevel fst lowlevel arrays resumed].
    unfold addCentralDirectoryRecord. unfold zip in Hqueue. rewrite Hqueue. cbn [negb].
    cbv zeta. rewrite Hcomment. auto. }
  destruct H1 as (Hl1 & Ha1 & Hr1).
  assert (Hcount : blen (List.map snd (thisEntries a)) = blen (thisEntries a)).
  { unfold blen. rewrite length_map. reflexivity. }
  set (z2 := withSettled
               (writeBuffer
                  (withReadable (withOffsetOfStart (zip a) (outputStreamCursor (zip a)))
                     {| received := received (readable (zip a)) ++ records;
                        ended := false; destroyed := false |}
                     (outputStreamCursor (zip a) + totalLength records))
                  eocdr)
               id (SettledRecord (Ok record))).
  assert (H2 : zip (step a1 Advance) = z2
               /\ resumed (step a1 Advance) = resumed a).
  { cbn [step resumed]. split; [|exact Hr1]. unfold zip. cbn [lowlevel].
    rewrite Hl1, Ha1. unfold advance, enqueue. cbn [self pending nextId].
    unfold zip in Hchain. rewrite Hchain, Hpending. cbn [app p_prepared negb self].
    unfold react. cbn [p_task p_id].
    change (nth (entriesRef a) (arrays a) []) with (thisEntries a).
    unfold centralDirectoryTask, centralDirectoryReaction. cbv zeta.
    rewrite (writeCentralDirectoryRecords_Ok _ _ records Hrecords) by assumption.
    cbn [withOffsetOfStart readable outputStreamCursor withReadable].
    rewrite Hcount. fold (zip a).
    change {| r_offsetOfStartOfCentralDirectory := outputStreamCursor (zip a);
              r_forceZip64Format := truthy (e_forceZip64Format options);
              r_comment := comment;
              r_outputStreamCursor := outputStreamCursor (zip a) + totalLength records;
              r_entriesCount := blen (thisEntries a) |} with record.
    rewrite Heocdr. reflexivity. }
  destruct H2 as (Hz2 & Hr2).
  assert (H3 : zip a' = lowlevelEnd z2).
  { change a' with (resume (step a1 Advance) id). unfold resume.
    rewrite Hr2. rewrite (bool_decide_eq_false_2 _ (nextId_fresh a Hkept)).
    rewrite Hz2. subst z2. cbn [withSettled settled]. rewrite lookup_insert_eq.
    reflexivity. }
  unfold output. rewrite H3. subst z2.
  unfold writeBuffer. rewrite push_open by reflexivity.
  cbn [lowlevelEnd withSettled withReadable withOffsetOfStart readable received pushNull
       settled hasQueue ended offsetOfStartOfCentralDirectory outputStreamCursor].
  rewrite <- app_assoc. split; [reflexivity|].
  split; [apply lookup_insert_eq|]. auto.
Qed.

End FinalizeAtRest.

(** X19. [end(options)] on an archive at rest, whatever was called before,
    after one step of the chain and its continuation: the output has
    received one central directory record per entry of [this.entries], in the
    order of the array, then the end structure, and has ended; the queue is
    deleted; the promise has fulfilled with the record whose start offset is
    the cursor before, whose entry count is the length of [this.entries] and
    whose [outputStreamCursor] is the offset of the end structure. *)
Theorem finalize_at_rest `{Collaborators} (events : list Event) (options : EndOptions)
    (comment : Buffer) (records : list Buffer) (eocdr : Buffer) :
  let a := run newArchive events in
  let id := nextId (lowlevel a) in
  let record :=
    endRecordFor (outputStreamCursor (zip a)) (truthy (e_forceZip64Format options))
      comment records (blen (thisEntries a)) in
  let a' := run a [Invoke (CallEnd options); Advance; Resume id] in
  atRest a ->
  archiveComment options = Ok comment ->
  centralDirectoryRecords (List.map snd (thisEntries a)) = Ok records ->
  getEndOfCentralDirectoryRecord record false = Ok (EocdrBytes eocdr) ->
  output a' = output a ++ records ++ [eocdr]
  /\ settled (zip a') !! id = Some (SettledRecord (Ok record))
  /\ hasQueue (zip a') = false
  /\ ended (readable (zip a')) = true
  /\ offsetOfStartOfCentralDirectory (zip a') = Some (outputStreamCursor (zip a))
  /\ outputStreamCursor (zip a')
     = outputStreamCursor (zip a) + totalLength records + blen eocdr.
Proof.
  intros a id record a' Hrest Hcomment Hrecords Heocdr.
  apply (finalize_run a options comment records eocdr);
    [apply wellKept_run, wellKept_new|assumption..].
Qed.

Lemma finalize_at_rest_witness :
  atRest (run newArchive [Invoke helloBufferCall; Advance; Resume 0])
  /\ output (run newArchive [Invoke helloBufferCall; Advance; Resume 0;
                              Invoke (CallEnd noEndOptions); Advance; Resume 1])
     = [helloHeader; str "hello"; []; helloRecord; helloEnd]
  /\ readUInt16LE helloEnd 10 = 1
  /\ readUInt32LE helloEnd 16 = 40.
Proof.
  assert (Hrest : atRest (run newArchive [Invoke helloBufferCall; Advance; Resume 0]))
    by (repeat split).
  split; [exact Hrest|].
  destruct (finalize_at_rest [Invoke helloBufferCall; Advance; Resume 0] noEndOptions
              [] [helloRecord] helloEnd Hrest)
    as (Hout & _); [reflexivity|vm_compute; reflexivity|vm_compute; reflexivity|].
  split; [exact Hout|]. split; reflexivity.
Defined.

(** ** The start of a streamed entry *)

Section StreamStart.
Context `{Collaborators}.

Lemma startEntry_fails z id t e : callback t = Err e -> startEntry z id t = reject z id e.
Proof. intros Hc. unfold startEntry. rewrite Hc. reflexivity. Qed.

Lemma startEntry_stream z id t entry source header :
  ended (readable z) = false -> destroyed (readable z) = false ->
  callback t = Ok (entry, WriteStream source) ->
  getLocalFileHeader (setOffset entry (outputStreamCursor z)) = Ok header ->
  startEntry z id t
  = withChain
      (withReadable z
         {| received := received (readable z) ++ [header]; ended := false;
            destroyed := false |}
         (outputStreamCursor z + blen header))
      (Streaming {| run_id := id; run_entry := setOffset entry (outputStreamCursor z);
                    run_cursor := outputStreamCursor z + blen header;
                    run_source := source; run_crc32 := 0;
                    run_uncompressedSize := 0; run_compressedSize := 0;
                    run_deflate := deflateInit |}).
Proof.
  intros He Hd Hc Hheader. unfold startEntry. rewrite Hc. cbv zeta. rewrite Hheader.
  rewrite (writeBuffer_open z header He Hd). reflexivity.
Qed.

Lemma addFailed_reject a a' id e :
  atRest a -> zip a' = reject (zip a) id e -> addFailed a a' id e.
Proof.
  intros (_ & _ & _ & _ & Hd) Hz. unfold addFailed, output. rewrite Hz.
  destruct (reject_fields (zip a) id e) as (_ & _ & _ & Hr & _ & Hd' & Hc & Hs).
  rewrite Hs, Hc, Hr, Hd', Hd, orb_false_r.
  split; [apply lookup_insert_eq|]. auto.
Qed.

Lemma streamStarted_stream a a' id t entry source header :
  atRest a ->
  zip a' = startEntry (zip a) id t ->
  callback t = Ok (entry, WriteStream source) ->
  getLocalFileHeader (setOffset entry (outputStreamCursor (zip a))) = Ok header ->
  streamStarted a a' id (setOffset entry (outputStreamCursor (zip a))) header source.
Proof.
  intros (_ & _ & _ & He & Hd) Hz Hc Hheader.
  rewrite (startEntry_stream _ _ _ _ _ _ He Hd Hc Hheader) in Hz.
  unfold streamStarted, output. rewrite Hz.
  cbn [withChain withReadable readable received outputStreamCursor settled chain]. auto.
Qed.

End StreamStart.

(** X20. [addFile] on an archive at rest, once the stat has settled and the
    chain has made a step. If opening or stat failed, the operation rejects
    with that error; if the path is not a regular file, it rejects with 'not
    a file'; in both cases nothing is pushed, and the output is destroyed
    exactly when a listener for ['error'] is attached: without one
    [emit('error', e)] throws and [destroy()] is not reached.
    Otherwise the local header is pushed and the file is being read: the
    entry declares the size the stat reported as its uncompressed size
    (whatever [options.size] says), so the payload is checked against it. *)
Theorem add_file_starts `{Collaborators} (a : Archive) (realPath metadataPath : jsstring)
    (options : Options) (statsPromise : result Stats) (content : ReadStream)
    (stored : jsstring) :
  atRest a ->
  validateMetadataPath metadataPath false = Ok stored ->
  let id := nextId (lowlevel a) in
  let a' := run a [Invoke (CallAddFile realPath metadataPath options statsPromise content);
                   Prepared id; Advance] in
  match statsPromise with
  | Err e => addFailed a a' id e
  | Ok stats =>
      if st_isFile stats then
        forall entry header,
          FileEntry_new (st_mtime stats) stored (fileOptions options stats) = Ok entry ->
          getLocalFileHeader (setOffset entry (outputStreamCursor (zip a))) = Ok header ->
          streamStarted a a' id (setOffset entry (outputStreamCursor (zip a))) header content
          /\ uncompressedSize entry = Some (st_size stats)
          /\ crc32 entry = o_crc32 options
          /\ compressedSize entry = o_compressedSize options
      else addFailed a a' id ErrNotAFile
  end.
Proof.
  intros Hrest Hpath id a'.
  pose proof Hrest as (_ & _ & Hqueue & _).
  destruct (run_single a (CallAddFile realPath metadataPath options statsPromise content)
              false (TaskAddFile stored options statsPromise content) Hrest) as [Hzip _].
  { cbn [invoke withLowLevel fst lowlevel]. unfold addFile. rewrite Hpath.
    apply addEntry_open, Hqueue. }
  { exact I. }
  fold id in Hzip. fold a' in Hzip.
  destruct statsPromise as [stats|e].
  - destruct (st_isFile stats) eqn:Hfile.
    + intros entry header Hentry Hheader. split.
      * eapply streamStarted_stream; [exact Hrest|exact Hzip| |exact Hheader].
        cbn [callback rbind]. rewrite Hfile. cbn [negb].
        change (FileEntry_new (st_mtime stats) stored _)
          with (FileEntry_new (st_mtime stats) stored (fileOptions options stats)).
        rewrite Hentry. reflexivity.
      * destruct (Entry_new_Ok _ _ _ _ Hentry) as (_ & Hcrc & Hsize & Hcsize & _). auto.
    + apply addFailed_reject; [exact Hrest|]. rewrite Hzip. apply startEntry_fails.
      cbn [callback rbind]. rewrite Hfile. reflexivity.
  - apply addFailed_reject; [exact Hrest|]. rewrite Hzip. apply startEntry_fails. reflexivity.
Qed.

Lemma add_file_starts_witness :
  atRest newArchive
  /\ addFailed newArchive
       (run newArchive [Invoke (helloFileCall (Err (ErrExternal (-2))));
                        Prepared 0; Advance])
       0 (ErrExternal (-2))
  /\ destroyed
       (readable (zip (run newArchive [Invoke (helloFileCall (Err (ErrExternal (-2))));
                                       Prepared 0; Advance]))) = true
  /\ destroyed
       (readable (zip (@run unheard (@newArchive unheard)
                         [Invoke (helloFileCall (Err (ErrExternal (-2))));
                          Prepared 0; Advance]))) = false
  /\ streamStarted newArchive
       (run newArchive [Invoke (helloFileCall (Ok helloStats)); Prepared 0; Advance])
       0 helloFileEntry helloFileHeader helloStream
  /\ uncompressedSize helloFileEntry = Some 5.
Proof.
  assert (Hrest : atRest newArchive) by (repeat split).
  assert (Hrest' : @atRest unheard (@newArchive unheard)) by (repeat split).
  pose proof (add_file_starts newArchive (str "/tmp/a.txt") (str "a.txt") storeOptions
                (Err (ErrExternal (-2))) helloStream (str "a.txt") Hrest eq_refl)
    as Hheard.
  pose proof (@add_file_starts unheard (@newArchive unheard) (str "/tmp/a.txt")
                (str "a.txt") storeOptions (Err (ErrExternal (-2))) helloStream
                (str "a.txt") Hrest' eq_refl)
    as Hunheard.
  split; [exact Hrest|]. split; [exact Hheard|].
  split; [exact (proj2 (proj2 (proj2 Hheard)))|].
  split; [exact (proj2 (proj2 (proj2 Hunheard)))|].
  pose proof (add_file_starts newArchive (str "/tmp/a.txt") (str "a.txt") storeOptions
                (Ok helloStats) helloStream (str "a.txt") Hrest eq_refl) as Hok.
  cbv zeta in Hok. cbn [helloStats st_isFile] in Hok.
  destruct (Hok _ helloFileHeader eq_refl eq_refl) as (Hstart & Hsize & _).
  split; [exact Hstart|reflexivity].
Defined.

(** X21. [addReadStream] on an archive at rest, after one step of the
    chain: the local header of the entry built at call time is pushed and
    the stream is being read; the entry is compressed unless [compress] was
    given as false, and declares a size, a compressed size or a checksum
    only if the caller gave them. *)
Theorem add_read_stream_starts `{Collaborators} (a : Archive) (readStream : ReadStream)
    (metadataPath : jsstring) (options : Options) (now : Date)
    (stored : jsstring) (entry : Entry) (header : Buffer) :
  atRest a ->
  validateMetadataPath metadataPath false = Ok stored ->
  FileEntry_new now stored (readStreamOptions options) = Ok entry ->
  getLocalFileHeader (setOffset entry (outputStreamCursor (zip a))) = Ok header ->
  let id := nextId (lowlevel a) in
  let a' := run a [Invoke (CallAddReadStream readStream metadataPath options now);
                   Prepared id; Advance] in
  streamStarted a a' id (setOffset entry (outputStreamCursor (zip a))) header readStream
  /\ compress entry = default true (o_compress options)
  /\ uncompressedSize entry = o_size options
  /\ compressedSize entry = o_compressedSize options
  /\ crc32 entry = o_crc32 options.
Proof.
  intros Hrest Hpath Hentry Hheader id a'.
  pose proof Hrest as (_ & _ & Hqueue & _).
  destruct (run_single a (CallAddReadStream readStream metadataPath options now)
              true (TaskAddReadStream entry readStream) Hrest) as [Hzip _].
  { cbn [invoke withLowLevel fst lowlevel]. unfold addReadStream. rewrite Hpath.
    change (FileEntry_new now stored _)
      with (FileEntry_new now stored (readStreamOptions options)).
    rewrite Hentry. apply addEntry_open, Hqueue. }
  { exact I. }
  fold id in Hzip. fold a' in Hzip. split.
  - eapply streamStarted_stream; [exact Hrest|exact Hzip|reflexivity|exact Hheader].
  - destruct (Entry_new_Ok _ _ _ _ Hentry) as (_ & Hcrc & Hsize & Hcsize & Hcompress & _).
    auto.
Qed.

Lemma add_read_stream_starts_witness :
  atRest newArchive
  /\ output (run newArchive
               [Invoke (CallAddReadStream helloStream (str "a.txt") storeOptions sampleDate);
                Prepared 0; Advance])
     = [helloFileHeader]
  /\ uncompressedSize helloStreamEntry = None.
Proof.
  assert (Hrest : atRest newArchive) by (repeat split).
  split; [exact Hrest|].
  destruct (add_read_stream_starts newArchive helloStream (str "a.txt") storeOptions
              sampleDate (str "a.txt") _ helloFileHeader Hrest eq_refl eq_refl eq_refl)
    as ((Hout & _) & _).
  split; [exact Hout|reflexivity].
Defined.

(** ** What the three structures of an entry agree on *)

(** X22. Bit 3 of the flags in the local header is set exactly when a data
    descriptor follows the payload: an entry whose checksum and sizes were
    known beforehand has the bit clear and an empty descriptor, any other
    entry has the bit set and a descriptor of 16 or 24 bytes. *)
Theorem descriptor_iff_bit3 (started entry : Entry) (header descriptor : Buffer) :
  getLocalFileHeader started = Ok header ->
  getDataDescriptor entry = Ok descriptor ->
  startedAs started entry ->
  Z.testbit (readUInt16LE header 6) 3 = negb (crcAndFileSizeKnown started)
  /\ (Z.testbit (readUInt16LE header 6) 3 = true <-> descriptor <> [])
  /\ (descriptor = [] \/ blen descriptor = 16 \/ blen descriptor = 24).
Proof.
  intros Hheader Hdescriptor (_ & _ & _ & _ & _ & Hknown & _).
  assert (Hflags : readUInt16LE header 6
                   = if crcAndFileSizeKnown started then 0x0800 else 0x0808).
  { revert Hheader. unfold getLocalFileHeader. cbv zeta. intros Hrec.
    rewrite generalPurposeBitFlag_value in Hrec.
    destruct (crcAndFileSizeKnown started);
      bind_inversion Hrec; bytes_of_writes; read_bytes; lia. }
  rewrite Hflags. revert Hdescriptor. unfold getDataDescriptor. rewrite Hknown.
  destruct (crcAndFileSizeKnown started); cbn [negb].
  - intros [= <-]. split; [reflexivity|]. split; [|auto].
    split; [discriminate|congruence].
  - intros Hrec. split; [reflexivity|].
    destruct (useZip64Format entry); cbn [negb] in Hrec;
      bind_inversion Hrec; bytes_of_writes; read_bytes;
      (split; [split; [discriminate|reflexivity]|]); right; [right|left]; reflexivity.
Qed.

Lemma descriptor_iff_bit3_witness :
  (exists header,
     getLocalFileHeader helloStreamEntry = Ok header
     /\ Z.testbit (readUInt16LE header 6) 3 = true)
  /\ (exists descriptor,
        getDataDescriptor sealedEntry = Ok descriptor /\ blen descriptor = 16).
Proof.
  assert (Hh : getLocalFileHeader helloStreamEntry = Ok helloFileHeader) by reflexivity.
  assert (Hd : getDataDescriptor sealedEntry
               = Ok [80; 75; 7; 8; 134; 166; 16; 54; 5; 0; 0; 0; 5; 0; 0; 0]) by reflexivity.
  destruct (descriptor_iff_bit3 helloStreamEntry sealedEntry _ _ Hh Hd) as (Hbit & _ & _).
  { repeat split. }
  split; [exists helloFileHeader; split; [exact Hh|exact Hbit]|].
  eexists. split; [exact Hd|reflexivity].
Defined.

(** X23. The local header written when an entry starts and the central
    directory record written for it at the end, after checksum and sizes
    have been filled in, carry the same flags, method, DOS time and date,
    name length and name. *)
Theorem header_matches_record (started entry : Entry) (header record : Buffer) :
  getLocalFileHeader started = Ok header ->
  getCentralDirectoryRecord entry = Ok record ->
  startedAs started entry ->
  headerMatchesRecord header record.
Proof.
  intros Hheader Hrecord (Hname & Htime & Hdate & _ & Hcompress & Hknown & _).
  revert Hheader Hrecord. unfold getLocalFileHeader, getCentralDirectoryRecord. cbv zeta.
  rewrite !generalPurposeBitFlag_value. unfold compressionMethod.
  rewrite Hname, Htime, Hdate, Hcompress, Hknown.
  intros Hheader Hrecord. unfold headerMatchesRecord.
  bind_inversion Hheader. bind_inversion Hrecord.
  match goal with
  | Hx : (if useZip64Format entry then _ else _) = Ok _ |- _ => clear Hx
  end.
  bytes_of_writes. read_bytes.
  repeat (split; [lia|]).
  rewrite !skipn_O, take_app_length. reflexivity.
Qed.

Lemma header_matches_record_witness :
  startedAs helloStreamEntry sealedEntry
  /\ headerMatchesRecord helloFileHeader (recordOf sealedEntry).
Proof.
  assert (Hs : startedAs helloStreamEntry sealedEntry) by (repeat split).
  split; [exact Hs|].
  apply (header_matches_record helloStreamEntry sealedEntry); [reflexivity|reflexivity|exact Hs].
Defined.

(** ** The finished archive *)

Section Finished.
Context `{Collaborators}.

Lemma centralDirectoryRecords_each (P : Entry -> Prop) entries : forall records,
  centralDirectoryRecords entries = Ok records ->
  Forall P entries ->
  Forall2 (fun entry record => getCentralDirectoryRecord entry = Ok record /\ P entry)
          entries records.
Proof.
  induction entries as [|entry rest IH]; intros records Hrec Hall;
    cbn [centralDirectoryRecords] in Hrec.
  - injection Hrec as <-. constructor.
  - destruct (getCentralDirectoryRecord entry) as [record|e] eqn:Hr; [|discriminate].
    cbn [rbind] in Hrec.
    destruct (centralDirectoryRecords rest) as [records'|e]; [|discriminate].
    cbn [rbind] in Hrec. injection Hrec as <-.
    apply Forall_cons in Hall as [Hhead Hrest].
    constructor; [auto|]. apply IH; [reflexivity|exact Hrest].
Qed.

End Finished.

(** X24. An archive that only adds and removals were made on, at rest, then
    finalized: in the output the central directory starts at the offset the
    end record holds and ends where the end structure starts; it has one
    record per entry of [this.entries], as many as the end record counts, and
    each of these entries has its local header in the output at the offset
    its record is built from; the cursor is the length of the output. *)
Theorem central_directory_is_consistent `{Collaborators} (events : list Event)
    (options : EndOptions) (comment : Buffer) (records : list Buffer) (eocdr : Buffer) :
  let a := run newArchive events in
  let id := nextId (lowlevel a) in
  let record :=
    endRecordFor (outputStreamCursor (zip a)) (truthy (e_forceZip64Format options))
      comment records (blen (thisEntries a)) in
  let a' := run a [Invoke (CallEnd options); Advance; Resume id] in
  Forall notEnd events ->
  atRest a ->
  archiveComment options = Ok comment ->
  centralDirectoryRecords (List.map snd (thisEntries a)) = Ok records ->
  getEndOfCentralDirectoryRecord record false = Ok (EocdrBytes eocdr) ->
  output a' = output a ++ records ++ [eocdr]
  /\ r_offsetOfStartOfCentralDirectory record = totalLength (output a)
  /\ r_outputStreamCursor record = totalLength (output a ++ records)
  /\ r_entriesCount record = blen records
  /\ Forall2 (fun entry bytes =>
                getCentralDirectoryRecord entry = Ok bytes
                /\ headerAt (output a) entry)
             (List.map snd (thisEntries a)) records
  /\ outputStreamCursor (zip a') = totalLength (output a').
Proof.
  intros a id record a' Hev Hrest Hcomment Hrecords Heocdr.
  pose proof (wellKept_run events newArchive wellKept_new) as Hkept. fold a in Hkept.
  destruct (tracked_run events newArchive Hev addsOnly_new tracked_new)
    as [_ (_ & Hlocated & Hcounted)].
  fold a in Hlocated, Hcounted.
  destruct Hrest as (Hchain & Hrest'). unfold counted in Hcounted.
  rewrite Hchain in Hcounted. destruct Hcounted as [_ Hcursor].
  assert (Hrest : atRest a) by (split; assumption).
  destruct (finalize_run a options comment records eocdr Hkept Hrest Hcomment Hrecords Heocdr)
    as (Hout & _ & _ & _ & _ & Hcur').
  assert (Hheaders : Forall (headerAt (output a)) (List.map snd (thisEntries a))).
  { destruct Hkept as (_ & _ & Hne & Harr). rewrite List.Forall_forall in Harr.
    destruct (Harr _ (thisEntries_In a Hne)) as [_ Hall].
    apply List.Forall_forall. intros entry Hin.
    apply in_map_iff in Hin as ([id' entry'] & Heq & Hin). cbn [snd] in Heq. subst entry'.
    destruct (Hall _ _ Hin) as [_ Hs]. exact (Hlocated _ _ Hs). }
  pose proof (centralDirectoryRecords_each _ _ _ Hrecords Hheaders) as Heach.
  split; [exact Hout|]. split; [exact Hcursor|].
  split; [cbn [record endRecordFor r_outputStreamCursor];
          rewrite totalLength_app; fold (output a) in Hcursor; unfold output in *; lia|].
  split.
  { cbn [record endRecordFor r_entriesCount]. unfold blen.
    rewrite <- (Forall2_length _ _ _ Heach), length_map. reflexivity. }
  split; [exact Heach|].
  unfold a', id. rewrite Hcur', Hout, !totalLength_app. unfold output in Hcursor |- *. rewrite Hcursor.
  change (totalLength [eocdr]) with (blen eocdr + 0). lia.
Qed.

Lemma central_directory_is_consistent_witness :
  Forall notEnd [Invoke helloBufferCall; Advance; Resume 0]
  /\ output (run newArchive [Invoke helloBufferCall; Advance; Resume 0;
                              Invoke (CallEnd noEndOptions); Advance; Resume 1])
     = [helloHeader; str "hello"; []; helloRecord; helloEnd]
  /\ totalLength [helloHeader; str "hello"; []] = 40
  /\ readUInt32LE helloEnd 16 = 40
  /\ readUInt32LE helloRecord 42 = 0.
Proof.
  assert (Hev : Forall notEnd [Invoke helloBufferCall; Advance; Resume 0])
    by (repeat constructor).
  assert (Hrest : atRest (run newArchive [Invoke helloBufferCall; Advance; Resume 0]))
    by (repeat split).
  split; [exact Hev|].
  destruct (central_directory_is_consistent [Invoke helloBufferCall; Advance; Resume 0]
              noEndOptions [] [helloRecord] helloEnd Hev Hrest)
    as (Hout & _); [reflexivity|vm_compute; reflexivity|vm_compute; reflexivity|].
  split; [exact Hout|]. repeat split.
Defined.

(** ** The archive as a reader sees it *)

Lemma totalLength_concat chunks : totalLength chunks = blen (archiveBytes chunks).
Proof.
  unfold totalLength, archiveBytes, blen.
  induction chunks as [|c chunks IH]; cbn [fold_right List.concat]; [reflexivity|].
  rewrite IH, length_app. unfold blen. lia.
Qed.

Lemma from_app (xs ys : Buffer) : from (blen xs) (xs ++ ys) = ys.
Proof.
  unfold from, blen. rewrite Nat2Z.id. apply drop_app_length.
Qed.

Lemma byteAt_within (xs ys : Buffer) off :
  (off < List.length xs)%nat -> byteAt (xs ++ ys) off = byteAt xs off.
Proof. intros Hoff. unfold byteAt. apply app_nth1, Hoff. Qed.

Lemma readUInt16LE_app (xs ys : Buffer) off :
  (off + 2 <= List.length xs)%nat -> readUInt16LE (xs ++ ys) off = readUInt16LE xs off.
Proof.
  intros Hoff. unfold readUInt16LE. rewrite !byteAt_within by lia. reflexivity.
Qed.

Lemma readUInt32LE_app (xs ys : Buffer) off :
  (off + 4 <= List.length xs)%nat -> readUInt32LE (xs ++ ys) off = readUInt32LE xs off.
Proof.
  intros Hoff. unfold readUInt32LE. rewrite !byteAt_within by lia. reflexivity.
Qed.

(** The local header of an entry and its central directory record: what a
    reader compares. *)
Lemma header_of_record (started entry : Entry) (header record : Buffer) :
  getLocalFileHeader started = Ok header ->
  getCentralDirectoryRecord entry = Ok record ->
  startedAs started entry ->
  readUInt32LE header 0 = 0x04034b50
  /\ readUInt16LE header 26 = readUInt16LE record 28
  /\ readUInt16LE record 28 = blen (utf8FileName entry)
  /\ skipn 30 header = utf8FileName entry
  /\ List.length header = (30 + List.length (utf8FileName entry))%nat
  /\ firstn (List.length (utf8FileName entry)) (skipn 46 record) = utf8FileName entry.
Proof.
  intros Hheader Hrecord (Hname & Htime & Hdate & _ & Hcompress & Hknown & _).
  revert Hheader Hrecord. unfold getLocalFileHeader, getCentralDirectoryRecord. cbv zeta.
  rewrite !generalPurposeBitFlag_value. unfold compressionMethod.
  rewrite Hname, Htime, Hdate, Hcompress, Hknown.
  intros Hheader Hrecord.
  bind_inversion Hheader. bind_inversion Hrecord.
  match goal with
  | Hx : (if useZip64Format entry then _ else _) = Ok _ |- _ => clear Hx
  end.
  bytes_of_writes. rewrite !length_app. read_bytes.
  repeat (split; [first [lia|reflexivity]|]).
  rewrite !skipn_O, take_app_length. reflexivity.
Qed.

Lemma pointsToHeader_found (before header after record : Buffer) (entry started : Entry) :
  getLocalFileHeader started = Ok header ->
  getCentralDirectoryRecord entry = Ok record ->
  startedAs started entry ->
  useZip64Format entry = false ->
  relativeOffsetOfLocalHeader entry = Some (blen before) ->
  pointsToHeader (before ++ header ++ after) record.
Proof.
  intros Hheader Hrecord Hstarted Hz Hoffset.
  destruct (header_of_record _ _ _ _ Hheader Hrecord Hstarted)
    as (Hsig & Hlen & Hn & Hname & Hsize & Hrname).
  destruct (centralDirectoryRecord_normal _ _ Hrecord Hz) as (_ & _ & Hoff & _).
  rewrite Hoffset in Hoff. cbn [stored] in Hoff.
  unfold pointsToHeader. cbv zeta. rewrite Hoff, from_app.
  rewrite readUInt32LE_app, readUInt16LE_app by lia.
  split; [exact Hsig|]. split; [exact Hlen|].
  rewrite Hn. unfold blen. rewrite Nat2Z.id, Hrname.
  rewrite skipn_app, Hname, Hsize.
  replace (30 - (30 + List.length (utf8FileName entry)))%nat with 0%nat by lia.
  rewrite skipn_O, take_app_length. reflexivity.
Qed.

(** X25. An archive on which only adds and removeEntry were called, at rest,
    then finalized, when neither the end record nor an entry needs the ZIP64
    form, read as one sequence of bytes: the last [22 + comment length]
    bytes are the end record, with its signature, the number of central
    directory records and the size of the central directory; at the offset
    it gives the central directory records follow one another up to the end
    record; and each record gives an offset at which the archive has a local
    file header with the name of the record. *)
Theorem classic_archive_is_readable `{Collaborators} (events : list Event)
    (options : EndOptions) (comment : Buffer) (records : list Buffer) (eocdr : Buffer) :
  let a := run newArchive events in
  let id := nextId (lowlevel a) in
  let record :=
    endRecordFor (outputStreamCursor (zip a)) (truthy (e_forceZip64Format options))
      comment records (blen (thisEntries a)) in
  let a' := run a [Invoke (CallEnd options); Advance; Resume id] in
  Forall notEnd events ->
  atRest a ->
  archiveComment options = Ok comment ->
  centralDirectoryRecords (List.map snd (thisEntries a)) = Ok records ->
  getEndOfCentralDirectoryRecord record false = Ok (EocdrBytes eocdr) ->
  needZip64Format record = false ->
  Forall (fun entry => useZip64Format entry = false) (List.map snd (thisEntries a)) ->
  let archive := archiveBytes (output a') in
  let tail := from (blen archive - 22 - blen comment) archive in
  tail = eocdr
  /\ readUInt32LE tail 0 = 0x06054b50
  /\ readUInt16LE tail 10 = blen records
  /\ readUInt32LE tail 12 = blen (archiveBytes records)
  /\ from (readUInt32LE tail 16) archive = archiveBytes records ++ tail
  /\ skipn 22 tail = comment
  /\ Forall (pointsToHeader archive) records.
Proof.
  intros a id record a' Hev Hrest Hcomment Hrecords Heocdr Hclassic Hnormal archive tail.
  pose proof (wellKept_run events newArchive wellKept_new) as Hkept. fold a in Hkept.
  destruct (tracked_run events newArchive Hev addsOnly_new tracked_new)
    as [_ (_ & Hlocated & Hcounted)].
  fold a in Hlocated, Hcounted.
  pose proof Hrest as (Hchain & _). unfold counted in Hcounted.
  rewrite Hchain in Hcounted. destruct Hcounted as [_ Hcursor].
  destruct (finalize_run a options comment records eocdr Hkept Hrest Hcomment Hrecords Heocdr)
    as (Hout & _).
  assert (Hentries : Forall (fun entry => headerAt (output a) entry
                                          /\ useZip64Format entry = false)
                       (List.map snd (thisEntries a))).
  { destruct Hkept as (_ & _ & Hne & Harr). rewrite List.Forall_forall in Harr.
    destruct (Harr _ (thisEntries_In a Hne)) as [_ Hall].
    rewrite List.Forall_forall in Hnormal.
    apply List.Forall_forall. intros entry Hin. split; [|exact (Hnormal _ Hin)].
    apply in_map_iff in Hin as ([id' entry'] & Heq & Hin). cbn [snd] in Heq. subst entry'.
    destruct (Hall _ _ Hin) as [_ Hs]. exact (Hlocated _ _ Hs). }
  pose proof (centralDirectoryRecords_each _ _ _ Hrecords Hentries) as Heach.
  destruct (endRecord_classic _ _ Heocdr Hclassic)
    as (Hsig & _ & Hcount & Hsize & Hoffset & _ & Htail).
  cbn [record endRecordFor r_entriesCount r_outputStreamCursor
       r_offsetOfStartOfCentralDirectory r_comment] in Hcount, Hsize, Hoffset, Htail.
  pose proof (eocdr_length _ _ Heocdr) as Hlong.
  assert (Hlen : blen eocdr = 22 + blen comment).
  { rewrite <- Htail. unfold blen in *. rewrite length_skipn. lia. }
  assert (Harchive : archive = archiveBytes (output a) ++ archiveBytes records ++ eocdr).
  { unfold archive, a', id. rewrite Hout. unfold archiveBytes.
    rewrite !concat_app. cbn [List.concat]. rewrite app_nil_r. reflexivity. }
  assert (Hfound : tail = eocdr).
  { unfold tail. rewrite Harchive, !app_assoc.
    replace (blen ((archiveBytes (output a) ++ archiveBytes records) ++ eocdr)
             - 22 - blen comment)
      with (blen (archiveBytes (output a) ++ archiveBytes records))
      by (unfold blen in *; rewrite !length_app in *; lia).
    apply from_app. }
  rewrite Hfound.
  split; [reflexivity|]. split; [exact Hsig|].
  split.
  { rewrite Hcount. unfold blen.
    rewrite <- (Forall2_length _ _ _ Heach), length_map. reflexivity. }
  split.
  { rewrite Hsize, <- totalLength_concat. lia. }
  split.
  { rewrite Hoffset, Hcursor. fold (output a). rewrite totalLength_concat, Harchive.
    apply from_app. }
  split; [exact Htail|].
  rewrite Harchive. clear - Heach. generalize (archiveBytes records ++ eocdr) as rest.
  intros rest.
  induction Heach as [|entry bytes entries records' [Hbytes [Hat Hz]] _ IH];
    constructor; [|exact IH].
  destruct Hat as (before & header & after & started & Hchunks & Hoffset & Hheader & Hs).
  rewrite Hchunks. unfold archiveBytes at 1. rewrite concat_app. cbn [List.concat].
  rewrite <- !app_assoc.
  apply (pointsToHeader_found _ _ _ _ entry started); try assumption.
  rewrite Hoffset, totalLength_concat. reflexivity.
Qed.

Lemma classic_archive_is_readable_witness :
  Forall notEnd [Invoke helloBufferCall; Advance; Resume 0]
  /\ from 40 (helloHeader ++ str "hello" ++ helloRecord ++ helloEnd)
     = helloRecord ++ helloEnd
  /\ pointsToHeader (helloHeader ++ str "hello" ++ helloRecord ++ helloEnd) helloRecord.
Proof.
  assert (Hev : Forall notEnd [Invoke helloBufferCall; Advance; Resume 0])
    by (repeat constructor).
  assert (Hrest : atRest (run newArchive [Invoke helloBufferCall; Advance; Resume 0]))
    by (repeat split).
  split; [exact Hev|].
  destruct (classic_archive_is_readable [Invoke helloBufferCall; Advance; Resume 0]
              noEndOptions [] [helloRecord] helloEnd Hev Hrest)
    as (_ & _ & _ & _ & Hdir & _ & Hheaders);
    [reflexivity|vm_compute; reflexivity|vm_compute; reflexivity|vm_compute; reflexivity
    |vm_compute; repeat constructor|].
  apply Forall_cons in Hheaders as [Hhead _].
  vm_compute in Hdir, Hhead. vm_compute. split; assumption.
Defined.
